(** * DDKCORE: transaction pool, transaction queue, task sequence and block
      verifier

    A shallow embedding of

    - [src/logic/newTransactionPool.ts]  (classes [TransactionPool] and
      [TransactionQueue]),
    - the source file of [Sequence]      (the FIFO task serializer),
    - [src/modules/blocks/verify.js]     (the block verifier),

    and of the methods of [class Transactions]
    ([src/modules/transactions.ts]) that drive the pool and the queue,
    followed by the properties of these components.  Not embedded are the
    timers of [Sequence] (its ticks are), the block processor around the
    verifier, which is made of calls to the database and to other modules,
    and [Transactions.checkSenderTransactions].

    Conventions of the embedding.

    - A JavaScript transaction object is a record.  The field [oid] is the
      identity of the object (its reference): two records are the same
      object exactly when they are equal, and two objects with the same
      content carry different [oid]s.  The only field the embedded code
      ever writes is [status]; it lives in the store [statusOf], keyed by
      [oid], so that every alias of an object sees the write.
    - A plain JavaScript object used as a dictionary and enumerated with
      [Object.values] is an insertion-ordered association list
      ([JsObject]); a dictionary that is only read and written by key is a
      [gmap].  Keys inherited from [Object.prototype] are modelled for the
      dictionary [appliedTransactions] of the block verifier, whose keys
      are the ids of a block as a peer sent it; they are not modelled for
      the indexes of the pool.
    - The collaborators that are awaited are the members of the classes
      [TransactionUtils], [TransactionLogic] and [BlockLogic]; the constants
      are the members of [Constants].  A call that can throw returns a
      [Completion].  In the modules [TransactionPool], [TransactionQueue]
      and [Transactions] an [async] method is run to completion at the
      place of its call; the module [Activation] runs the [async] methods
      of the queue one stretch between two [await]s at a time, so that
      calls overlap as they do in the source.
    - JavaScript numbers holding heights, amounts, fees and times are
      integers ([Z]).  Where the block verifier adds amounts and fees up
      and compares the sums, the numbers are the binary64 values nearest
      to these integers and the sum is the one of IEEE 754
      ([Js.Number]).  Logger calls have no effect on the state and are
      left out. *)

From Stdlib Require Import ZArith Ascii String List Bool Lia DecimalString.
From Stdlib Require Import Sorted.
From Stdlib Require SpecFloat.
From stdpp Require Import base gmap list strings.

Import ListNotations.

(** ** Data model ([src/helpers/types], [src/helpers/transactionTypes.js]) *)

(** Modelled from the spec: [helpers/transactionTypes.js] is not part of the
    sources; the tags are the ones the data model enumerates. *)
Inductive TransactionType :=
  | REFERRAL | SEND | SIGNATURE | VOTE | STAKE | SENDSTAKE.

(** Modelled from the spec: the enumeration [TransactionStatus] of
    [helpers/types] is not part of the sources; the tags are the ones the
    pool and the queue assign (the source spells [UNCOFIRM_APPLIED]). *)
Inductive TransactionStatus :=
  | CREATED | QUEUED | QUEUED_AS_CONFLICTED | VERIFIED
  | PUT_IN_POOL | UNCOFIRM_APPLIED | DECLINED | CONFIRMED.

#[global] Instance TransactionType_eq_dec : EqDecision TransactionType.
Proof. solve_decision. Defined.

#[global] Instance TransactionStatus_eq_dec : EqDecision TransactionStatus.
Proof. solve_decision. Defined.

Record Transaction := mkTransaction {
  oid : positive;
  id : string;
  type : TransactionType;
  senderPublicKey : string;
  senderId : string;
  recipientId : string;
  amount : Z;
  fee : Z;
  timestamp : Z
}.

#[global] Instance Transaction_eq_dec : EqDecision Transaction.
Proof. solve_decision. Defined.

Record Account := mkAccount {
  address : string;
  publicKey : string;
  balance : Z;
  u_balance : Z
}.

(** What a piece of JavaScript throws: a [TypeError], an [Error] object or
    a string. *)
Inductive JsError :=
  | TypeError (message : string)
  | Error (message : string)
  | Thrown (value : string).

(** The result of running a piece of JavaScript: a value, or a thrown
    exception (a rejected promise for an [async] function). *)
Inductive Completion (A : Type) :=
  | Normal (value : A)
  | Throw (error : JsError).
Arguments Normal {A} value.
Arguments Throw {A} error.

(** [e.toString()] *)
Definition toString (e : JsError) : string :=
  match e with
  | TypeError m => "TypeError: " ++ m
  | Error m => "Error: " ++ m
  | Thrown v => v
  end.

(** [e.message]: a thrown string has none. *)
Definition messageOf (e : JsError) : option string :=
  match e with
  | TypeError m | Error m => Some m
  | Thrown _ => None
  end.

(** ** JavaScript built-ins used by the sources *)

Module Js.

(** A plain object used as a dictionary: the own properties in insertion
    order, every key at most once. *)
Abbreviation JsObject V := (list (string * V)) (only parsing).

Fixpoint get {V} (k : string) (o : JsObject V) : option V :=
  match o with
  | [] => None
  | (k', v) :: o' => if decide (k' = k) then Some v else get k o'
  end.

(** [o[k] = v]: an existing property keeps its place. *)
Fixpoint set {V} (k : string) (v : V) (o : JsObject V) : JsObject V :=
  match o with
  | [] => [(k, v)]
  | (k', v') :: o' =>
      if decide (k' = k) then (k, v) :: o' else (k', v') :: set k v o'
  end.

(** [delete o[k]] *)
Definition delete {V} (k : string) (o : JsObject V) : JsObject V :=
  filter (fun kv => kv.1 <> k) o.

(** An array index is the canonical decimal numeral of an integer below
    [2^32 - 1]; such keys are enumerated first, in ascending order. *)
Definition digit (a : Ascii.ascii) : option N :=
  let n := Ascii.N_of_ascii a in
  if ((48 <=? n) && (n <=? 57))%N then Some (n - 48)%N else None.

Fixpoint digits (s : string) (acc : N) : option N :=
  match s with
  | EmptyString => Some acc
  | String a s' =>
      match digit a with
      | Some d => digits s' (10 * acc + d)%N
      | None => None
      end
  end.

Definition arrayIndex (s : string) : option N :=
  match s with
  | EmptyString => None
  | String a s' =>
      if decide (a = "0"%char /\ s' <> EmptyString) then None
      else if (10 <? String.length s)%nat then None
      else match digits s 0%N with
           | Some n => if (n <? 4294967295)%N then Some n else None
           | None => None
           end
  end.

Fixpoint insertIndexed {V} (n : N) (v : V) (l : list (N * V)) : list (N * V) :=
  match l with
  | [] => [(n, v)]
  | (m, u) :: l' =>
      if (n <=? m)%N then (n, v) :: (m, u) :: l'
      else (m, u) :: insertIndexed n v l'
  end.

(** The integer-keyed properties in ascending order, and the others. *)
Fixpoint ownProperties {V} (o : JsObject V) : list (N * V) * list V :=
  match o with
  | [] => ([], [])
  | (k, v) :: o' =>
      let '(ix, named) := ownProperties o' in
      match arrayIndex k with
      | Some n => (insertIndexed n v ix, named)
      | None => (ix, v :: named)
      end
  end.

(** [Object.values(o)] *)
Definition values {V} (o : JsObject V) : list V :=
  let '(ix, named) := ownProperties o in (snd <$> ix) ++ named.

(** [Object.keys(o).length] *)
Definition size {V} (o : JsObject V) : nat := length o.

(** [Array.prototype.sort(compare)].  The language fixes the result only
    for a consistent comparator, and requires the sort to be stable; a
    stable insertion sort is such a sort. *)
Section Sort.
Context {A : Type} (compare : A -> A -> Z).

Fixpoint insert (x : A) (l : list A) : list A :=
  match l with
  | [] => [x]
  | y :: l' =>
      if (compare x y <=? 0)%Z then x :: y :: l' else y :: insert x l'
  end.

Definition sort (l : list A) : list A := foldr insert [] l.
End Sort.

(** [array.slice(0, limit)] for an integer [limit]: a negative [limit]
    counts from the end. *)
Definition slice0 {A} (limit : Z) (l : list A) : list A :=
  if (0 <=? limit)%Z then take (Z.to_nat limit) l
  else take (Z.to_nat (Z.of_nat (length l) + limit)) l.

(** [array.indexOf(x)]: the first position holding the object [x], or
    [-1]. *)
Fixpoint indexOf `{EqDecision A} (x : A) (l : list A) : Z :=
  match l with
  | [] => (-1)%Z
  | y :: l' =>
      if decide (y = x) then 0%Z
      else let i := indexOf x l' in
           if (i <? 0)%Z then (-1)%Z else (i + 1)%Z
  end.

(** [array.find(p)] is truthy when some element satisfies [p]. *)
Definition found {A} (p : A -> bool) (l : list A) : bool :=
  match List.find p l with Some _ => true | None => false end.

(** The names of the members of [Object.prototype] (ECMAScript and its
    Annex B).  An object created by [{}] answers a truthy value at each of
    them, though it has no own property of that name: the methods, and at
    ["__proto__"] the prototype itself. *)
Definition objectPrototype : list string :=
  ["constructor"; "hasOwnProperty"; "isPrototypeOf"; "propertyIsEnumerable";
   "toLocaleString"; "toString"; "valueOf"; "__proto__"; "__defineGetter__";
   "__defineSetter__"; "__lookupGetter__"; "__lookupSetter__"]%string.

(** JavaScript numbers: the binary64 values of IEEE 754, with the
    arithmetic [SpecFloat] specifies at precision 53. *)
Module Number.
Definition t : Type := SpecFloat.spec_float.

(** The number an integer denotes: the binary64 value nearest to it. *)
Definition ofZ (z : Z) : t := SpecFloat.binary_normalize 53 1024 z 0 false.

Definition zero : t := SpecFloat.S754_zero false.

(** [x + y] *)
Definition add (x y : t) : t := SpecFloat.SFadd 53 1024 x y.

(** [x === y] *)
Definition strictEquals (x y : t) : bool := SpecFloat.SFeqb x y.
End Number.

End Js.

(** ** Collaborators *)

(** [src/helpers/transaction.utils] and [src/helpers/account.utils] are not
    part of the sources: the comparator and the address derivation are
    members of an interface. *)
Class TransactionUtils := {
  transactionSortFunc : Transaction -> Transaction -> Z;
  generateAddressByPublicKey : string -> string
}.

(** [src/helpers/constants.js] *)
Class Constants := {
  TRANSACTION_QUEUE_EXPIRE : Z;
  MASTER_NODE_MIGRATED_BLOCK : Z;
  maxPayloadLength : Z;
  maxTxsPerBlock : Z;
  maxSharedTxs : Z;
  blockSlotWindow : Z
}.

(** [scope.transactionLogic] and [getOrCreateAccount], acting on the ledger
    [L] of the accounts store. *)
Class TransactionLogic (L : Type) := {
  newApplyUnconfirmed : Transaction -> L -> Completion unit * L;
  newUndoUnconfirmed : Transaction -> L -> Completion unit * L;
  newVerify : Transaction -> Account -> L -> Completion unit * L;
  newVerifyUnconfirmed : Transaction -> Account -> L -> Completion unit * L;
  getOrCreateAccount : string -> L -> Completion Account * L
}.

(** ** State *)

Record PoolState := mkPool {
  pool : Js.JsObject Transaction;
  poolByRecipient : gmap string (list Transaction);
  poolBySender : gmap string (list Transaction);
  locked : bool
}.

Record ConflictedEntry := mkEntry {
  transaction : Transaction;
  expire : Z
}.

Record QueueState := mkQueue {
  queue : list Transaction;
  conflictedQueue : list ConflictedEntry;
  queueLocked : bool
}.

(** A message of [accountSessions.send(address, 'pool/verify', ...)]. *)
Record SessionMessage := mkSession {
  sessionAddress : string;
  sessionVerified : bool;
  sessionError : option string
}.

(** Everything the pool and the queue read and write.  [clock] is the value
    of [new Date().getTime()], in milliseconds. *)
Record World (L : Type) := mkWorld {
  ledger : L;
  clock : Z;
  statusOf : gmap positive TransactionStatus;
  bus : list (string * Transaction);
  sessions : list SessionMessage;
  transactionPool : PoolState;
  transactionQueue : QueueState
}.
Arguments mkWorld {L}.
Arguments ledger {L}.
Arguments clock {L}.
Arguments statusOf {L}.
Arguments bus {L}.
Arguments sessions {L}.
Arguments transactionPool {L}.
Arguments transactionQueue {L}.

Definition emptyPool : PoolState := mkPool [] ∅ ∅ false.
Definition emptyQueue : QueueState := mkQueue [] [] false.
Definition emptyWorld {L} (l : L) (now : Z) : World L :=
  mkWorld l now ∅ [] [] emptyPool emptyQueue.

(** ** The state-and-exception monad of the embedded methods *)

Definition Run (L A : Type) := World L -> Completion A * World L.

Section Monad.
Context {L : Type}.

Definition ret {A} (a : A) : Run L A := fun w => (Normal a, w).

Definition throw {A} (e : JsError) : Run L A := fun w => (Throw e, w).

Definition bind {A B} (m : Run L A) (k : A -> Run L B) : Run L B :=
  fun w =>
    match m w with
    | (Normal a, w') => k a w'
    | (Throw e, w') => (Throw e, w')
    end.

(** [try { m } catch (e) { h e }] *)
Definition tryCatch {A} (m : Run L A) (h : JsError -> Run L A) : Run L A :=
  fun w =>
    match m w with
    | (Normal a, w') => (Normal a, w')
    | (Throw e, w') => h e w'
    end.

(** A call of an [async] method that is not awaited: a rejection of its
    promise does not reach the caller. *)
Definition detached (m : Run L unit) : Run L unit :=
  tryCatch m (fun _ => ret tt).

Definition getWorld : Run L (World L) := fun w => (Normal w, w).

Definition modifyPool (f : PoolState -> PoolState) : Run L unit :=
  fun w => (Normal tt,
            mkWorld (ledger w) (clock w) (statusOf w) (bus w) (sessions w)
                    (f (transactionPool w)) (transactionQueue w)).

Definition modifyQueue (f : QueueState -> QueueState) : Run L unit :=
  fun w => (Normal tt,
            mkWorld (ledger w) (clock w) (statusOf w) (bus w) (sessions w)
                    (transactionPool w) (f (transactionQueue w))).

(** [trs.status = s] *)
Definition setStatus (trs : Transaction) (s : TransactionStatus) : Run L unit :=
  fun w => (Normal tt,
            mkWorld (ledger w) (clock w) (<[oid trs := s]> (statusOf w))
                    (bus w) (sessions w) (transactionPool w)
                    (transactionQueue w)).

(** [scope.bus.message(topic, trs)] *)
Definition busMessage (topic : string) (trs : Transaction) : Run L unit :=
  fun w => (Normal tt,
            mkWorld (ledger w) (clock w) (statusOf w) (bus w ++ [(topic, trs)])
                    (sessions w) (transactionPool w) (transactionQueue w)).

(** [accountSessions.send(address, 'pool/verify', {verified, error})] *)
Definition sessionSend (m : SessionMessage) : Run L unit :=
  fun w => (Normal tt,
            mkWorld (ledger w) (clock w) (statusOf w) (bus w)
                    (sessions w ++ [m]) (transactionPool w)
                    (transactionQueue w)).

(** [await collaborator(...)] *)
Definition await {A} (call : L -> Completion A * L) : Run L A :=
  fun w =>
    let '(c, l') := call (ledger w) in
    (c, mkWorld l' (clock w) (statusOf w) (bus w) (sessions w)
                (transactionPool w) (transactionQueue w)).

(** [for (const x of xs) { body x }] *)
Fixpoint forOf {A} (xs : list A) (body : A -> Run L unit) : Run L unit :=
  match xs with
  | [] => ret tt
  | x :: xs' => bind (body x) (fun _ => forOf xs' body)
  end.
End Monad.

Notation "'let*' x ':=' m 'in' k" := (bind m (fun x => k))
  (at level 10, x pattern, m at level 100, k at level 200).
Notation "m ';;' k" := (bind m (fun _ => k))
  (at level 100, k at level 200, right associativity).

(** ** [class TransactionPool] ([src/logic/newTransactionPool.ts]) *)

Module TransactionPool.
Section Pool.
Context {L : Type} `{TransactionUtils} `{TransactionLogic L}.

Definition setPool (o : Js.JsObject Transaction) (p : PoolState) : PoolState :=
  mkPool o (poolByRecipient p) (poolBySender p) (locked p).

Definition setPoolByRecipient (m : gmap string (list Transaction))
    (p : PoolState) : PoolState :=
  mkPool (pool p) m (poolBySender p) (locked p).

Definition setPoolBySender (m : gmap string (list Transaction))
    (p : PoolState) : PoolState :=
  mkPool (pool p) (poolByRecipient p) m (locked p).

Definition setLocked (b : bool) (p : PoolState) : PoolState :=
  mkPool (pool p) (poolByRecipient p) (poolBySender p) b.

Definition lock : Run L unit := modifyPool (setLocked true).

Definition unlock : Run L unit := modifyPool (setLocked false).

Definition getLockStatus (p : PoolState) : bool := locked p.

(** [this.poolByRecipient[recipientId] || []] *)
Definition getTransactionsByRecipientId (recipientId : string)
    (p : PoolState) : list Transaction :=
  default [] (poolByRecipient p !! recipientId).

(** [this.poolBySender[senderId] || []] *)
Definition getTransactionsBySenderId (senderId : string)
    (p : PoolState) : list Transaction :=
  default [] (poolBySender p !! senderId).

Definition get (id : string) (p : PoolState) : option Transaction :=
  Js.get id (pool p).

(** [Boolean(this.pool[trs.id])] *)
Definition has (trs : Transaction) (p : PoolState) : bool :=
  match Js.get (id trs) (pool p) with Some _ => true | None => false end.

Definition getSize (p : PoolState) : nat := Js.size (pool p).

Definition isPotentialConflict (trs : Transaction) (p : PoolState) : bool :=
  let senderId := generateAddressByPublicKey (senderPublicKey trs) in
  let recipientTrs := default [] (poolByRecipient p !! senderId) in
  let senderTrs := default [] (poolBySender p !! senderId) in
  let dependTransactions := recipientTrs ++ senderTrs in
  if (length dependTransactions =? 0)%nat then false
  else if decide (type trs = SIGNATURE) then true
  else if bool_decide (type trs = VOTE)
          && Js.found (fun t => bool_decide (type t = VOTE)) dependTransactions
  then true
  else if bool_decide (type trs = REFERRAL)
          && Js.found (fun t => bool_decide (type t = REFERRAL)) dependTransactions
  then true
  else
    let dependTransactions :=
      Js.sort transactionSortFunc (dependTransactions ++ [trs]) in
    negb (Js.indexOf trs dependTransactions
          =? Z.of_nat (length dependTransactions) - 1)%Z.

Definition remove (trs : Transaction) : Run L bool :=
  let* w := getWorld in
  match Js.get (id trs) (pool (transactionPool w)) with
  | None => ret false
  | Some _ =>
      tryCatch (await (newUndoUnconfirmed trs)) (fun e => ret tt) ;;
      modifyPool (fun p => setPool (Js.delete (id trs) (pool p)) p) ;;
      let* w := getWorld in
      match poolBySender (transactionPool w) !! senderId trs with
      | None => throw (TypeError "Cannot read property 'filter' of undefined")
      | Some bucket =>
          modifyPool (fun p =>
            setPoolBySender
              (<[senderId trs := filter (fun t => id t <> id trs) bucket]>
                 (poolBySender p)) p) ;;
          modifyPool (fun p =>
            setPoolByRecipient
              (<[recipientId trs :=
                   filter (fun t => id t <> id trs)
                          (default [] (poolByRecipient p !! recipientId trs))]>
                 (poolByRecipient p)) p) ;;
          ret true
      end
  end.

(** The loop shared by [removeTransactionBySenderId] and
    [removeTransactionByRecipientId].  [remove] replaces a bucket by a
    new array, so the array being iterated is not changed under the
    loop. *)
Fixpoint removeEach (transactions removedTransactions : list Transaction)
    : Run L (list Transaction) :=
  match transactions with
  | [] => ret removedTransactions
  | trs :: rest =>
      let* removed := remove trs in
      removeEach rest
        (if removed : bool then removedTransactions ++ [trs]
         else removedTransactions)
  end.

Definition removeTransactionBySenderId (senderId : string)
    : Run L (list Transaction) :=
  let* w := getWorld in
  removeEach (getTransactionsBySenderId senderId (transactionPool w)) [].

Definition removeTransactionByRecipientId (address : string)
    : Run L (list Transaction) :=
  let* w := getWorld in
  removeEach (getTransactionsByRecipientId address (transactionPool w)) [].

Definition push (trs : Transaction) (broadcast force : bool) : Run L bool :=
  let* w := getWorld in
  if locked (transactionPool w) && negb force then ret false
  else if has trs (transactionPool w) then ret false
  else if isPotentialConflict trs (transactionPool w) then
    modifyPool (fun p => setPool (Js.delete (id trs) (pool p)) p) ;;
    ret false
  else
    modifyPool (fun p => setPool (Js.set (id trs) trs (pool p)) p) ;;
    setStatus trs PUT_IN_POOL ;;
    modifyPool (fun p =>
      setPoolBySender
        (<[senderId trs := default [] (poolBySender p !! senderId trs) ++ [trs]]>
           (poolBySender p)) p) ;;
    (if decide (type trs = SEND) then
       modifyPool (fun p =>
         setPoolByRecipient
           (<[recipientId trs :=
                default [] (poolByRecipient p !! recipientId trs) ++ [trs]]>
              (poolByRecipient p)) p)
     else ret tt) ;;
    let* applied :=
      tryCatch
        (await (newApplyUnconfirmed trs) ;;
         setStatus trs UNCOFIRM_APPLIED ;;
         ret true)
        (fun e =>
           modifyPool (fun p => setPool (Js.delete (id trs) (pool p)) p) ;;
           setStatus trs DECLINED ;;
           ret false) in
    if applied : bool then
      (if broadcast then busMessage "transactionPutInPool" trs else ret tt) ;;
      ret true
    else ret false.

(** [pop] does not await [remove]: it returns the stored object, and a
    rejection of the removal is not seen by the caller. *)
Definition pop (trs : Transaction) : Run L (option Transaction) :=
  let* w := getWorld in
  let deletedValue := get (id trs) (transactionPool w) in
  detached (remove trs ;; ret tt) ;;
  ret deletedValue.

Definition popSortedUnconfirmedTransactions (limit : Z)
    : Run L (list Transaction) :=
  let* w := getWorld in
  let transactions :=
    Js.slice0 limit
      (Js.sort transactionSortFunc (Js.values (pool (transactionPool w)))) in
  forOf transactions (fun trs => remove trs ;; ret tt) ;;
  ret transactions.

(** The result [{ transactions, count }] of [getTransactions].  A
    property left out of the argument is [None]: [limit] then takes its
    default; [senderPublicKey] is tested for truthiness, and the empty
    string is falsy. *)
Definition getTransactions {constants : Constants} (limit : option Z)
    (senderPublicKey : option string) (p : PoolState)
    : list Transaction * nat :=
  let limit := default maxSharedTxs limit in
  let senderPublicKey :=
    match senderPublicKey with
    | Some key => if (String.length key =? 0)%nat then None else Some key
    | None => None
    end in
  match senderPublicKey with
  | Some key =>
      let senderId := generateAddressByPublicKey key in
      let recipientTrs := default [] (poolByRecipient p !! senderId) in
      let senderTrs := default [] (poolBySender p !! senderId) in
      let dependTransactions := recipientTrs ++ senderTrs in
      (reverse (Js.slice0 (Z.min limit maxSharedTxs)
                          (Js.sort transactionSortFunc dependTransactions)),
       length dependTransactions)
  | None =>
      let transactions := Js.sort transactionSortFunc (Js.values (pool p)) in
      (Js.slice0 (Z.min limit maxSharedTxs) transactions, length transactions)
  end.

End Pool.
End TransactionPool.

(** ** [class TransactionQueue] ([src/logic/newTransactionPool.ts]) *)

Module TransactionQueue.
Section Queue.
Context {L : Type} `{TransactionUtils} `{Constants} `{TransactionLogic L}.

Definition setQueue (l : list Transaction) (q : QueueState) : QueueState :=
  mkQueue l (conflictedQueue q) (queueLocked q).

Definition setConflictedQueue (l : list ConflictedEntry) (q : QueueState)
    : QueueState :=
  mkQueue (queue q) l (queueLocked q).

Definition setLocked (b : bool) (q : QueueState) : QueueState :=
  mkQueue (queue q) (conflictedQueue q) b.

Definition lock : Run L unit := modifyQueue (setLocked true).

Definition unlock : Run L unit := modifyQueue (setLocked false).

Definition getLockStatus (q : QueueState) : bool := queueLocked q.

(** [this.queue.shift()] *)
Definition pop : Run L (option Transaction) :=
  let* w := getWorld in
  match queue (transactionQueue w) with
  | [] => ret None
  | trs :: rest => modifyQueue (setQueue rest) ;; ret (Some trs)
  end.

Definition hasInQueue (trs : Transaction) (q : QueueState) : bool :=
  negb (length (filter (fun t => id t = id trs) (queue q)) =? 0)%nat.

Definition hasInConflictedQueue (trs : Transaction) (q : QueueState) : bool :=
  negb (length (filter (fun obj => id (transaction obj) = id trs)
                       (conflictedQueue q)) =? 0)%nat.

Definition has (trs : Transaction) (q : QueueState) : bool :=
  hasInQueue trs q || hasInConflictedQueue trs q.

Definition getSize (q : QueueState) : nat * nat :=
  (length (conflictedQueue q), length (queue q)).

Definition pushInConflictedQueue (trs : Transaction) : Run L unit :=
  let* w := getWorld in
  modifyQueue (fun q =>
    setConflictedQueue
      (conflictedQueue q ++
         [mkEntry trs (clock w / 1000 + TRANSACTION_QUEUE_EXPIRE)%Z]) q) ;;
  setStatus trs QUEUED_AS_CONFLICTED.

Definition sendVerifiedMessage (address : string) (verified : bool)
    (error : option string) : Run L unit :=
  sessionSend (mkSession address verified error).

(** The result [{ verified, error }] of [verify]. *)
Definition verify (trs : Transaction) (sender : Account)
    : Run L (bool * list JsError) :=
  let* first :=
    tryCatch (await (newVerify trs sender) ;; ret None)
             (fun e =>
                sendVerifiedMessage (address sender) false (messageOf e) ;;
                ret (Some (false, [e]))) in
  match first with
  | Some r => ret r
  | None =>
      let* second :=
        tryCatch (await (newVerifyUnconfirmed trs sender) ;; ret None)
                 (fun e =>
                    sendVerifiedMessage (address sender) false (messageOf e) ;;
                    ret (Some (false, [e]))) in
      match second with
      | Some r => ret r
      | None =>
          sendVerifiedMessage (address sender) true None ;;
          ret (true, [])
      end
  end.

(** [push], with the call [this.process()] it makes as a parameter.  The
    call is run to its end before [push] returns; [Activation.push] is
    [push] with a call that stops at its first [await]. *)
Definition pushWith (process : Run L unit) (trs : Transaction) : Run L unit :=
  setStatus trs QUEUED ;;
  modifyQueue (fun q => setQueue (queue q ++ [trs]) q) ;;
  let* w := getWorld in
  if (length (queue (transactionQueue w)) =? 1)%nat then detached process
  else modifyQueue (fun q => setQueue (Js.sort transactionSortFunc (queue q)) q).

(** The part of [process] from [getOrCreateAccount] on (the transaction
    passed the duplicate and the conflict checks), with the calls
    [this.process()] it makes as a parameter.  A call [this.process()] is
    not awaited; it is run to completion at the place of the call. *)
Definition processChecked (process : Run L unit) (trs : Transaction)
    : Run L unit :=
  let* sender := await (getOrCreateAccount (senderPublicKey trs)) in
  let* verifyStatus := verify trs sender in
  if negb (fst verifyStatus) then
    setStatus trs DECLINED ;;
    detached process
  else
    setStatus trs VERIFIED ;;
    let* w := getWorld in
    let* pushed :=
      if negb (queueLocked (transactionQueue w))
      then TransactionPool.push trs true false
      else ret false in
    if pushed : bool then detached process
    else
      pushWith process trs ;;
      detached process.

(** The body of [process]. *)
Definition processWith (process : Run L unit) : Run L unit :=
  let* w := getWorld in
  if (length (queue (transactionQueue w)) =? 0)%nat
     || queueLocked (transactionQueue w)
  then ret tt
  else
    let* popped := pop in
    match popped with
    | None => throw (TypeError "Cannot read property 'id' of undefined")
    | Some trs =>
        let* w := getWorld in
        if TransactionPool.has trs (transactionPool w) then ret tt
        else if TransactionPool.isPotentialConflict trs (transactionPool w)
        then
          pushInConflictedQueue trs ;;
          detached process
        else processChecked process trs
    end.

(** [process], unfolded [fuel] times. *)
Fixpoint process (fuel : nat) : Run L unit :=
  match fuel with
  | O => ret tt
  | S fuel' => processWith (process fuel')
  end.

Definition push (fuel : nat) (trs : Transaction) : Run L unit :=
  pushWith (process fuel) trs.

(** [reshuffle], with the call [this.process()] of [push] as a parameter.
    The [while] loop is unfolded at most [turns] times; the result tells
    whether the loop came to its end.  [conflictedQueue.pop()] takes the
    last entry. *)
Fixpoint reshuffleWith (process : Run L unit) (turns : nat) {struct turns}
    : Run L bool :=
  let* w := getWorld in
  match last (conflictedQueue (transactionQueue w)) with
  | None => ret true
  | Some entry =>
      match turns with
      | O => ret false
      | S turns' =>
          modifyQueue (fun q =>
            setConflictedQueue (removelast (conflictedQueue q)) q) ;;
          pushWith process (transaction entry) ;;
          reshuffleWith process turns'
      end
  end.

Definition reshuffle (fuel turns : nat) : Run L bool :=
  reshuffleWith (process fuel) turns.

End Queue.
End TransactionQueue.

(** ** The [async] methods of the queue, one stretch at a time

    A call of an [async] method runs up to its first [await] and returns;
    the rest of its body runs later, one stretch from an [await] to the
    next at a time, and between two stretches other calls and other
    stretches may run.  [TransactionQueue.process] above runs every call
    to its end at the place of the call; here a call stops where the
    method awaits, and what waits is a value that [resume] takes up.

    A collaborator acts on the ledger when it is called; the promise it
    returns carries what it returned or threw. *)

Module Activation.

(** A call that waits at an [await], with what the awaited promise
    carries. *)
Inductive Suspended :=
  (** [process] at [await getOrCreateAccount(...)] *)
  | AtGetOrCreateAccount (trs : Transaction) (settled : Completion Account)
  (** [verify], called by [process], at [await newVerify(...)] *)
  | AtNewVerify (trs : Transaction) (sender : Account)
                (settled : Completion unit)
  (** [verify] at [await newVerifyUnconfirmed(...)] *)
  | AtNewVerifyUnconfirmed (trs : Transaction) (sender : Account)
                           (settled : Completion unit)
  (** [process] at [await this.verify(trs, sender)], [verify] having
      returned [verifyStatus] *)
  | AtVerify (trs : Transaction) (verifyStatus : bool * list JsError)
  (** [transactionPool.push], called by [process], at
      [await newApplyUnconfirmed(trs)] *)
  | AtNewApplyUnconfirmed (trs : Transaction) (broadcast : bool)
                          (settled : Completion unit)
  (** [process] at [await transactionPool.push(trs, true, false)], [push]
      having returned [pushed] *)
  | AtPush (trs : Transaction) (pushed : bool).

(** What may happen next: [putInQueue(trs)] is called, or the call that
    waits at the given place of the list goes on. *)
Inductive Event :=
  | Put (trs : Transaction)
  | Resume (place : nat).

Section Activation.
Context {L : Type} `{TransactionUtils} `{Constants} `{TransactionLogic L}.

(** The call of a collaborator whose promise is awaited. *)
Definition called {A} (collaborator : L -> Completion A * L)
    : Run L (Completion A) :=
  fun w =>
    let '(c, l') := collaborator (ledger w) in
    (Normal c, mkWorld l' (clock w) (statusOf w) (bus w) (sessions w)
                       (transactionPool w) (transactionQueue w)).

(** A call [this.process()] that is not awaited, up to the place where it
    waits: a rejection of its promise does not reach the caller. *)
Definition spawn (m : Run L (list Suspended)) : Run L (list Suspended) :=
  tryCatch m (fun _ => ret []).

(** The body of [process] up to its first [await], with the call
    [this.process()] it makes as a parameter.  The result lists the calls
    that wait when it returns. *)
Definition processWith (process : Run L (list Suspended))
    : Run L (list Suspended) :=
  let* w := getWorld in
  if (length (queue (transactionQueue w)) =? 0)%nat
     || queueLocked (transactionQueue w)
  then ret []
  else
    let* popped := TransactionQueue.pop in
    match popped with
    | None => throw (TypeError "Cannot read property 'id' of undefined")
    | Some trs =>
        let* w := getWorld in
        if TransactionPool.has trs (transactionPool w) then ret []
        else if TransactionPool.isPotentialConflict trs (transactionPool w)
        then
          TransactionQueue.pushInConflictedQueue trs ;;
          spawn process
        else
          let* settled := called (getOrCreateAccount (senderPublicKey trs)) in
          ret [AtGetOrCreateAccount trs settled]
    end.

(** [process], unfolded [fuel] times. *)
Fixpoint processFrom (fuel : nat) : Run L (list Suspended) :=
  match fuel with
  | O => ret []
  | S fuel' => processWith (processFrom fuel')
  end.

(** [process]: a call takes one transaction from the queue before it
    calls [process] again, so the length of the queue bounds the
    unfolding. *)
Definition process : Run L (list Suspended) :=
  let* w := getWorld in
  processFrom (S (length (queue (transactionQueue w)))).

(** [push(trs)] of the queue. *)
Definition push (trs : Transaction) : Run L (list Suspended) :=
  setStatus trs QUEUED ;;
  modifyQueue (fun q => TransactionQueue.setQueue (queue q ++ [trs]) q) ;;
  let* w := getWorld in
  if (length (queue (transactionQueue w)) =? 1)%nat then spawn process
  else
    modifyQueue (fun q =>
      TransactionQueue.setQueue (Js.sort transactionSortFunc (queue q)) q) ;;
    ret [].

(** [this.push(trs); this.process()], the end of [process]. *)
Definition requeue (trs : Transaction) : Run L (list Suspended) :=
  let* started := push trs in
  let* more := spawn process in
  ret (started ++ more).

(** [transactionPool.push(trs, broadcast, force)] up to its [await], or
    to its end when it returns before. *)
Definition poolPush (trs : Transaction) (broadcast force : bool)
    : Run L Suspended :=
  let* w := getWorld in
  if locked (transactionPool w) && negb force then ret (AtPush trs false)
  else if TransactionPool.has trs (transactionPool w)
  then ret (AtPush trs false)
  else if TransactionPool.isPotentialConflict trs (transactionPool w) then
    modifyPool (fun p =>
      TransactionPool.setPool (Js.delete (id trs) (pool p)) p) ;;
    ret (AtPush trs false)
  else
    modifyPool (fun p =>
      TransactionPool.setPool (Js.set (id trs) trs (pool p)) p) ;;
    setStatus trs PUT_IN_POOL ;;
    modifyPool (fun p =>
      TransactionPool.setPoolBySender
        (<[senderId trs := default [] (poolBySender p !! senderId trs) ++ [trs]]>
           (poolBySender p)) p) ;;
    (if decide (type trs = SEND) then
       modifyPool (fun p =>
         TransactionPool.setPoolByRecipient
           (<[recipientId trs :=
                default [] (poolByRecipient p !! recipientId trs) ++ [trs]]>
              (poolByRecipient p)) p)
     else ret tt) ;;
    let* settled := called (newApplyUnconfirmed trs) in
    ret (AtNewApplyUnconfirmed trs broadcast settled).

(** The stretch that follows an [await]: the calls that wait when it
    ends.  It throws when the body does: the promise of the call is then
    rejected. *)
Definition resume (s : Suspended) : Run L (list Suspended) :=
  match s with
  | AtGetOrCreateAccount trs settled =>
      match settled with
      | Throw e => throw e
      | Normal sender =>
          let* settled := called (newVerify trs sender) in
          ret [AtNewVerify trs sender settled]
      end
  | AtNewVerify trs sender settled =>
      match settled with
      | Throw e =>
          TransactionQueue.sendVerifiedMessage (address sender) false
                                               (messageOf e) ;;
          ret [AtVerify trs (false, [e])]
      | Normal _ =>
          let* settled := called (newVerifyUnconfirmed trs sender) in
          ret [AtNewVerifyUnconfirmed trs sender settled]
      end
  | AtNewVerifyUnconfirmed trs sender settled =>
      match settled with
      | Throw e =>
          TransactionQueue.sendVerifiedMessage (address sender) false
                                               (messageOf e) ;;
          ret [AtVerify trs (false, [e])]
      | Normal _ =>
          TransactionQueue.sendVerifiedMessage (address sender) true None ;;
          ret [AtVerify trs (true, [])]
      end
  | AtVerify trs verifyStatus =>
      if negb (fst verifyStatus) then
        setStatus trs DECLINED ;;
        spawn process
      else
        setStatus trs VERIFIED ;;
        let* w := getWorld in
        if negb (queueLocked (transactionQueue w))
        then
          let* waits := poolPush trs true false in
          ret [waits]
        else requeue trs
  | AtNewApplyUnconfirmed trs broadcast settled =>
      match settled with
      | Normal _ =>
          setStatus trs UNCOFIRM_APPLIED ;;
          (if broadcast then busMessage "transactionPutInPool" trs
           else ret tt) ;;
          ret [AtPush trs true]
      | Throw e =>
          modifyPool (fun p =>
            TransactionPool.setPool (Js.delete (id trs) (pool p)) p) ;;
          setStatus trs DECLINED ;;
          ret [AtPush trs false]
      end
  | AtPush trs pushed =>
      if pushed then spawn process else requeue trs
  end.

(** One event, on the list of the calls that wait: a call that goes on
    leaves the list, and the calls that wait when the stretch ends join
    it at the end. *)
Definition happen (event : Event) (waiting : list Suspended)
    : Run L (list Suspended) :=
  match event with
  | Put trs =>
      let* started := push trs in
      ret (waiting ++ started)
  | Resume place =>
      match waiting !! place with
      | None => ret waiting
      | Some s =>
          let* started := spawn (resume s) in
          ret (delete place waiting ++ started)
      end
  end.

(** The events of a list, in order. *)
Fixpoint happenAll (events : list Event) (waiting : list Suspended)
    : Run L (list Suspended) :=
  match events with
  | [] => ret waiting
  | event :: rest =>
      let* waiting := happen event waiting in
      happenAll rest waiting
  end.

(** A call run alone: the calls it leaves waiting go on one after the
    other, [stretches] stretches in all, and nothing else happens
    meanwhile. *)
Definition alone (stretches : nat) (call : Run L (list Suspended))
    : Run L (list Suspended) :=
  let* waiting := call in
  happenAll (replicate stretches (Resume 0)) waiting.

End Activation.
End Activation.

(** ** [class Transactions] ([src/modules/transactions.ts]): the methods
       that drive the pool and the queue *)

Module Transactions.
Section Transactions.
Context {L : Type} `{TransactionUtils} `{Constants} `{TransactionLogic L}.

Definition putInQueue (fuel : nat) (trs : Transaction) : Run L unit :=
  TransactionQueue.push fuel trs.


Definition reshuffleTransactionQueue (fuel turns : nat) : Run L bool :=
  TransactionQueue.reshuffle fuel turns.

(** The loop of [removeFromPool], from the value [removedTransactions]
    has when the loop reaches [transactions]. *)
Fixpoint removeFromPoolFrom (transactions : list Transaction)
    (withDepend : bool) (removedTransactions : list Transaction)
    : Run L (list Transaction) :=
  match transactions with
  | [] => ret removedTransactions
  | trs :: rest =>
      if withDepend then
        let* bySender :=
          TransactionPool.removeTransactionBySenderId (senderId trs) in
        let removedTransactions := removedTransactions ++ bySender in
        let* byRecipient :=
          TransactionPool.removeTransactionByRecipientId (senderId trs) in
        removeFromPoolFrom rest withDepend (removedTransactions ++ byRecipient)
      else
        let* removed := TransactionPool.remove trs in
        removeFromPoolFrom rest withDepend
          (if removed : bool then removedTransactions ++ [trs]
           else removedTransactions)
  end.

Definition removeFromPool (transactions : list Transaction)
    (withDepend : bool) : Run L (list Transaction) :=
  removeFromPoolFrom transactions withDepend [].

Definition pushInPool (transactions : list Transaction) : Run L unit :=
  forOf transactions (fun trs => TransactionPool.push trs false true ;; ret tt).

Definition getQueueSize (w : World L) : nat :=
  snd (TransactionQueue.getSize (transactionQueue w)).

Definition getConflictedQueueSize (w : World L) : nat :=
  fst (TransactionQueue.getSize (transactionQueue w)).

Definition getTransactionPoolSize (w : World L) : nat :=
  TransactionPool.getSize (transactionPool w).

(** [{ transactionQueue, transactionPool }] *)
Definition getLockStatus (w : World L) : bool * bool :=
  (TransactionQueue.getLockStatus (transactionQueue w),
   TransactionPool.getLockStatus (transactionPool w)).

Definition lockTransactionPoolAndQueue : Run L unit :=
  TransactionQueue.lock ;; TransactionPool.lock.

Definition unlockTransactionPoolAndQueue : Run L unit :=
  TransactionQueue.unlock ;; TransactionPool.unlock.

Definition triggerTransactionQueue (fuel : nat) : Run L unit :=
  detached (TransactionQueue.process fuel).

(** [getMergedTransactionList(reverse, limit)] *)
Definition getMergedTransactionList (limit : option Z) (w : World L)
    : list Transaction * nat :=
  TransactionPool.getTransactions limit None (transactionPool w).

Definition inPool (transaction : Transaction) (w : World L) : bool :=
  TransactionPool.has transaction (transactionPool w)
  || TransactionQueue.has transaction (transactionQueue w).

End Transactions.
End Transactions.

(** ** [Sequence], the FIFO task serializer *)

Module Sequence.

(** The JavaScript values a caller can pass to [add]. *)
#[warnings="-register-all"]
Inductive JsValue :=
  | Undefined
  | Null
  | Boolean (b : bool)
  | Number (n : Z)
  | Str (s : string)
  | Function (f : positive)
  | Array (elements : list JsValue)
  | Object.

Definition truthy (v : JsValue) : bool :=
  match v with
  | Undefined | Null => false
  | Boolean b => b
  | Number n => negb (n =? 0)%Z
  | Str s => negb (String.length s =? 0)%nat
  | Function _ | Array _ | Object => true
  end.

(** [typeof(v) === 'function'] *)
Definition isFunction (v : JsValue) : bool :=
  match v with Function _ => true | _ => false end.

(** [util.isArray(v)] *)
Definition isArray (v : JsValue) : bool :=
  match v with Array _ => true | _ => false end.

(** A task [{worker, done}], with the property [args] when it was set. *)
Record Task := mkTask {
  worker : JsValue;
  done : JsValue;
  args : option JsValue
}.

Record state := mkSequence {
  sequence : list Task;
  newSequence : list Task
}.

(** [new Sequence(config)], without the timer it starts. *)
Definition create : state := mkSequence [] [].

(** An argument the caller leaves out is [Undefined]. *)
Definition add (worker args done : JsValue) (s : state) : state :=
  let '(done, args) :=
    if negb (truthy done) && truthy args && isFunction args
    then (args, Undefined) else (done, args) in
  if truthy worker && isFunction worker then
    let task := mkTask worker done (if isArray args then Some args else None) in
    mkSequence (sequence s ++ [task]) (newSequence s)
  else s.

Definition count (s : state) : nat := length (sequence s).

(** A call [task.worker.apply(task.worker, args)] of [__tick]: the worker,
    the arguments that follow the callback, and the [done] of the task,
    which the callback hands the outcome to. *)
Record Invocation := mkInvocation {
  invokedWorker : JsValue;
  invokedArgs : list JsValue;
  invokedDone : JsValue
}.

(** [array.concat(v)]: an array is spread, any other value is appended. *)
Definition concat (array : list JsValue) (v : JsValue) : list JsValue :=
  match v with
  | Array elements => array ++ elements
  | _ => array ++ [v]
  end.

(** The invocation [__tick] makes for a task: [args] starts as the
    callback alone and is extended by [task.args] when that is set. *)
Definition invocation (task : Task) : Invocation :=
  let args :=
    match args task with
    | Some a => if truthy a then concat [] a else []
    | None => []
    end in
  mkInvocation (worker task) args (done task).

(** [__tick(cb)]: the invocation it makes, if any, and the state it
    leaves.  With no task left it only schedules [cb]. *)
Definition __tick (s : state) : option Invocation * state :=
  match sequence s with
  | [] => (None, s)
  | task :: rest =>
      (Some (invocation task), mkSequence rest (newSequence s))
  end.

(** The settings [_default] of the constructor, once extended by the
    configuration. *)
Record Config := mkConfig {
  onWarning : JsValue;
  warningLimit : Z
}.

Definition _default : Config := mkConfig Null 50.

(** [nextSequenceTick]: the arguments of the call of [onWarning], if it
    is made, and what [__tick] does. *)
Definition nextSequenceTick (config : Config) (s : state)
    : Completion (option (nat * Z) * option Invocation * state) :=
  let length := length (sequence s) in
  if truthy (onWarning config) && (warningLimit config <=? Z.of_nat length)%Z
  then
    if isFunction (onWarning config)
    then Normal (Some (length, warningLimit config), fst (__tick s),
                 snd (__tick s))
    else Throw (TypeError "_default.onWarning is not a function")
  else Normal (None, fst (__tick s), snd (__tick s)).

End Sequence.

(** ** The block verifier ([src/modules/blocks/verify.js]) *)

Module Block.
Record t := mk {
  id : option string;
  height : Z;
  previousBlock : option string;
  timestamp : Z;
  version : Z;
  reward : Z;
  totalAmount : Z;
  totalFee : Z;
  payloadLength : Z;
  payloadHash : string;
  numberOfTransactions : Z;
  transactions : list Transaction
}.

Definition setHeight (h : Z) (b : t) : t :=
  mk (id b) h (previousBlock b) (timestamp b) (version b) (reward b)
     (totalAmount b) (totalFee b) (payloadLength b) (payloadHash b)
     (numberOfTransactions b) (transactions b).

Definition setId (i : option string) (b : t) : t :=
  mk i (height b) (previousBlock b) (timestamp b) (version b) (reward b)
     (totalAmount b) (totalFee b) (payloadLength b) (payloadHash b)
     (numberOfTransactions b) (transactions b).

Definition setReward (r : Z) (b : t) : t :=
  mk (id b) (height b) (previousBlock b) (timestamp b) (version b) r
     (totalAmount b) (totalFee b) (payloadLength b) (payloadHash b)
     (numberOfTransactions b) (transactions b).
End Block.

(** A block object as the peers exchange it: the seven properties that
    have a default may be absent. *)
Module BlockObject.
Record t := mk {
  id : option string;
  height : Z;
  previousBlock : option string;
  timestamp : Z;
  payloadHash : string;
  version : option Z;
  reward : option Z;
  totalAmount : option Z;
  totalFee : option Z;
  payloadLength : option Z;
  numberOfTransactions : option Z;
  transactions : option (list Transaction)
}.

(** The object with every property of a block. *)
Definition ofBlock (b : Block.t) : t :=
  mk (Block.id b) (Block.height b) (Block.previousBlock b) (Block.timestamp b)
     (Block.payloadHash b) (Some (Block.version b)) (Some (Block.reward b))
     (Some (Block.totalAmount b)) (Some (Block.totalFee b))
     (Some (Block.payloadLength b)) (Some (Block.numberOfTransactions b))
     (Some (Block.transactions b)).

(** The block an object is, when none of its properties is absent. *)
Definition toBlock (o : t) : option Block.t :=
  match version o, reward o, totalAmount o, totalFee o, payloadLength o,
        numberOfTransactions o, transactions o with
  | Some v, Some r, Some a, Some f, Some l, Some n, Some ts =>
      Some (Block.mk (id o) (height o) (previousBlock o) (timestamp o) v r a f
                     l (payloadHash o) n ts)
  | _, _, _, _, _, _, _ => None
  end.
End BlockObject.

(** The collaborators of the verifier: [library.logic.block],
    [library.logic.transaction], [logic/blockReward.js],
    [helpers/exceptions.js], [logic/block_version.js], [helpers/slots.js]
    and the SHA-256 of [crypto]. *)
Class BlockLogic := {
  logic_block_verifySignature : Block.t -> Completion bool;
  logic_block_getId : Block.t -> Completion string;
  logic_transaction_getBytes : Transaction -> Completion (list Byte.byte);
  blockReward_calcReward : Z -> Z;
  exceptions_blockRewards : list string;
  blockVersion_isValid : Z -> Z -> bool;
  slots_getSlotNumber : Z -> Z;
  slots_currentSlotNumber : Z;
  sha256_hex : list Byte.byte -> string;
  (** The transaction objects of a block: whether [o[k]] is truthy for an
      object [o] that has no own property [k] and whose prototype is the
      transaction object.  The properties a transaction object carries
      beyond those of the data model, and its own prototype, are not part
      of the sources. *)
  transaction_inherits : Transaction -> string -> bool
}.

Module Verify.

(** One constructor for each [result.errors.push] of the source;
    [message] is the string that is pushed. *)
Inductive VerifyError :=
  | SignatureThrown (e : JsError)
  | FailedSignature
  | InvalidPreviousBlock
  | AlreadyInChain
  | InvalidVersion
  | InvalidReward (reward expected : Z)
  | IdThrown (e : JsError)
  | PayloadTooLong
  | CountMismatch
  | TooManyTransactions
  | BytesThrown (e : JsError)
  | DuplicateTransaction (id : string)
  | InvalidPayloadHash
  | InvalidTotalAmount
  | InvalidTotalFee
  | ForkOne (previousBlock lastId : option string)
  | InvalidTimestamp
  | SlotTooOld
  | SlotInFuture.

Definition number (n : Z) : string := NilZero.string_of_int (Z.to_int n).

Definition text (o : option string) : string := default "" o.

Definition message (e : VerifyError) : string :=
  match e with
  | SignatureThrown e | IdThrown e | BytesThrown e => toString e
  | FailedSignature => "Failed to verify block signature"
  | InvalidPreviousBlock => "Invalid previous block"
  | AlreadyInChain => "Block already exists in chain"
  | InvalidVersion => "Invalid block version"
  | InvalidReward r x =>
      "Invalid block reward: " ++ number r ++ " expected: " ++ number x
  | PayloadTooLong => "Payload length is too long"
  | CountMismatch =>
      "Included transactions do not match block transactions count"
  | TooManyTransactions => "Number of transactions exceeds maximum per block"
  | DuplicateTransaction i => "Encountered duplicate transaction: " ++ i
  | InvalidPayloadHash => "Invalid payload hash"
  | InvalidTotalAmount => "Invalid total amount"
  | InvalidTotalFee => "Invalid total fee"
  | ForkOne p l =>
      "Invalid previous block: " ++ text p ++ " expected: " ++ text l
  | InvalidTimestamp => "Invalid block timestamp"
  | SlotTooOld => "Block slot is too old"
  | SlotInFuture => "Block slot is in the future"
  end.

Record Result := mkResult {
  verified : bool;
  errors : list VerifyError
}.

(** [result.errors.push(e)] *)
Definition pushError (e : VerifyError) (r : Result) : Result :=
  mkResult (verified r) (errors r ++ [e]).

(** [!block.previousBlock] *)
Definition falsy (o : option string) : bool :=
  match o with
  | None => true
  | Some s => (String.length s =? 0)%nat
  end.

Section Verifier.
Context `{Constants} `{BlockLogic}.

Definition setHeight (block lastBlock : Block.t) : Block.t :=
  Block.setHeight (Block.height lastBlock + 1) block.

Definition verifySignature (block : Block.t) (result : Result) : Result :=
  let '(valid, result) :=
    match logic_block_verifySignature block with
    | Normal v => (v, result)
    | Throw e => (false, pushError (SignatureThrown e) result)
    end in
  if negb valid && (MASTER_NODE_MIGRATED_BLOCK <? Block.height block)%Z
  then pushError FailedSignature result
  else result.

Definition verifyPreviousBlock (block : Block.t) (result : Result) : Result :=
  if falsy (Block.previousBlock block)
     && negb (Block.height block =? 1)%Z
  then pushError InvalidPreviousBlock result
  else result.

Definition verifyAgainstLastNBlockIds (lastNBlockIds : list (option string))
    (block : Block.t) (result : Result) : Result :=
  if bool_decide (Block.id block ∈ lastNBlockIds)
  then pushError AlreadyInChain result
  else result.

Definition verifyVersion (block : Block.t) (result : Result) : Result :=
  if negb (blockVersion_isValid (Block.version block) (Block.height block))
  then pushError InvalidVersion result
  else result.

Definition verifyReward (block : Block.t) (result : Result)
    : Block.t * Result :=
  let expectedReward := blockReward_calcReward (Block.height block) in
  let '(expectedReward, block) :=
    if (21000000 <? Block.height block)%Z
    then (0%Z, Block.setReward 0 block)
    else (expectedReward, block) in
  if negb (Block.height block =? 1)%Z
     && negb (expectedReward =? Block.reward block)%Z
     && negb (bool_decide (Block.id block ∈ Some <$> exceptions_blockRewards))
  then (block, pushError (InvalidReward (Block.reward block) expectedReward)
                         result)
  else (block, result).

Definition verifyId (block : Block.t) (result : Result) : Block.t * Result :=
  match logic_block_getId block with
  | Normal i => (Block.setId (Some i) block, result)
  | Throw e => (block, pushError (IdThrown e) result)
  end.

(** The dictionary [appliedTransactions] of [verifyPayload], an object
    created by [{}]: the own properties the loop has written, and the
    transaction the loop has made its prototype, if any. *)
Record Applied := mkApplied {
  written : gmap string Transaction;
  prototype : option Transaction
}.

(** [{}] *)
Definition noneApplied : Applied := mkApplied ∅ None.

(** [appliedTransactions[k]] is truthy: an own property holds a
    transaction object; a key that is no own property is looked up along
    the prototype chain, which starts at [Object.prototype] or at the
    transaction that was made the prototype. *)
Definition appliedAt (k : string) (applied : Applied) : bool :=
  match written applied !! k with
  | Some _ => true
  | None =>
      match prototype applied with
      | Some transaction => transaction_inherits transaction k
      | None => bool_decide (k ∈ Js.objectPrototype)
      end
  end.

(** [appliedTransactions[k] = transaction]: at the key ["__proto__"] the
    assignment reaches the setter of [Object.prototype], which writes no
    own property and makes the transaction the prototype. *)
Definition appliedSet (k : string) (transaction : Transaction)
    (applied : Applied) : Applied :=
  if decide (k = "__proto__"%string)
  then mkApplied (written applied) (Some transaction)
  else mkApplied (<[k := transaction]> (written applied)) (prototype applied).

(** The variables of the loop of [verifyPayload]. *)
Record Payload := mkPayload {
  payloadErrors : Result;
  appliedTransactions : Applied;
  hashed : list Byte.byte;
  accumulatedAmount : Js.Number.t;
  accumulatedFee : Js.Number.t
}.

Definition payloadStep (acc : Payload) (transaction : Transaction) : Payload :=
  let '(bytes, result) :=
    match logic_transaction_getBytes transaction with
    | Normal b => (Some b, payloadErrors acc)
    | Throw e => (None, pushError (BytesThrown e) (payloadErrors acc))
    end in
  let result :=
    if appliedAt (id transaction) (appliedTransactions acc)
    then pushError (DuplicateTransaction (id transaction)) result
    else result in
  mkPayload result
            (appliedSet (id transaction) transaction (appliedTransactions acc))
            (match bytes with
             | Some b => hashed acc ++ b
             | None => hashed acc
             end)
            (Js.Number.add (accumulatedAmount acc)
                           (Js.Number.ofZ (amount transaction)))
            (Js.Number.add (accumulatedFee acc)
                           (Js.Number.ofZ (fee transaction))).

Definition verifyPayload (block : Block.t) (result : Result) : Result :=
  let migrated := (MASTER_NODE_MIGRATED_BLOCK <? Block.height block)%Z in
  let count := Z.of_nat (length (Block.transactions block)) in
  let result :=
    if (maxPayloadLength <? Block.payloadLength block)%Z
    then pushError PayloadTooLong result else result in
  let result :=
    if negb (count =? Block.numberOfTransactions block)%Z && migrated
    then pushError CountMismatch result else result in
  let result :=
    if (maxTxsPerBlock <? count)%Z
    then pushError TooManyTransactions result else result in
  let acc :=
    foldl payloadStep
          (mkPayload result noneApplied [] Js.Number.zero Js.Number.zero)
          (Block.transactions block) in
  let result := payloadErrors acc in
  let result :=
    if negb (String.eqb (sha256_hex (hashed acc)) (Block.payloadHash block))
       && migrated
    then pushError InvalidPayloadHash result else result in
  let result :=
    if negb (Js.Number.strictEquals (accumulatedAmount acc)
                                    (Js.Number.ofZ (Block.totalAmount block)))
       && migrated
    then pushError InvalidTotalAmount result else result in
  let result :=
    if negb (Js.Number.strictEquals (accumulatedFee acc)
                                    (Js.Number.ofZ (Block.totalFee block)))
       && migrated
    then pushError InvalidTotalFee result else result in
  result.

(** [modules.delegates.fork(block, 1)] is recorded in the list of fork
    signals. *)
Definition verifyForkOne (block lastBlock : Block.t)
    (forks : list (Block.t * Z)) (result : Result)
    : list (Block.t * Z) * Result :=
  if negb (falsy (Block.previousBlock block))
     && negb (bool_decide (Block.previousBlock block = Block.id lastBlock))
  then (forks ++ [(block, 1%Z)],
        pushError (ForkOne (Block.previousBlock block) (Block.id lastBlock))
                  result)
  else (forks, result).

Definition verifyBlockSlot (block lastBlock : Block.t) (result : Result)
    : Result :=
  let blockSlotNumber := slots_getSlotNumber (Block.timestamp block) in
  let lastBlockSlotNumber := slots_getSlotNumber (Block.timestamp lastBlock) in
  if (slots_currentSlotNumber <? blockSlotNumber)%Z
     || (blockSlotNumber <=? lastBlockSlotNumber)%Z
  then pushError InvalidTimestamp result
  else result.

Definition verifyBlockSlotWindow (block : Block.t) (result : Result)
    : Result :=
  let currentApplicationSlot := slots_currentSlotNumber in
  let blockSlot := slots_getSlotNumber (Block.timestamp block) in
  let result :=
    if (blockSlotWindow <? currentApplicationSlot - blockSlot)%Z
    then pushError SlotTooOld result else result in
  if (currentApplicationSlot <? blockSlot)%Z
  then pushError SlotInFuture result else result.

(** The last step of both pipelines. *)
Definition conclude (result : Result) : Result :=
  mkResult (length (errors result) =? 0)%nat (reverse (errors result)).

(** [verifyReceipt]: the block as the verifier leaves it, and the
    result. *)
Definition verifyReceipt (lastBlock : Block.t)
    (lastNBlockIds : list (option string)) (block : Block.t)
    : Block.t * Result :=
  let block := setHeight block lastBlock in
  let result := mkResult false [] in
  let result := verifySignature block result in
  let result := verifyPreviousBlock block result in
  let result := verifyAgainstLastNBlockIds lastNBlockIds block result in
  let result := verifyBlockSlotWindow block result in
  let result := verifyVersion block result in
  let '(block, result) := verifyId block result in
  let result := verifyPayload block result in
  (block, conclude result).

(** [verifyBlock]: the block as the verifier leaves it, the fork signals
    and the result. *)
Definition verifyBlock (lastBlock : Block.t) (block : Block.t)
    : Block.t * list (Block.t * Z) * Result :=
  let block := setHeight block lastBlock in
  let result := mkResult false [] in
  let result := verifySignature block result in
  let result := verifyPreviousBlock block result in
  let result := verifyVersion block result in
  let '(block, result) := verifyId block result in
  let result := verifyPayload block result in
  let '(forks, result) := verifyForkOne block lastBlock [] result in
  let result := verifyBlockSlot block lastBlock result in
  (block, forks, conclude result).

(** [onNewBlock] *)
Definition onNewBlock (block : Block.t) (lastNBlockIds : list (option string))
    : list (option string) :=
  let ids := lastNBlockIds ++ [Block.id block] in
  if (blockSlotWindow <? Z.of_nat (length ids))%Z then tail ids else ids.

(** [__private.verifyBlock]: the error handed to the callback, if any. *)
Definition private_verifyBlock (lastBlock : Block.t) (block : Block.t)
    : option string :=
  let result := snd (verifyBlock lastBlock block) in
  if negb (verified result) then message <$> head (errors result)
  else None.

End Verifier.

(** [x || 0] for a number or [undefined]. *)
Definition orZero (x : option Z) : option Z :=
  match x with
  | Some n => if (n =? 0)%Z then Some 0%Z else Some n
  | None => Some 0%Z
  end.

(** [Verify.prototype.addBlockProperties] *)
Definition addBlockProperties (block : BlockObject.t) : BlockObject.t :=
  let totalAmount := orZero (BlockObject.totalAmount block) in
  let totalFee := orZero (BlockObject.totalFee block) in
  let reward := orZero (BlockObject.reward block) in
  let version :=
    match BlockObject.version block with
    | None => Some 0%Z
    | v => v
    end in
  let numberOfTransactions :=
    match BlockObject.numberOfTransactions block with
    | None =>
        match BlockObject.transactions block with
        | None => Some 0%Z
        | Some transactions => Some (Z.of_nat (length transactions))
        end
    | n => n
    end in
  let payloadLength :=
    match BlockObject.payloadLength block with
    | None => Some 0%Z
    | l => l
    end in
  let transactions :=
    match BlockObject.transactions block with
    | None => Some []
    | ts => ts
    end in
  BlockObject.mk (BlockObject.id block) (BlockObject.height block)
    (BlockObject.previousBlock block) (BlockObject.timestamp block)
    (BlockObject.payloadHash block) version reward totalAmount totalFee
    payloadLength numberOfTransactions transactions.

(** [delete o.x] when [test] holds of a present [o.x]. *)
Definition deleteWhen {A} (test : A -> bool) (x : option A) : option A :=
  match x with
  | Some a => if test a then None else Some a
  | None => None
  end.

(** [Verify.prototype.deleteBlockProperties] *)
Definition deleteBlockProperties (block : BlockObject.t) : BlockObject.t :=
  let isZero := fun n => (n =? 0)%Z in
  BlockObject.mk (BlockObject.id block) (BlockObject.height block)
    (BlockObject.previousBlock block) (BlockObject.timestamp block)
    (BlockObject.payloadHash block)
    (deleteWhen isZero (BlockObject.version block))
    (deleteWhen isZero (BlockObject.reward block))
    (deleteWhen isZero (BlockObject.totalAmount block))
    (deleteWhen isZero (BlockObject.totalFee block))
    (deleteWhen isZero (BlockObject.payloadLength block))
    (deleteWhen (fun _ => true) (BlockObject.numberOfTransactions block))
    (deleteWhen (fun ts => (length ts =? 0)%nat)
                (BlockObject.transactions block)).

(** [__private.addBlockProperties(block, broadcast, cb)] *)
Definition private_addBlockProperties (block : BlockObject.t)
    (broadcast : bool) : BlockObject.t :=
  if negb broadcast then addBlockProperties block else block.

End Verify.

(** ** Vocabulary of the properties *)

Module PoolSpec.
Section PoolSpec.
Context `{TransactionUtils}.

(** [t] is the object stored under its id in the primary index. *)
Definition inById (t : Transaction) (p : PoolState) : Prop :=
  Js.get (id t) (pool p) = Some t.

Definition inBySender (t : Transaction) (p : PoolState) : Prop :=
  t ∈ TransactionPool.getTransactionsBySenderId (senderId t) p.

Definition inByRecipient (t : Transaction) (p : PoolState) : Prop :=
  t ∈ TransactionPool.getTransactionsByRecipientId (recipientId t) p.

(** The invariant P1 (INV-1) of the three indexes. *)
Definition P1 (p : PoolState) : Prop :=
  forall t,
    (inById t p <-> inBySender t p) /\
    (inByRecipient t p <-> inById t p /\ type t = SEND).

(** No transaction carrying the id of [t] is left in the primary index,
    in the sender bucket of [t] or in the recipient bucket of [t]. *)
Definition absent (t : Transaction) (p : PoolState) : Prop :=
  Js.get (id t) (pool p) = None /\
  Forall (fun u => id u <> id t)
         (TransactionPool.getTransactionsBySenderId (senderId t) p) /\
  Forall (fun u => id u <> id t)
         (TransactionPool.getTransactionsByRecipientId (recipientId t) p).

(** What [push] and [remove] maintain on every pool they are given: the
    primary index maps each id once, to a transaction carrying that id,
    whose sender bucket exists. *)
Definition wellFormed (p : PoolState) : Prop :=
  NoDup (fst <$> pool p) /\
  Forall (fun kt => id kt.2 = kt.1 /\
                    is_Some (poolBySender p !! senderId kt.2))
         (pool p).

(** The indexes after a call [remove(trs)] that finds the id of [trs] in
    the primary index and finds the sender bucket of [trs]. *)
Definition removed (trs : Transaction) (p : PoolState) : PoolState :=
  mkPool (Js.delete (id trs) (pool p))
         (<[recipientId trs :=
              filter (fun t => id t <> id trs)
                     (default [] (poolByRecipient p !! recipientId trs))]>
            (poolByRecipient p))
         (<[senderId trs :=
              filter (fun t => id t <> id trs)
                     (default [] (poolBySender p !! senderId trs))]>
            (poolBySender p))
         (locked p).

(** The indexes after the insertions of a call [push(trs)]. *)
Definition inserted (trs : Transaction) (p : PoolState) : PoolState :=
  mkPool (Js.set (id trs) trs (pool p))
         (if decide (type trs = SEND)
          then <[recipientId trs :=
                   default [] (poolByRecipient p !! recipientId trs) ++ [trs]]>
                 (poolByRecipient p)
          else poolByRecipient p)
         (<[senderId trs :=
              default [] (poolBySender p !! senderId trs) ++ [trs]]>
            (poolBySender p))
         (locked p).

(** The dependent transactions of [trs]. *)
Definition dependent (trs : Transaction) (p : PoolState) : list Transaction :=
  let senderId := generateAddressByPublicKey (senderPublicKey trs) in
  TransactionPool.getTransactionsByRecipientId senderId p
    ++ TransactionPool.getTransactionsBySenderId senderId p.

(** The rule set of the conflict detector, in the words of the
    specification. *)
Definition conflictRules (trs : Transaction) (p : PoolState) : bool :=
  match dependent trs p with
  | [] => false
  | dep =>
      if bool_decide (type trs = SIGNATURE) then true
      else if bool_decide
                ((type trs = VOTE /\ Exists (fun d => type d = VOTE) dep) \/
                 (type trs = REFERRAL /\
                  Exists (fun d => type d = REFERRAL) dep))
      then true
      else bool_decide
             (last (Js.sort transactionSortFunc (dep ++ [trs])) <> Some trs)
  end.

(** The first [limit] transactions of the primary index in the order of
    [transactionSortFunc]. *)
Definition firstSorted (limit : Z) (p : PoolState) : list Transaction :=
  take (Z.to_nat limit) (Js.sort transactionSortFunc (Js.values (pool p))).

(** The entry [pushInConflictedQueue] appends at time [now] (in
    milliseconds). *)
Definition conflictedEntry `{Constants} (trs : Transaction) (now : Z)
    : ConflictedEntry :=
  mkEntry trs (now / 1000 + TRANSACTION_QUEUE_EXPIRE)%Z.
End PoolSpec.

Section RemoveInOrder.
Context {L : Type} `{TransactionLogic L}.

(** Calling [remove] on each transaction of a list, in that order. *)
Fixpoint removeInOrder (ts : list Transaction) : Run L unit :=
  match ts with
  | [] => ret tt
  | t :: rest => let* _ := TransactionPool.remove t in removeInOrder rest
  end.
End RemoveInOrder.

Section Reachable.
Context {L : Type} {utils : TransactionUtils} {logic : TransactionLogic L}.

(** A run that keeps the pool well formed. *)
Definition keepsWellFormed {A} (m : Run L A) : Prop :=
  forall w, wellFormed (transactionPool w) ->
            wellFormed (transactionPool (snd (m w))).

(** The states of a pool: no code of the node writes the indexes but the
    methods of the class, so a pool is in the state [new TransactionPool]
    creates or in one that a method leaves, whether it returns or throws;
    the rest of the node only changes what is outside the pool. *)
Inductive reachable : World L -> Prop :=
  | reachable_new l now st b ss q :
      reachable (mkWorld l now st b ss emptyPool q)
  | reachable_elsewhere w w' :
      reachable w -> transactionPool w' = transactionPool w -> reachable w'
  | reachable_lock w :
      reachable w -> reachable (snd (TransactionPool.lock w))
  | reachable_unlock w :
      reachable w -> reachable (snd (TransactionPool.unlock w))
  | reachable_push w trs broadcast force :
      reachable w ->
      reachable (snd (TransactionPool.push trs broadcast force w))
  | reachable_remove w trs :
      reachable w -> reachable (snd (TransactionPool.remove trs w))
  | reachable_pop w trs :
      reachable w -> reachable (snd (TransactionPool.pop trs w))
  | reachable_popSorted w limit :
      reachable w ->
      reachable (snd (TransactionPool.popSortedUnconfirmedTransactions limit w))
  | reachable_removeBySender w senderId :
      reachable w ->
      reachable (snd (TransactionPool.removeTransactionBySenderId senderId w))
  | reachable_removeByRecipient w address :
      reachable w ->
      reachable (snd (TransactionPool.removeTransactionByRecipientId address w)).
End Reachable.

Section Indexed.
Context {utils : TransactionUtils}.

(** The part of the agreement between the three indexes that holds in
    every state: a stored transaction is listed in the bucket of its
    sender, and in the bucket of its recipient when it is a [SEND]; a
    bucket lists only transactions of its own key, a recipient bucket
    only [SEND]s whose sender has a bucket. *)
Definition indexed (p : PoolState) : Prop :=
  wellFormed p /\
  (forall t, inById t p ->
     inBySender t p /\ (type t = SEND -> inByRecipient t p)) /\
  (forall s t, t ∈ TransactionPool.getTransactionsBySenderId s p ->
     senderId t = s) /\
  (forall r t, t ∈ TransactionPool.getTransactionsByRecipientId r p ->
     recipientId t = r /\ type t = SEND /\
     is_Some (poolBySender p !! senderId t)).

(** The primary index after calls of [remove] on the transactions [ts]:
    the ids of [ts] are gone, the others are as they were. *)
Definition withoutIds (ts : list Transaction) (p p' : PoolState) : Prop :=
  forall k,
    Js.get k (pool p')
    = if bool_decide (k ∈ id <$> ts) then None else Js.get k (pool p).
End Indexed.
End PoolSpec.

Module QueueSpec.
Section QueueSpec.
Context {L : Type}.

(** A run that leaves the conflicted queue as it found it. *)
Definition keepsConflicted {A} (m : Run L A) : Prop :=
  forall w, conflictedQueue (transactionQueue (snd (m w)))
            = conflictedQueue (transactionQueue w).
End QueueSpec.
End QueueSpec.

Module NumberSpec.


End NumberSpec.

Module VerifySpec.
Section VerifySpec.
Context `{BlockLogic}.

(** The bytes the rolling hash is fed: those of the transactions whose
    [getBytes] returns, in the order of the block. *)
Fixpoint payloadBytes (ts : list Transaction) : list Byte.byte :=
  match ts with
  | [] => []
  | t :: rest =>
      match logic_transaction_getBytes t with
      | Normal b => b ++ payloadBytes rest
      | Throw _ => payloadBytes rest
      end
  end.



(** The amounts and the fees added up as JavaScript numbers, from 0 and
    in the order of the block: [((0 + a1) + a2) + ...], each sum rounded
    to the nearest binary64 value. *)
Definition addedAmount (ts : list Transaction) : Js.Number.t :=
  foldl (fun s t => Js.Number.add s (Js.Number.ofZ (amount t)))
        Js.Number.zero ts.

Definition addedFee (ts : list Transaction) : Js.Number.t :=
  foldl (fun s t => Js.Number.add s (Js.Number.ofZ (fee t)))
        Js.Number.zero ts.

(** The transaction that is the prototype of [appliedTransactions] once
    the loop has gone through [ts]: the last one whose id is
    ["__proto__"]. *)
Definition protoOf (ts : list Transaction) : option Transaction :=
  last (filter (fun t => id t = "__proto__"%string) ts).

(** [appliedTransactions] once the loop has gone through [ts], and
    whether it then answers at the id [k]: a transaction of [ts] has the id [k], which is not
    ["__proto__"], or the name [k] is inherited, from the transaction
    that was made the prototype or else from [Object.prototype]. *)
Definition appliedAfter (ts : list Transaction) : Verify.Applied :=
  foldl (fun applied t => Verify.appliedSet (id t) t applied)
        Verify.noneApplied ts.

Definition answers (ts : list Transaction) (k : string) : bool :=
  bool_decide (k <> "__proto__"%string /\ k ∈ id <$> ts)
  || match protoOf ts with
     | Some t => transaction_inherits t k
     | None => bool_decide (k ∈ Js.objectPrototype)
     end.

(** The expected reward of [verifyReward]. *)
Definition expectedReward (block : Block.t) : Z :=
  if (21000000 <? Block.height block)%Z then 0%Z
  else blockReward_calcReward (Block.height block).
End VerifySpec.

(** The errors the loop of [verifyPayload] pushes. *)
Definition fromLoop (e : Verify.VerifyError) : Prop :=
  match e with
  | Verify.BytesThrown _ | Verify.DuplicateTransaction _ => True
  | _ => False
  end.

(** The errors [verifyId] does not push. *)
Definition notFromId (e : Verify.VerifyError) : Prop :=
  match e with Verify.IdThrown _ => False | _ => True end.

(** The list an [if (b) result.errors.push(e)] appends. *)
Definition when (b : bool) (e : Verify.VerifyError) : list Verify.VerifyError :=
  if b then [e] else [].

(** A step that appends errors, none of them from [verifyId]. *)
Definition appendsOthers (r r' : Verify.Result) : Prop :=
  exists es, Verify.errors r' = Verify.errors r ++ es /\ Forall notFromId es.

(** The errors of the loop of [verifyPayload] over [ts], in order, when
    it has gone through [seen] before: for each transaction what
    [getBytes] throws, then its id if [appliedTransactions] answers at
    it. *)
Fixpoint loopErrors `{BlockLogic} (seen ts : list Transaction)
    : list Verify.VerifyError :=
  match ts with
  | [] => []
  | t :: rest =>
      match logic_transaction_getBytes t with
      | Normal _ => []
      | Throw e => [Verify.BytesThrown e]
      end
      ++ when (answers seen (id t)) (Verify.DuplicateTransaction (id t))
      ++ loopErrors (seen ++ [t]) rest
  end.
End VerifySpec.

Module SequenceSpec.
Import Sequence.

(** The calls [add(worker, args, done)] of a list, in order. *)
Definition addAll (calls : list (JsValue * JsValue * JsValue)) (s : state)
    : state :=
  foldl (fun s '(worker, args, done) => add worker args done s) s calls.

(** [n] ticks: the invocations they make, in order, and the state they
    leave.  Every worker is taken to call its callback, which schedules
    the next tick. *)
Fixpoint ticks (n : nat) (s : state) : list Invocation * state :=
  match n with
  | O => ([], s)
  | S n' =>
      let '(invocation, s') := __tick s in
      let '(rest, s'') := ticks n' s' in
      (match invocation with
       | Some i => i :: rest
       | None => rest
       end, s'')
  end.

(** The invocation a call [add(worker, args, done)] leads to, if any. *)
Definition invocationOf (call : JsValue * JsValue * JsValue)
    : option Invocation :=
  let '(worker, args, done) := call in
  if isFunction worker then
    Some (mkInvocation worker
            (match args with Array elements => elements | _ => [] end)
            (if negb (truthy done) && isFunction args then args else done))
  else None.
End SequenceSpec.

Module AcceptSpec.
Section AcceptSpec.
Context {constants : Constants} {blockLogic : BlockLogic}.

(** What [verifyPayload] asks of a block: a payload length and a number
    of transactions within the limits, transactions whose bytes
    [getBytes] returns, and ids at which [appliedTransactions] does not
    answer when the loop reaches them (no id of an earlier transaction,
    no inherited name); above [MASTER_NODE_MIGRATED_BLOCK] also the
    number of transactions and the payload hash the block declares, and
    declared totals that are equal, as JavaScript numbers, to the amounts
    and the fees added up as JavaScript numbers. *)
Definition payloadAccepted (block : Block.t) : Prop :=
  let ts := Block.transactions block in
  (Block.payloadLength block <= maxPayloadLength)%Z /\
  (Z.of_nat (length ts) <= maxTxsPerBlock)%Z /\
  (forall t, t ∈ ts -> exists bytes, logic_transaction_getBytes t = Normal bytes) /\
  (forall l1 u l2, ts = l1 ++ u :: l2 -> VerifySpec.answers l1 (id u) = false) /\
  ((MASTER_NODE_MIGRATED_BLOCK < Block.height block)%Z ->
     Z.of_nat (length ts) = Block.numberOfTransactions block /\
     sha256_hex (VerifySpec.payloadBytes ts) = Block.payloadHash block /\
     Js.Number.strictEquals (VerifySpec.addedAmount ts)
                            (Js.Number.ofZ (Block.totalAmount block)) = true /\
     Js.Number.strictEquals (VerifySpec.addedFee ts)
                            (Js.Number.ofZ (Block.totalFee block)) = true).

(** What the checks shared by [verifyBlock] and [verifyReceipt] ask of a
    block whose height has been set. *)
Definition commonAccepted (block : Block.t) : Prop :=
  (logic_block_verifySignature block = Normal true \/
   (logic_block_verifySignature block = Normal false /\
    (Block.height block <= MASTER_NODE_MIGRATED_BLOCK)%Z)) /\
  (Verify.falsy (Block.previousBlock block) = false \/
   Block.height block = 1%Z) /\
  blockVersion_isValid (Block.version block) (Block.height block) = true /\
  (exists i, logic_block_getId block = Normal i) /\
  payloadAccepted block.

(** The blocks [verifyBlock] verifies on top of [lastBlock]. *)
Definition blockAccepted (lastBlock block : Block.t) : Prop :=
  let block := Verify.setHeight block lastBlock in
  commonAccepted block /\
  (Verify.falsy (Block.previousBlock block) = true \/
   Block.previousBlock block = Block.id lastBlock) /\
  (slots_getSlotNumber (Block.timestamp block) <= slots_currentSlotNumber)%Z /\
  (slots_getSlotNumber (Block.timestamp lastBlock)
   < slots_getSlotNumber (Block.timestamp block))%Z.

(** The blocks [verifyReceipt] verifies on top of [lastBlock]. *)
Definition receiptAccepted (lastBlock : Block.t)
    (lastNBlockIds : list (option string)) (block : Block.t) : Prop :=
  let block := Verify.setHeight block lastBlock in
  commonAccepted block /\
  (Block.id block ∉ lastNBlockIds) /\
  (0 <= slots_currentSlotNumber - slots_getSlotNumber (Block.timestamp block)
     <= blockSlotWindow)%Z.
End AcceptSpec.
End AcceptSpec.

(** ** A concrete node, used to run the model *)

Module Scenario.
#[local] Open Scope Z_scope.

(** A comparator on the timestamp, and addresses ["DDK" ++ publicKey]. *)
Definition utils : TransactionUtils := {|
  transactionSortFunc a b := (timestamp a - timestamp b)%Z;
  generateAddressByPublicKey pk := String.append "DDK" pk
|}.

Definition constants : Constants := {|
  TRANSACTION_QUEUE_EXPIRE := 300;
  MASTER_NODE_MIGRATED_BLOCK := 1000;
  maxPayloadLength := 1048576;
  maxTxsPerBlock := 250;
  maxSharedTxs := 100;
  blockSlotWindow := 5
|}.

(** A ledger on which every sender can spend 100: [newApplyUnconfirmed]
    throws for a transaction that costs more and applies any other. *)
Definition logic : TransactionLogic unit := {|
  newApplyUnconfirmed trs l :=
    if (100 <? amount trs + fee trs)%Z
    then (Throw (Error "Insufficient balance"), l)
    else (Normal tt, l);
  newUndoUnconfirmed trs l := (Normal tt, l);
  newVerify trs sender l := (Normal tt, l);
  newVerifyUnconfirmed trs sender l := (Normal tt, l);
  getOrCreateAccount pk l :=
    (Normal (mkAccount (String.append "DDK" pk) pk 100 100), l)
|}.

Definition T1 : Transaction :=
  mkTransaction 1 "11" SEND "A" "DDKA" "DDKB" 10 1 100.
Definition T2 : Transaction :=
  mkTransaction 2 "12" SEND "A" "DDKA" "DDKB" 5 1 50.
(** [T3] costs more than the sender can spend. *)
Definition T3 : Transaction :=
  mkTransaction 3 "13" SEND "C" "DDKC" "DDKB" 500 1 70.
(** [T1'] is another object carrying the id of [T1], with another
    sender. *)
Definition T1' : Transaction :=
  mkTransaction 4 "11" SEND "C" "DDKC" "DDKB" 10 1 100.
Definition T5 : Transaction :=
  mkTransaction 5 "15" VOTE "C" "DDKC" "" 0 1 60.

(** [T1copy] is another object with the content of [T1]. *)
Definition T1copy : Transaction :=
  mkTransaction 6 "11" SEND "A" "DDKA" "DDKB" 10 1 100.
Definition T7 : Transaction :=
  mkTransaction 7 "17" SEND "E" "DDKE" "DDKA" 1 1 20.

Definition start : World unit := emptyWorld tt 1500000000999.

(** The world a run leaves. *)
Definition after {A} (m : Run unit A) (w : World unit) : World unit :=
  snd (m w).

Definition push (trs : Transaction) : Run unit bool :=
  @TransactionPool.push unit utils logic trs false false.

(** The pool holds [T1]. *)
Definition withT1 : World unit := after (push T1) start.

(** [push(T3)] was declined by [newApplyUnconfirmed]. *)
Definition declinedT3 : World unit := after (push T3) start.

(** The pool holds [T1] and [T5]. *)
Definition withT1T5 : World unit := after (push T5) withT1.

(** The pool holds [T1], [T5] and [T7]. *)
Definition busy : World unit := after (push T7) withT1T5.

(** [T2] is at the head of the queue while the pool holds [T1]. *)
Definition queuedT2 : World unit :=
  mkWorld (ledger withT1) (clock withT1) (statusOf withT1) (bus withT1)
          (sessions withT1) (transactionPool withT1) (mkQueue [T2] [] false).

(** A block verifier whose collaborators accept every block; the id it
    computes for any block is ["7"].  Its transaction objects have
    [Object.prototype] as their prototype; their own properties are not
    looked at, no transaction of the examples having the id
    ["__proto__"]. *)
Definition blockLogic : BlockLogic := {|
  logic_block_verifySignature b := Normal true;
  logic_block_getId b := Normal "7";
  logic_transaction_getBytes t := Normal [];
  blockReward_calcReward h := 5;
  exceptions_blockRewards := ["42"];
  blockVersion_isValid v h := true;
  slots_getSlotNumber t := (t / 10)%Z;
  slots_currentSlotNumber := 52;
  sha256_hex bytes := "e3b0c44298fc1c149afbf4c8996fb92427ae41e4649b934ca495991b7852b855";
  transaction_inherits t k := bool_decide (k ∈ Js.objectPrototype)
|}.

Definition lastBlock : Block.t :=
  Block.mk (Some "6") 2000 (Some "5") 500 1 5 0 0 0
           "e3b0c44298fc1c149afbf4c8996fb92427ae41e4649b934ca495991b7852b855"
           0 [].

(** A block that declares the id ["999"]. *)
Definition received : Block.t :=
  Block.mk (Some "999") 0 (Some "6") 510 1 5 0 0 0
           "e3b0c44298fc1c149afbf4c8996fb92427ae41e4649b934ca495991b7852b855"
           0 [].

(** A block below the migration height whose sums are all wrong and
    which holds [T1] twice. *)
Definition oldBlock : Block.t :=
  Block.mk (Some "8") 10 (Some "6") 510 1 5 1 1 0 "" 7 [T1; T1].

Definition newBlock : Block.t :=
  Block.mk (Some "8") 2001 (Some "6") 510 1 5 1 1 0 "" 7 [T1; T1].



(** The id of [T11] is the name of a member of [Object.prototype]. *)
Definition T11 : Transaction :=
  mkTransaction 11 "constructor" SEND "A" "DDKA" "DDKB" 10 1 100.

(** A block that holds [T11] alone and declares what it holds. *)
Definition namedBlock : Block.t :=
  Block.mk (Some "8") 2001 (Some "6") 510 1 5 10 1 0
           "e3b0c44298fc1c149afbf4c8996fb92427ae41e4649b934ca495991b7852b855"
           1 [T11].

(** [T8] pays no fee. *)
Definition T8 : Transaction :=
  mkTransaction 8 "18" SEND "F" "DDKF" "DDKA" 1 0 30.

(** A ledger like that of [logic], whose [newVerify] rejects a
    transaction that pays no fee. *)
Definition strict : TransactionLogic unit := {|
  newApplyUnconfirmed trs l :=
    if (100 <? amount trs + fee trs)%Z
    then (Throw (Error "Insufficient balance"), l)
    else (Normal tt, l);
  newUndoUnconfirmed trs l := (Normal tt, l);
  newVerify trs sender l :=
    if (fee trs =? 0)%Z
    then (Throw (Error "Invalid transaction fee"), l)
    else (Normal tt, l);
  newVerifyUnconfirmed trs sender l := (Normal tt, l);
  getOrCreateAccount pk l :=
    (Normal (mkAccount (String.append "DDK" pk) pk 100 100), l)
|}.

(** The world [w] with the queue [q]. *)
Definition withQueue (q : QueueState) (w : World unit) : World unit :=
  mkWorld (ledger w) (clock w) (statusOf w) (bus w) (sessions w)
          (transactionPool w) q.

(** The pool holds [T1]; [T7] waits in the queue and [T2], which is in
    conflict with [T1], in the conflicted queue. *)
Definition waiting : World unit :=
  withQueue (mkQueue [T7] [mkEntry T2 1500000300] false) withT1.

(** As [waiting], with an empty queue. *)
Definition stuck : World unit :=
  withQueue (mkQueue [] [mkEntry T2 1500000300] false) withT1.

(** The pool holds [T1]; a copy of [T1] is at the head of the queue. *)
Definition resent : World unit :=
  withQueue (mkQueue [T1copy; T2] [] false) withT1.

(** The pool is empty and [T1] is queued. *)
Definition queuedT1 : World unit :=
  withQueue (mkQueue [T1] [] false) start.

(** The pool is empty and [T8] is queued. *)
Definition queuedT8 : World unit :=
  withQueue (mkQueue [T8] [] false) start.

End Scenario.

(** * Properties *)

(** ** JavaScript objects and arrays *)

Section JsProperties.
Context {V : Type}.
Implicit Types (o : Js.JsObject V) (k : string) (v : V).

Lemma get_Some_elem k v o : Js.get k o = Some v -> (k, v) ∈ o.
Proof.
  induction o as [|[k' v'] o IH]; simpl; [discriminate|].
  destruct (decide (k' = k)) as [->|Hne].
  - intros [= ->]. left.
  - intros Hg. right. auto.
Qed.

Lemma get_None_keys k o : Js.get k o = None <-> k ∉ o.*1.
Proof.
  induction o as [|[k' v'] o IH]; simpl.
  - split; [intros _; apply not_elem_of_nil|reflexivity].
  - rewrite not_elem_of_cons. destruct (decide (k' = k)) as [->|Hne].
    + split; [discriminate|]. intros [Hk _]. exfalso. apply Hk. reflexivity.
    + rewrite IH. intuition congruence.
Qed.

Lemma elem_get k v o : NoDup o.*1 -> (k, v) ∈ o -> Js.get k o = Some v.
Proof.
  induction o as [|[k' v'] o IH]; simpl; intros Hnd Hin.
  - inversion Hin.
  - apply NoDup_cons in Hnd as [Hk Hnd].
    apply elem_of_cons in Hin as [[= -> ->]|Hin].
    + rewrite decide_True; reflexivity.
    + destruct (decide (k' = k)) as [->|Hne]; [|auto].
      exfalso. apply Hk. apply list_elem_of_fmap. exists (k, v). auto.
Qed.

Lemma elem_delete k k' v o : (k', v) ∈ Js.delete k o <-> (k', v) ∈ o /\ k' <> k.
Proof. unfold Js.delete. rewrite list_elem_of_filter. simpl. tauto. Qed.

Lemma get_delete k o : Js.get k (Js.delete k o) = None.
Proof.
  apply get_None_keys. intros Hin.
  apply list_elem_of_fmap in Hin as ([k' v] & -> & Hin).
  apply elem_delete in Hin as [_ Hne]. apply Hne. reflexivity.
Qed.

Lemma get_delete_ne k k' o : k <> k' -> Js.get k' (Js.delete k o) = Js.get k' o.
Proof.
  intros Hne. unfold Js.delete.
  induction o as [|[k0 v0] o IH]; [reflexivity|].
  rewrite filter_cons. simpl.
  destruct (decide (k0 <> k)) as [Hk|Hk]; simpl.
  - destruct (decide (k0 = k')); auto.
  - assert (k0 = k) as -> by (destruct (decide (k0 = k)); tauto).
    rewrite decide_False by exact Hne. exact IH.
Qed.

Lemma NoDup_delete k o : NoDup o.*1 -> NoDup (Js.delete k o).*1.
Proof.
  intros Hnd. apply (sublist_NoDup _ o.*1); [exact Hnd|].
  apply fmap_sublist. unfold Js.delete. apply sublist_filter.

Qed.

Lemma get_set k k' v o :
  Js.get k' (Js.set k v o) = if decide (k = k') then Some v else Js.get k' o.
Proof.
  induction o as [|[k0 v0] o IH]; simpl.
  - reflexivity.
  - destruct (decide (k0 = k)) as [->|Hne]; simpl.
    + destruct (decide (k = k')); reflexivity.
    + rewrite IH. destruct (decide (k0 = k')) as [->|Hne'].
      * rewrite decide_False by congruence. reflexivity.
      * reflexivity.
Qed.

Lemma set_fresh k v o : Js.get k o = None -> Js.set k v o = o ++ [(k, v)].
Proof.
  induction o as [|[k0 v0] o IH]; simpl; [reflexivity|].
  destruct (decide (k0 = k)); [discriminate|].
  intros Hg. rewrite IH by exact Hg. reflexivity.
Qed.

Lemma insertIndexed_perm {W} n (w : W) l : Js.insertIndexed n w l ≡ₚ (n, w) :: l.
Proof.
  induction l as [|[m u] l IH]; simpl; [reflexivity|].
  destruct (n <=? m)%N; [reflexivity|].
  rewrite IH. apply Permutation_swap.
Qed.

Lemma values_perm o : Js.values o ≡ₚ o.*2.
Proof.
  unfold Js.values.
  induction o as [|[k v] o IH]; simpl; [reflexivity|].
  destruct (Js.ownProperties o) as [ix named].
  destruct (Js.arrayIndex k) as [n|].
  - rewrite insertIndexed_perm. simpl. rewrite IH. reflexivity.
  - rewrite <- IH. symmetry. apply Permutation_middle.
Qed.

Lemma sort_perm {A} (cmp : A -> A -> Z) (l : list A) : Js.sort cmp l ≡ₚ l.
Proof.
  induction l as [|x l IH]; simpl; [reflexivity|].
  rewrite <- IH at 2. generalize (Js.sort cmp l). clear.
  intros l. induction l as [|y l IH]; simpl; [reflexivity|].
  destruct (cmp x y <=? 0)%Z; [reflexivity|].
  rewrite IH. apply Permutation_swap.
Qed.
End JsProperties.

(** ** The task sequence *)

Section SequenceProperties.
Import Sequence.

(** C10.  [Sequence.add] leaves the sequence, and so [count()], unchanged
    when [worker] is absent or not a function; called with a worker and a
    function as its second and last argument, it enqueues the task with
    that function as [done] and without [args]. *)
Theorem add_checks_worker_and_shifts_done
    (s : state) (worker args done : JsValue) (f : positive) :
  (isFunction worker = false ->
     add worker args done s = s /\ count (add worker args done s) = count s) /\
  (isFunction worker = true ->
     add worker (Function f) Undefined s =
       mkSequence (sequence s ++ [mkTask worker (Function f) None])
                  (newSequence s)).
Proof.
  split.
  - intros Hw. assert (Hs : add worker args done s = s).
    { unfold add. destruct (negb (truthy done) && truthy args && isFunction args);
        rewrite Hw, andb_false_r; reflexivity. }
    rewrite Hs. split; reflexivity.
  - intros Hw. unfold add. simpl. rewrite Hw.
    destruct worker; try discriminate. reflexivity.
Qed.
End SequenceProperties.

(** ** JavaScript numbers

    Sums and comparisons of integers are exact as long as nothing
    reaches 2^53. *)

Section NumberProperties.
Import SpecFloat NumberSpec.
#[local] Open Scope Z_scope.




















End NumberProperties.

(** ** The block verifier *)

Section VerifyProperties.
Context {constants : Constants} {blockLogic : BlockLogic}.
Import Verify VerifySpec.

Lemma pushError_errors e r : errors (pushError e r) = errors r ++ [e].
Proof. reflexivity. Qed.

Lemma when_push (b : bool) e r :
  errors (if b then pushError e r else r) = errors r ++ when b e.
Proof. destruct b; simpl; rewrite ?app_nil_r; reflexivity. Qed.

Lemma elem_of_when e b e' : e ∈ when b e' <-> b = true /\ e = e'.
Proof.
  destruct b; simpl.
  - rewrite list_elem_of_singleton. intuition.
  - split; [intros Hin; inversion Hin | intros [? _]; discriminate].
Qed.

Lemma appliedAfter_snoc seen t :
  appliedAfter (seen ++ [t]) = appliedSet (id t) t (appliedAfter seen).
Proof. unfold appliedAfter. rewrite foldl_app. reflexivity. Qed.

Lemma appliedAfter_written seen k :
  is_Some (written (appliedAfter seen) !! k)
  <-> k <> "__proto__"%string /\ k ∈ id <$> seen.
Proof.
  induction seen as [|t seen IH] using rev_ind.
  - cbn. rewrite lookup_empty, elem_of_nil.
    split; [intros [? ?]; discriminate | tauto].
  - rewrite appliedAfter_snoc, fmap_app, elem_of_app. cbn [fmap list_fmap].
    rewrite list_elem_of_singleton. unfold appliedSet.
    destruct (decide (id t = "__proto__"%string)) as [Hp|Hp]; cbn [written].
    + rewrite IH. split; [tauto|]. intros [Hk [Hin| ->]]; tauto.
    + destruct (decide (k = id t)) as [->|Hk].
      * rewrite lookup_insert_eq. split; [tauto|]. intros _. eauto.
      * rewrite lookup_insert_ne by congruence. rewrite IH. tauto.
Qed.

Lemma appliedAfter_prototype seen :
  prototype (appliedAfter seen) = protoOf seen.
Proof.
  induction seen as [|t seen IH] using rev_ind; [reflexivity|].
  rewrite appliedAfter_snoc. unfold protoOf, appliedSet.
  rewrite filter_app, filter_cons, filter_nil.
  destruct (decide (id t = "__proto__"%string)); cbn [prototype].
  - rewrite last_snoc. reflexivity.
  - rewrite app_nil_r. exact IH.
Qed.

Lemma appliedAt_after seen k :
  appliedAt k (appliedAfter seen) = answers seen k.
Proof.
  unfold appliedAt, answers. rewrite appliedAfter_prototype.
  pose proof (appliedAfter_written seen k) as Hw.
  destruct (written (appliedAfter seen) !! k) as [u|].
  - rewrite (bool_decide_eq_true_2 (_ /\ _)) by (apply Hw; eauto). reflexivity.
  - rewrite (bool_decide_eq_false_2 (_ /\ _)); [reflexivity|].
    intros Hk. apply Hw in Hk as [? ?]. discriminate.
Qed.

Lemma answers_seen seen k :
  k <> "__proto__"%string -> k ∈ id <$> seen -> answers seen k = true.
Proof.
  intros Hk Hin. unfold answers.
  rewrite (bool_decide_eq_true_2 (_ /\ _)) by tauto. reflexivity.
Qed.

Lemma payloadStep_after acc seen t :
  appliedTransactions acc = appliedAfter seen ->
  errors (payloadErrors (payloadStep acc t))
    = errors (payloadErrors acc) ++ loopErrors seen [t] /\
  appliedTransactions (payloadStep acc t) = appliedAfter (seen ++ [t]) /\
  hashed (payloadStep acc t) = hashed acc ++ payloadBytes [t] /\
  accumulatedAmount (payloadStep acc t)
    = Js.Number.add (accumulatedAmount acc) (Js.Number.ofZ (amount t)) /\
  accumulatedFee (payloadStep acc t)
    = Js.Number.add (accumulatedFee acc) (Js.Number.ofZ (fee t)).
Proof.
  intros Happlied. unfold payloadStep.
  rewrite Happlied, appliedAt_after, appliedAfter_snoc.
  cbn [loopErrors payloadBytes].
  destruct (logic_transaction_getBytes t) as [b|e];
    cbn [payloadErrors appliedTransactions hashed accumulatedAmount
         accumulatedFee];
    rewrite when_push, ?pushError_errors, ?app_nil_r, <- ?app_assoc;
    repeat split; reflexivity.
Qed.

Lemma payloadLoop_after ts : forall acc seen,
  appliedTransactions acc = appliedAfter seen ->
  errors (payloadErrors (foldl payloadStep acc ts))
    = errors (payloadErrors acc) ++ loopErrors seen ts /\
  hashed (foldl payloadStep acc ts) = hashed acc ++ payloadBytes ts /\
  accumulatedAmount (foldl payloadStep acc ts)
    = foldl (fun s t => Js.Number.add s (Js.Number.ofZ (amount t)))
            (accumulatedAmount acc) ts /\
  accumulatedFee (foldl payloadStep acc ts)
    = foldl (fun s t => Js.Number.add s (Js.Number.ofZ (fee t)))
            (accumulatedFee acc) ts.
Proof.
  induction ts as [|t ts IH]; intros acc seen Happlied.
  - cbn. rewrite !app_nil_r. repeat split; reflexivity.
  - destruct (payloadStep_after acc seen t Happlied)
      as (He & Ha & Hh & Hs & Hf).
    destruct (IH (payloadStep acc t) (seen ++ [t]) Ha) as (He' & Hh' & Hs' & Hf').
    cbn [foldl]. rewrite He', Hh', Hs', Hf', He, Hh, Hs, Hf.
    cbn [loopErrors payloadBytes]. rewrite <- !app_assoc.
    destruct (logic_transaction_getBytes t); rewrite ?app_nil_r;
      repeat split; reflexivity.
Qed.

Lemma loopErrors_fromLoop ts : forall seen, Forall fromLoop (loopErrors seen ts).
Proof.
  induction ts as [|t ts IH]; intros seen; cbn [loopErrors]; [constructor|].
  rewrite !Forall_app. split; [|split; [|apply IH]].
  - destruct (logic_transaction_getBytes t); repeat constructor.
  - destruct (answers seen (id t)); repeat constructor.
Qed.

Lemma loopErrors_duplicate k ts : forall seen,
  DuplicateTransaction k ∈ loopErrors seen ts <->
  exists l1 u l2,
    ts = l1 ++ u :: l2 /\ id u = k /\ answers (seen ++ l1) k = true.
Proof.
  induction ts as [|t ts IH]; intros seen; cbn [loopErrors].
  - rewrite elem_of_nil. split; [tauto|].
    intros (l1 & u & l2 & Hl & _). destruct l1; discriminate.
  - rewrite !elem_of_app, elem_of_when, IH. split.
    + intros [Hb|[[Ha Hk]|(l1 & u & l2 & -> & Hu & Ha)]].
      * destruct (logic_transaction_getBytes t);
          [inversion Hb | apply list_elem_of_singleton in Hb; discriminate].
      * injection Hk as ->. exists [], t, ts. rewrite app_nil_r. auto.
      * exists (t :: l1), u, l2. rewrite <- app_assoc in Ha. auto.
    + intros (l1 & u & l2 & Hl & Hu & Ha). destruct l1 as [|t' l1].
      * injection Hl as -> ->. rewrite app_nil_r in Ha. subst k. auto.
      * injection Hl as -> ->. right. right. exists l1, u, l2.
        rewrite <- app_assoc. auto.
Qed.

Lemma loopErrors_thrown e ts : forall seen,
  BytesThrown e ∈ loopErrors seen ts <->
  exists t, t ∈ ts /\ logic_transaction_getBytes t = Throw e.
Proof.
  induction ts as [|t ts IH]; intros seen; cbn [loopErrors].
  - rewrite elem_of_nil. split; [tauto|].
    intros (t & Ht & _). inversion Ht.
  - rewrite !elem_of_app, elem_of_when, IH. split.
    + intros [Hb|[[_ Hk]|(u & Hu & He)]]; [|discriminate|].
      * destruct (logic_transaction_getBytes t) as [b|e'] eqn:Hg;
          [inversion Hb|].
        apply list_elem_of_singleton in Hb. injection Hb as ->.
        exists t. split; [left|exact Hg].
      * exists u. split; [right; exact Hu|exact He].
    + intros (u & Hu & He). apply elem_of_cons in Hu as [->|Hu].
      * left. rewrite He. left.
      * right. right. eauto.
Qed.

Lemma loopErrors_nil ts : forall seen,
  loopErrors seen ts = [] <->
  (forall t, t ∈ ts -> exists bytes, logic_transaction_getBytes t = Normal bytes) /\
  (forall l1 u l2, ts = l1 ++ u :: l2 -> answers (seen ++ l1) (id u) = false).
Proof.
  induction ts as [|t ts IH]; intros seen; cbn [loopErrors].
  - split; [|reflexivity]. intros _. split.
    + intros t Ht. inversion Ht.
    + intros l1 u l2 Hl. destruct l1; discriminate.
  - split.
    + intros Hnil. apply app_eq_nil in Hnil as [Hb Hnil].
      apply app_eq_nil in Hnil as [Hw Hrest].
      apply IH in Hrest as [Hbytes Hfresh]. split.
      * intros u Hu. apply elem_of_cons in Hu as [->|Hu]; [|auto].
        destruct (logic_transaction_getBytes t); [eauto|discriminate].
      * intros l1 u l2 Hl. destruct l1 as [|t' l1].
        -- injection Hl as <- <-. rewrite app_nil_r.
           destruct (answers seen (id t)); [discriminate|reflexivity].
        -- injection Hl as -> ->.
           specialize (Hfresh l1 u l2 eq_refl).
           rewrite <- app_assoc in Hfresh. exact Hfresh.
    + intros [Hbytes Hfresh].
      destruct (Hbytes t) as [b Hb]; [left|]. rewrite Hb.
      pose proof (Hfresh [] t ts eq_refl) as Ht. rewrite app_nil_r in Ht.
      rewrite Ht. cbn [when app]. apply IH. split.
      * intros u Hu. apply Hbytes. right. exact Hu.
      * intros l1 u l2 ->. rewrite <- app_assoc.
        apply (Hfresh (t :: l1) u l2). reflexivity.
Qed.

Lemma verifyPayload_structure (block : Block.t) (result : Result) :
  let ts := Block.transactions block in
  let migrated := (MASTER_NODE_MIGRATED_BLOCK <? Block.height block)%Z in
  errors (verifyPayload block result) =
    errors result
    ++ when (maxPayloadLength <? Block.payloadLength block)%Z PayloadTooLong
    ++ when (negb (Z.of_nat (length ts) =? Block.numberOfTransactions block)%Z
             && migrated) CountMismatch
    ++ when (maxTxsPerBlock <? Z.of_nat (length ts))%Z TooManyTransactions
    ++ loopErrors [] ts
    ++ when (negb (String.eqb (sha256_hex (payloadBytes ts))
                              (Block.payloadHash block)) && migrated)
            InvalidPayloadHash
    ++ when (negb (Js.Number.strictEquals
                     (addedAmount ts)
                     (Js.Number.ofZ (Block.totalAmount block))) && migrated)
            InvalidTotalAmount
    ++ when (negb (Js.Number.strictEquals
                     (addedFee ts)
                     (Js.Number.ofZ (Block.totalFee block))) && migrated)
            InvalidTotalFee.
Proof.
  intros ts migrated. unfold verifyPayload. fold ts. fold migrated.
  set (r3 := if (maxTxsPerBlock <? _)%Z then _ else _).
  destruct (payloadLoop_after ts
              (mkPayload r3 noneApplied [] Js.Number.zero Js.Number.zero) [])
    as (Hloop & Hh & Ha & Hf); [reflexivity|].
  cbn [payloadErrors hashed accumulatedAmount accumulatedFee] in Hloop, Hh, Ha, Hf.
  rewrite Hh, Ha, Hf. fold (addedAmount ts). fold (addedFee ts).
  rewrite !when_push, Hloop.
  subst r3. rewrite !when_push. rewrite <- !app_assoc. reflexivity.
Qed.










(** C7.  [verifyReward] expects [calcReward(height)], or 0 above height
    21000000 where it also sets the reward of the block to 0; it appends
    an error exactly when the height is not 1, the expected reward
    differs from the reward of the block and the id of the block is not
    in [exceptions.blockRewards]. *)
Theorem verifyReward_spec (block : Block.t) (result : Result) :
  let expected := expectedReward block in
  let block' := fst (verifyReward block result) in
  let result' := snd (verifyReward block result) in
  let mismatch :=
    Block.height block <> 1%Z /\ expected <> Block.reward block' /\
    Block.id block ∉ Some <$> exceptions_blockRewards in
  block' = (if (21000000 <? Block.height block)%Z
            then Block.setReward 0 block else block) /\
  (mismatch <->
     errors result'
     = errors result ++ [InvalidReward (Block.reward block') expected]) /\
  (~ mismatch <-> result' = result) /\
  ((21000000 < Block.height block)%Z ->
     expected = 0%Z /\ Block.reward block' = 0%Z /\ result' = result).
Proof.
  intros expected block' result' mismatch.
  assert (Habove : (21000000 < Block.height block)%Z ->
                   expected = 0%Z /\ Block.reward block' = 0%Z /\
                   result' = result).
  { intros Hh. apply Z.ltb_lt in Hh. subst expected block' result'.
    unfold verifyReward, expectedReward. rewrite Hh. simpl.
    rewrite andb_false_r. simpl. auto. }
  cut ((block' = (if (21000000 <? Block.height block)%Z
                  then Block.setReward 0 block else block)) /\
       (mismatch <->
          errors result'
          = errors result ++ [InvalidReward (Block.reward block') expected]) /\
       (~ mismatch <-> result' = result)); [tauto|].
  clear Habove.
  assert (Hb : block' = if (21000000 <? Block.height block)%Z
                        then Block.setReward 0 block else block).
  { subst block'. unfold verifyReward.
    destruct (21000000 <? Block.height block)%Z; simpl;
      repeat match goal with
             | |- context [if ?c then _ else _] => destruct c
             end; reflexivity. }
  assert (Hr : result' =
               if bool_decide mismatch
               then pushError (InvalidReward (Block.reward block') expected)
                              result
               else result).
  { subst mismatch. rewrite Hb. subst result' expected.
    unfold verifyReward, expectedReward.
    destruct (21000000 <? Block.height block)%Z; simpl.
    - rewrite andb_false_r. simpl.
      rewrite bool_decide_eq_false_2; [reflexivity|]. intros (_ & Hne & _).
      congruence.
    - destruct (Z.eqb_spec (Block.height block) 1);
        destruct (Z.eqb_spec (blockReward_calcReward (Block.height block))
                             (Block.reward block));
        case_bool_decide; simpl;
        first [ rewrite bool_decide_eq_true_2 by tauto; reflexivity
              | rewrite bool_decide_eq_false_2 by tauto; reflexivity ]. }
  split; [exact Hb|]. rewrite Hr.
  destruct (decide mismatch) as [Hm|Hm].
  - rewrite bool_decide_eq_true_2 by exact Hm. simpl.
    split; [tauto|]. split; [tauto|]. intros He.
    apply (f_equal errors) in He. simpl in He.
    apply (f_equal length) in He. rewrite length_app in He. simpl in He. lia.
  - rewrite bool_decide_eq_false_2 by exact Hm.
    split; [|tauto]. split; [tauto|]. intros He.
    apply (f_equal length) in He. rewrite length_app in He. simpl in He. lia.
Qed.

Lemma appendsOthers_refl r : appendsOthers r r.
Proof. exists []. rewrite app_nil_r. split; [reflexivity|constructor]. Qed.

Lemma appendsOthers_trans r1 r2 r3 :
  appendsOthers r1 r2 -> appendsOthers r2 r3 -> appendsOthers r1 r3.
Proof.
  intros (e1 & H1 & F1) (e2 & H2 & F2). exists (e1 ++ e2).
  rewrite H2, H1, <- app_assoc. split; [reflexivity|].
  apply Forall_app; auto.
Qed.

Lemma appendsOthers_push e r : notFromId e -> appendsOthers r (pushError e r).
Proof. intros He. exists [e]. split; [reflexivity|]. repeat constructor; auto. Qed.

Lemma appendsOthers_when (b : bool) e r :
  notFromId e -> appendsOthers r (if b then pushError e r else r).
Proof.
  intros He. destruct b; [apply appendsOthers_push, He|apply appendsOthers_refl].
Qed.

Lemma verifySignature_others block r : appendsOthers r (verifySignature block r).
Proof.
  unfold verifySignature. destruct (logic_block_verifySignature block) as [v|e].
  - apply appendsOthers_when. exact I.
  - eapply appendsOthers_trans; [apply (appendsOthers_push (SignatureThrown e)); exact I|].
    apply appendsOthers_when. exact I.
Qed.

Lemma verifyPreviousBlock_others block r :
  appendsOthers r (verifyPreviousBlock block r).
Proof. apply appendsOthers_when. exact I. Qed.

Lemma verifyAgainstLastNBlockIds_others ids block r :
  appendsOthers r (verifyAgainstLastNBlockIds ids block r).
Proof. apply appendsOthers_when. exact I. Qed.

Lemma verifyVersion_others block r : appendsOthers r (verifyVersion block r).
Proof. apply appendsOthers_when. exact I. Qed.

Lemma verifyBlockSlot_others block lastBlock r :
  appendsOthers r (verifyBlockSlot block lastBlock r).
Proof. apply appendsOthers_when. exact I. Qed.

Lemma verifyBlockSlotWindow_others block r :
  appendsOthers r (verifyBlockSlotWindow block r).
Proof.
  unfold verifyBlockSlotWindow.
  eapply appendsOthers_trans; [|apply appendsOthers_when; exact I].
  apply appendsOthers_when. exact I.
Qed.

Lemma verifyForkOne_others block lastBlock forks r :
  appendsOthers r (snd (verifyForkOne block lastBlock forks r)).
Proof.
  unfold verifyForkOne.
  destruct (negb _ && negb _); simpl;
    [apply appendsOthers_push; exact I|apply appendsOthers_refl].
Qed.

Lemma Forall_when (P : VerifyError -> Prop) (b : bool) e :
  P e -> Forall P (when b e).
Proof. intros. destruct b; repeat constructor; auto. Qed.

Lemma verifyPayload_others block r : appendsOthers r (verifyPayload block r).
Proof.
  pose proof (verifyPayload_structure block r) as He. cbv zeta in He.
  pose proof (loopErrors_fromLoop (Block.transactions block) []) as Hfrom.
  eexists. split; [exact He|].
  repeat (apply Forall_app; split); try (apply Forall_when; exact I).
  eapply Forall_impl; [exact Hfrom|]. intros [] Hx; simpl in *; tauto.
Qed.

Lemma appendsOthers_elem r r' e :
  appendsOthers r r' -> (IdThrown e ∈ errors r' <-> IdThrown e ∈ errors r).
Proof.
  intros (es & He & Hall). rewrite He, elem_of_app.
  split; [|tauto]. intros [Hin|Hin]; [exact Hin|].
  rewrite Forall_forall in Hall. destruct (Hall _ Hin).
Qed.

Lemma conclude_errors r e : e ∈ errors (conclude r) <-> e ∈ errors r.
Proof. unfold conclude. simpl. apply elem_of_reverse. Qed.

Lemma conclude_verified r : verified (conclude r) = true <-> errors r = [].
Proof.
  unfold conclude. simpl. rewrite Nat.eqb_eq.
  destruct (errors r); simpl; split; congruence.
Qed.

Lemma verifyId_cases block r :
  (exists i, logic_block_getId block = Normal i /\
             verifyId block r = (Block.setId (Some i) block, r)) \/
  (exists e, logic_block_getId block = Throw e /\
             verifyId block r = (block, pushError (IdThrown e) r)).
Proof.
  unfold verifyId. destruct (logic_block_getId block); eauto.
Qed.

Lemma verifyBlock_shape lastBlock block :
  let block0 := setHeight block lastBlock in
  exists r1 r2 forks,
    appendsOthers (mkResult false []) r1 /\
    appendsOthers (snd (verifyId block0 r1)) r2 /\
    verifyBlock lastBlock block = (fst (verifyId block0 r1), forks, conclude r2).
Proof.
  intros block0. unfold verifyBlock. fold block0.
  set (r1 := verifyVersion block0 _).
  destruct (verifyId block0 r1) as [b1 r1'] eqn:Hid.
  destruct (verifyForkOne b1 lastBlock [] (verifyPayload b1 r1'))
    as [forks r2] eqn:Hfork.
  exists r1, (verifyBlockSlot b1 lastBlock r2), forks. rewrite Hid.
  split; [|split; [|reflexivity]].
  - subst r1.
    eapply appendsOthers_trans; [|apply verifyVersion_others].
    eapply appendsOthers_trans; [|apply verifyPreviousBlock_others].
    apply verifySignature_others.
  - simpl.
    eapply appendsOthers_trans; [|apply verifyBlockSlot_others].
    replace r2 with (snd (verifyForkOne b1 lastBlock [] (verifyPayload b1 r1')))
      by (rewrite Hfork; reflexivity).
    eapply appendsOthers_trans; [|apply verifyForkOne_others].
    apply verifyPayload_others.
Qed.

Lemma verifyReceipt_shape lastBlock ids block :
  let block0 := setHeight block lastBlock in
  exists r1 r2,
    appendsOthers (mkResult false []) r1 /\
    appendsOthers (snd (verifyId block0 r1)) r2 /\
    verifyReceipt lastBlock ids block = (fst (verifyId block0 r1), conclude r2).
Proof.
  intros block0. unfold verifyReceipt. fold block0.
  set (r1 := verifyVersion block0 _).
  destruct (verifyId block0 r1) as [b1 r1'] eqn:Hid.
  exists r1, (verifyPayload b1 r1'). rewrite Hid.
  split; [|split; [|reflexivity]].
  - subst r1.
    eapply appendsOthers_trans; [|apply verifyVersion_others].
    eapply appendsOthers_trans; [|apply verifyBlockSlotWindow_others].
    eapply appendsOthers_trans; [|apply verifyAgainstLastNBlockIds_others].
    eapply appendsOthers_trans; [|apply verifyPreviousBlock_others].
    apply verifySignature_others.
  - simpl. apply verifyPayload_others.
Qed.

Lemma no_IdThrown_initially e : IdThrown e ∉ errors (mkResult false []).
Proof. simpl. apply not_elem_of_nil. Qed.

Lemma verifyId_returns block0 r1 r2 i e :
  logic_block_getId block0 = Normal i ->
  appendsOthers (mkResult false []) r1 ->
  appendsOthers (snd (verifyId block0 r1)) r2 ->
  Block.id (fst (verifyId block0 r1)) = Some i /\
  IdThrown e ∉ errors (conclude r2).
Proof.
  intros Hi H1 H2. unfold verifyId in *. rewrite Hi in *. simpl in H2.
  split; [reflexivity|]. intros Hin.
  apply (proj1 (conclude_errors _ _)) in Hin.
  apply (proj1 (appendsOthers_elem _ _ e H2)) in Hin.
  apply (proj1 (appendsOthers_elem _ _ e H1)) in Hin.
  revert Hin. apply no_IdThrown_initially.
Qed.

Lemma verifyId_throws block0 r1 r2 e :
  logic_block_getId block0 = Throw e ->
  appendsOthers (snd (verifyId block0 r1)) r2 ->
  Block.id (fst (verifyId block0 r1)) = Block.id block0 /\
  IdThrown e ∈ errors (conclude r2) /\
  verified (conclude r2) = false.
Proof.
  intros He H2. unfold verifyId in *. rewrite He in *. simpl in H2.
  split; [reflexivity|].
  assert (Hin : IdThrown e ∈ errors r2).
  { apply (proj2 (appendsOthers_elem _ _ e H2)). simpl.
    apply elem_of_app. right. apply list_elem_of_singleton. reflexivity. }
  split; [apply (proj2 (conclude_errors _ _)), Hin|].
  destruct (verified (conclude r2)) eqn:Hv; [|reflexivity].
  apply (proj1 (conclude_verified _)) in Hv. rewrite Hv in Hin.
  apply not_elem_of_nil in Hin. destruct Hin.
Qed.

(** C4, as amended.  In [verifyBlock] and [verifyReceipt], [verifyId]
    recomputes the id with the block crypto and stores it in the block,
    whatever id the block declared, without an error; it appends an
    error, and the block is not verified, exactly when the
    recomputation throws, and the block then keeps the id it
    declared. *)
Theorem verifyId_overwrites_declared_id
    (lastBlock block : Block.t) (lastNBlockIds : list (option string)) :
  let block0 := setHeight block lastBlock in
  let full := verifyBlock lastBlock block in
  let receipt := verifyReceipt lastBlock lastNBlockIds block in
  (forall i, logic_block_getId block0 = Normal i ->
     Block.id (fst (fst full)) = Some i /\
     Block.id (fst receipt) = Some i /\
     forall e, (IdThrown e ∉ errors (snd full)) /\
               (IdThrown e ∉ errors (snd receipt))) /\
  (forall e, logic_block_getId block0 = Throw e ->
     Block.id (fst (fst full)) = Block.id block /\
     Block.id (fst receipt) = Block.id block /\
     IdThrown e ∈ errors (snd full) /\
     IdThrown e ∈ errors (snd receipt) /\
     verified (snd full) = false /\ verified (snd receipt) = false).
Proof.
  intros block0 full receipt.
  destruct (verifyBlock_shape lastBlock block)
    as (r1 & r2 & forks & A1 & A2 & Hfull).
  destruct (verifyReceipt_shape lastBlock lastNBlockIds block)
    as (q1 & q2 & B1 & B2 & Hreceipt).
  fold block0 in A2, Hfull, B2, Hreceipt.
  subst full receipt. rewrite Hfull, Hreceipt. simpl.
  split.
  - intros i Hi.
    split; [apply (verifyId_returns block0 r1 r2 i (Thrown "") Hi A1 A2)|].
    split; [apply (verifyId_returns block0 q1 q2 i (Thrown "") Hi B1 B2)|].
    intros e. split.
    + apply (verifyId_returns block0 r1 r2 i e Hi A1 A2).
    + apply (verifyId_returns block0 q1 q2 i e Hi B1 B2).
  - intros e He.
    destruct (verifyId_throws block0 r1 r2 e He A2) as (I1 & I2 & I3).
    destruct (verifyId_throws block0 q1 q2 e He B2) as (J1 & J2 & J3).
    repeat split; assumption.
Qed.

End VerifyProperties.

(** *** The verifier on concrete blocks *)

Section VerifyRuns.
#[local] Existing Instance Scenario.constants.
#[local] Existing Instance Scenario.blockLogic.
Import Verify Scenario.

(** C4, as stated, fails: the block [received] declares the id ["999"],
    the block crypto computes ["7"] for it, [verifyId] appends no error
    and both pipelines verify the block. *)
Lemma declared_id_mismatch_is_verified :
  let block0 := setHeight received lastBlock in
  Block.id block0 = Some "999" /\
  logic_block_getId block0 = Normal "7" /\
  snd (verifyId block0 (mkResult false [])) = mkResult false [] /\
  Block.id (fst (verifyId block0 (mkResult false []))) = Some "7" /\
  snd (verifyBlock lastBlock received) = mkResult true [] /\
  snd (verifyReceipt lastBlock [Some "5"; Some "6"] received)
  = mkResult true [].
Proof. vm_compute. repeat split. Qed.

(** Below the migration height the wrong sums of [oldBlock] pass and its
    repeated transaction is reported; above it all are reported
    (the list is the one [verifyPayload] leaves, oldest first). *)
Example verifyPayload_old_and_new_block :
  errors (verifyPayload oldBlock (mkResult false []))
  = [DuplicateTransaction "11"] /\
  message (DuplicateTransaction "11")
  = "Encountered duplicate transaction: 11" /\
  errors (verifyPayload newBlock (mkResult false []))
  = [CountMismatch; DuplicateTransaction "11"; InvalidPayloadHash;
     InvalidTotalAmount; InvalidTotalFee].
Proof. vm_compute. repeat split. Qed.


(** Sums of JavaScript numbers: exact on small integers, rounded to even
    past 2^53. *)
Example number_sums :
  Js.Number.add (Js.Number.ofZ 10) (Js.Number.ofZ 5) = Js.Number.ofZ 15 /\
  Js.Number.strictEquals (Js.Number.ofZ 15) (Js.Number.ofZ 16) = false /\
  Js.Number.add (Js.Number.ofZ (2 ^ 53)) (Js.Number.ofZ 1)
  = Js.Number.ofZ (2 ^ 53) /\
  Js.Number.add (Js.Number.ofZ (2 ^ 53)) (Js.Number.ofZ 3)
  = Js.Number.ofZ (2 ^ 53 + 4) /\
  Js.Number.strictEquals (Js.Number.ofZ 0) (Js.Number.ofZ (-0)) = true.
Proof. vm_compute. repeat split. Qed.

(** A block whose only transaction has the id ["constructor"]:
    [appliedTransactions] answers at that id before anything is written
    to it, and the id is reported as a duplicate. *)
Example verifyPayload_inherited_id :
  errors (verifyPayload namedBlock (mkResult false []))
  = [DuplicateTransaction "constructor"] /\
  message (DuplicateTransaction "constructor")
  = "Encountered duplicate transaction: constructor" /\
  verified (snd (verifyBlock lastBlock namedBlock)) = false.
Proof. vm_compute. repeat split. Qed.

(** A wrong reward at height 2001, and any reward above height
    21000000. *)
Example verifyReward_runs :
  errors (snd (verifyReward (Block.setReward 9 newBlock) (mkResult false [])))
  = [InvalidReward 9 5] /\
  message (InvalidReward 9 5) = "Invalid block reward: 9 expected: 5" /\
  verifyReward (Block.setHeight 21000001 (Block.setReward 9 newBlock))
               (mkResult false [])
  = (Block.setHeight 21000001 (Block.setReward 0 newBlock),
     mkResult false []).
Proof. vm_compute. repeat split. Qed.
End VerifyRuns.

(** ** The transaction pool *)

Section PoolProperties.
Context {L : Type} {utils : TransactionUtils} {logic : TransactionLogic L}.
Import PoolSpec.
Implicit Types (w : World L) (p : PoolState) (t u trs : Transaction).

Lemma remove_missing trs w :
  Js.get (id trs) (pool (transactionPool w)) = None ->
  TransactionPool.remove trs w = (Normal false, w).
Proof.
  intros Hg. unfold TransactionPool.remove, bind, getWorld. simpl.
  rewrite Hg. reflexivity.
Qed.

Lemma remove_stored trs w :
  is_Some (Js.get (id trs) (pool (transactionPool w))) ->
  is_Some (poolBySender (transactionPool w) !! senderId trs) ->
  exists w',
    TransactionPool.remove trs w = (Normal true, w') /\
    transactionPool w' = removed trs (transactionPool w) /\
    transactionQueue w' = transactionQueue w /\
    statusOf w' = statusOf w /\
    ledger w' = snd (newUndoUnconfirmed trs (ledger w)).
Proof.
  intros [s Hs] [bucket Hb].
  unfold TransactionPool.remove, bind, getWorld, tryCatch, await, modifyPool,
    ret. simpl. rewrite Hs.
  destruct (newUndoUnconfirmed trs (ledger w)) as [[[]|e] l']; simpl;
    rewrite Hb; simpl; eexists; (split; [reflexivity|]); simpl;
    unfold removed; rewrite Hb; simpl; auto.
Qed.

Lemma remove_without_bucket trs w :
  is_Some (Js.get (id trs) (pool (transactionPool w))) ->
  poolBySender (transactionPool w) !! senderId trs = None ->
  exists e w', TransactionPool.remove trs w = (Throw (TypeError e), w').
Proof.
  intros [s Hs] Hb.
  unfold TransactionPool.remove, bind, getWorld, tryCatch, await, modifyPool,
    ret, throw. simpl. rewrite Hs.
  destruct (newUndoUnconfirmed trs (ledger w)) as [[[]|e] l']; simpl;
    rewrite Hb; simpl; eauto.
Qed.

Lemma bySender_removed s trs p :
  TransactionPool.getTransactionsBySenderId s (removed trs p)
  = if decide (senderId trs = s)
    then filter (fun t => id t <> id trs)
                (TransactionPool.getTransactionsBySenderId s p)
    else TransactionPool.getTransactionsBySenderId s p.
Proof.
  unfold TransactionPool.getTransactionsBySenderId, removed. simpl.
  rewrite lookup_insert. destruct (decide (senderId trs = s)) as [->|]; reflexivity.
Qed.

Lemma byRecipient_removed r trs p :
  TransactionPool.getTransactionsByRecipientId r (removed trs p)
  = if decide (recipientId trs = r)
    then filter (fun t => id t <> id trs)
                (TransactionPool.getTransactionsByRecipientId r p)
    else TransactionPool.getTransactionsByRecipientId r p.
Proof.
  unfold TransactionPool.getTransactionsByRecipientId, removed. simpl.
  rewrite lookup_insert. destruct (decide (recipientId trs = r)) as [->|]; reflexivity.
Qed.

Lemma Forall_filter_id (k : string) (l : list Transaction) :
  Forall (fun u => id u <> k) (filter (fun t => id t <> k) l).
Proof. apply Forall_forall. intros x Hx. apply list_elem_of_filter in Hx. tauto. Qed.

Lemma Forall_filter_keep (P : Transaction -> Prop) (k : string) l :
  Forall P l -> Forall P (filter (fun t => id t <> k) l).
Proof.
  rewrite !Forall_forall. intros Hall x Hx.
  apply list_elem_of_filter in Hx. apply Hall. tauto.
Qed.

Lemma removed_absent trs p : absent trs (removed trs p).
Proof.
  unfold absent. rewrite bySender_removed, byRecipient_removed.
  rewrite !decide_True by reflexivity.
  split; [apply get_delete|]. split; apply Forall_filter_id.
Qed.

Lemma removed_absent_other u trs p : absent u p -> absent u (removed trs p).
Proof.
  unfold absent. intros (Hg & Hs & Hr).
  rewrite bySender_removed, byRecipient_removed. split; [|split].
  - simpl. destruct (decide (id trs = id u)) as [->|Hne].
    + apply get_delete.
    + rewrite get_delete_ne by exact Hne. exact Hg.
  - destruct (decide (senderId trs = senderId u));
      [apply Forall_filter_keep|]; exact Hs.
  - destruct (decide (recipientId trs = recipientId u));
      [apply Forall_filter_keep|]; exact Hr.
Qed.

Lemma removed_wellFormed trs p : wellFormed p -> wellFormed (removed trs p).
Proof.
  unfold wellFormed. intros [Hnd Hall]. split.
  - simpl. apply NoDup_delete, Hnd.
  - simpl. rewrite Forall_forall in *. intros [k u] Hin.
    apply elem_delete in Hin as [Hin Hne].
    destruct (Hall _ Hin) as [Hid Hb]. split; [exact Hid|].
    simpl in *. rewrite lookup_insert. case_decide; eauto.
Qed.

Lemma removeInOrder_stored ts : forall w,
  wellFormed (transactionPool w) ->
  NoDup (id <$> ts) ->
  (forall t, t ∈ ts -> (id t, t) ∈ pool (transactionPool w)) ->
  exists w',
    removeInOrder ts w = (Normal tt, w') /\
    wellFormed (transactionPool w') /\
    (forall t, t ∈ ts -> absent t (transactionPool w')) /\
    (forall u, absent u (transactionPool w) -> absent u (transactionPool w')).
Proof.
  induction ts as [|t ts IH]; intros w Hwf Hnd Hin; simpl.
  - exists w. split; [reflexivity|]. split; [exact Hwf|].
    split; [|auto]. intros t Ht. inversion Ht.
  - apply NoDup_cons in Hnd as [Hfresh Hnd].
    assert (Ht : (id t, t) ∈ pool (transactionPool w)) by (apply Hin; left).
    destruct Hwf as [Hkeys Hall].
    assert (Hs : is_Some (Js.get (id t) (pool (transactionPool w)))).
    { exists t. apply elem_get; assumption. }
    assert (Hb : is_Some (poolBySender (transactionPool w) !! senderId t)).
    { rewrite Forall_forall in Hall. apply (Hall _ Ht). }
    destruct (remove_stored t w Hs Hb) as (w1 & Hrun & Hp & _).
    destruct (IH w1) as (w' & Hrest & Hwf' & Habs & Hkeep).
    + rewrite Hp. apply removed_wellFormed. split; assumption.
    + exact Hnd.
    + intros u Hu. rewrite Hp. simpl. apply elem_delete. split.
      * apply Hin. right. exact Hu.
      * intros Heq. apply Hfresh. rewrite <- Heq.
        apply list_elem_of_fmap. exists u. auto.
    + exists w'. unfold bind. rewrite Hrun. split; [exact Hrest|].
      split; [exact Hwf'|]. split.
      * intros u Hu. apply elem_of_cons in Hu as [->|Hu]; [|auto].
        apply Hkeep. rewrite Hp. apply removed_absent.
      * intros u Hu. apply Hkeep. rewrite Hp.
        apply removed_absent_other, Hu.
Qed.

Lemma forOf_remove ts : forall w,
  forOf ts (fun trs => TransactionPool.remove trs ;; ret tt) w
  = removeInOrder ts w.
Proof.
  induction ts as [|t ts IH]; intros w; simpl; [reflexivity|].
  unfold bind at 1 2. unfold bind at 2.
  destruct (TransactionPool.remove t w) as [[b|e] w1]; simpl.
  - apply IH.
  - reflexivity.
Qed.

Lemma firstSorted_stored limit p t :
  wellFormed p -> t ∈ firstSorted limit p -> (id t, t) ∈ pool p.
Proof.
  intros [_ Hall] Ht. unfold firstSorted in Ht.
  apply subseteq_take in Ht. rewrite sort_perm, values_perm in Ht.
  apply list_elem_of_fmap in Ht as ([k u] & -> & Hin).
  rewrite Forall_forall in Hall. destruct (Hall _ Hin) as [Hid _].
  simpl in *. rewrite Hid. exact Hin.
Qed.

Lemma firstSorted_NoDup limit p :
  wellFormed p -> NoDup (id <$> firstSorted limit p).
Proof.
  intros [Hnd Hall]. unfold firstSorted.
  apply (sublist_NoDup _ (id <$> Js.sort transactionSortFunc (Js.values (pool p)))).
  - rewrite sort_perm, values_perm.
    replace (id <$> (pool p).*2) with (pool p).*1; [exact Hnd|].
    clear Hnd. induction Hall as [|[k u] o [Hid _] _ IH]; [reflexivity|].
    rewrite !fmap_cons. simpl in *. f_equal; [symmetry; exact Hid|exact IH].
  - apply fmap_sublist, sublist_take.
Qed.

Lemma slice0_take {A} limit (l : list A) :
  (0 <= limit)%Z -> Js.slice0 limit l = take (Z.to_nat limit) l.
Proof.
  intros Hl. unfold Js.slice0. destruct (Z.leb_spec 0 limit); [reflexivity|lia].
Qed.

(** The four ways a call of [push] ends. *)
Lemma push_run trs (broadcast force : bool) w :
  TransactionPool.push trs broadcast force w =
  let p := transactionPool w in
  if locked p && negb force then (Normal false, w)
  else if TransactionPool.has trs p then (Normal false, w)
  else if TransactionPool.isPotentialConflict trs p then
    (Normal false,
     mkWorld (ledger w) (clock w) (statusOf w) (bus w) (sessions w)
             (TransactionPool.setPool (Js.delete (id trs) (pool p)) p)
             (transactionQueue w))
  else
    match newApplyUnconfirmed trs (ledger w) with
    | (Normal _, l') =>
        (Normal true,
         mkWorld l' (clock w)
                 (<[oid trs := UNCOFIRM_APPLIED]>
                    (<[oid trs := PUT_IN_POOL]> (statusOf w)))
                 (if broadcast then bus w ++ [("transactionPutInPool", trs)]
                  else bus w)
                 (sessions w) (inserted trs p) (transactionQueue w))
    | (Throw _, l') =>
        (Normal false,
         mkWorld l' (clock w)
                 (<[oid trs := DECLINED]>
                    (<[oid trs := PUT_IN_POOL]> (statusOf w)))
                 (bus w) (sessions w)
                 (TransactionPool.setPool
                    (Js.delete (id trs) (pool (inserted trs p)))
                    (inserted trs p))
                 (transactionQueue w))
    end.
Proof.
  unfold TransactionPool.push, bind, getWorld. simpl.
  destruct (locked (transactionPool w) && negb force); [reflexivity|].
  destruct (TransactionPool.has trs (transactionPool w)); [reflexivity|].
  destruct (TransactionPool.isPotentialConflict trs (transactionPool w));
    [reflexivity|].
  unfold inserted, tryCatch, bind, await, modifyPool, setStatus, busMessage, ret.
  simpl.
  destruct (decide (type trs = SEND)); simpl;
    destruct (newApplyUnconfirmed trs (ledger w)) as [[[]|err] l']; simpl;
    destruct broadcast; reflexivity.
Qed.

Lemma wellFormed_empty : wellFormed emptyPool.
Proof. split; simpl; constructor. Qed.

Lemma wellFormed_delete k p :
  wellFormed p -> wellFormed (TransactionPool.setPool (Js.delete k (pool p)) p).
Proof.
  intros [Hnd Hall]. split; simpl.
  - apply NoDup_delete, Hnd.
  - rewrite Forall_forall in *. intros [k' u] Hin.
    apply elem_delete in Hin as [Hin _]. apply (Hall _ Hin).
Qed.

Lemma wellFormed_inserted trs p :
  TransactionPool.has trs p = false -> wellFormed p ->
  wellFormed (inserted trs p).
Proof.
  unfold TransactionPool.has. intros Hhas [Hnd Hall].
  destruct (Js.get (id trs) (pool p)) eqn:Hg; [discriminate|].
  split; simpl; rewrite (set_fresh _ _ _ Hg).
  - rewrite fmap_app. simpl. apply NoDup_app. split; [exact Hnd|].
    split; [|apply NoDup_singleton].
    intros k Hk Hk'. apply list_elem_of_singleton in Hk'. subst k.
    apply get_None_keys in Hg. contradiction.
  - apply Forall_app. split.
    + eapply Forall_impl; [exact Hall|]. intros [k u] [Hid Hb]. simpl in *.
      split; [exact Hid|]. rewrite lookup_insert. case_decide; eauto.
    + constructor; [|constructor]. simpl. split; [reflexivity|].
      rewrite lookup_insert_eq. eauto.
Qed.

Lemma push_wellFormed trs (broadcast force : bool) w :
  wellFormed (transactionPool w) ->
  wellFormed (transactionPool (snd (TransactionPool.push trs broadcast force w))).
Proof.
  intros Hwf. rewrite push_run. simpl.
  destruct (locked (transactionPool w) && negb force); [exact Hwf|].
  destruct (TransactionPool.has trs (transactionPool w)) eqn:Hhas; [exact Hwf|].
  destruct (TransactionPool.isPotentialConflict trs (transactionPool w)).
  - simpl. apply wellFormed_delete, Hwf.
  - destruct (newApplyUnconfirmed trs (ledger w)) as [[[]|err] l']; simpl.
    + apply wellFormed_inserted; assumption.
    + apply (wellFormed_delete (id trs) (inserted trs (transactionPool w))).
      apply wellFormed_inserted; assumption.
Qed.

Lemma remove_wellFormed trs w :
  wellFormed (transactionPool w) ->
  wellFormed (transactionPool (snd (TransactionPool.remove trs w))).
Proof.
  intros Hwf.
  destruct (Js.get (id trs) (pool (transactionPool w))) as [s|] eqn:Hg.
  - destruct (poolBySender (transactionPool w) !! senderId trs) as [b|] eqn:Hb.
    + destruct (remove_stored trs w) as (w' & Hrun & Hp & _); eauto.
      rewrite Hrun. simpl. rewrite Hp. apply removed_wellFormed, Hwf.
    + unfold TransactionPool.remove, bind, getWorld, tryCatch, await,
        modifyPool, ret, throw. simpl. rewrite Hg.
      destruct (newUndoUnconfirmed trs (ledger w)) as [[[]|err] l']; simpl;
        rewrite Hb; simpl; apply wellFormed_delete, Hwf.
  - rewrite remove_missing by exact Hg. exact Hwf.
Qed.

Lemma keepsWellFormed_ret {A} (a : A) : keepsWellFormed (L := L) (ret a).
Proof. intros w Hwf. exact Hwf. Qed.

Lemma keepsWellFormed_bind {A B} (m : Run L A) (k : A -> Run L B) :
  keepsWellFormed m -> (forall a, keepsWellFormed (k a)) ->
  keepsWellFormed (bind m k).
Proof.
  intros Hm Hk w Hwf. unfold bind. specialize (Hm w Hwf).
  destruct (m w) as [[a|e] w1]; simpl in *; [|exact Hm].
  apply Hk, Hm.
Qed.

Lemma keepsWellFormed_detached (m : Run L unit) :
  keepsWellFormed m -> keepsWellFormed (detached m).
Proof.
  intros Hm w Hwf. unfold detached, tryCatch. specialize (Hm w Hwf).
  destruct (m w) as [[a|e] w1]; exact Hm.
Qed.

Lemma keepsWellFormed_remove trs : keepsWellFormed (TransactionPool.remove trs).
Proof. intros w. apply remove_wellFormed. Qed.

Lemma keepsWellFormed_push trs broadcast force :
  keepsWellFormed (TransactionPool.push trs broadcast force).
Proof. intros w. apply push_wellFormed. Qed.

Lemma keepsWellFormed_forOf {A} (xs : list A) (body : A -> Run L unit) :
  (forall x, keepsWellFormed (body x)) -> keepsWellFormed (forOf xs body).
Proof.
  intros Hbody. induction xs as [|x xs IH]; simpl.
  - apply keepsWellFormed_ret.
  - apply keepsWellFormed_bind; [apply Hbody|]. intros _. exact IH.
Qed.

Lemma keepsWellFormed_removeEach ts : forall removed,
  keepsWellFormed (TransactionPool.removeEach ts removed).
Proof.
  induction ts as [|t ts IH]; intros removed; simpl.
  - apply keepsWellFormed_ret.
  - apply keepsWellFormed_bind; [apply keepsWellFormed_remove|].
    intros b. apply IH.
Qed.

(** Every state of a pool is well formed. *)
Lemma reachable_wellFormed w : reachable w -> wellFormed (transactionPool w).
Proof.
  induction 1 as [l now st b ss q|w w' _ IH Hp|w _ IH|w _ IH
                 |w trs broadcast force _ IH|w trs _ IH|w trs _ IH
                 |w limit _ IH|w senderId _ IH|w address _ IH].
  - apply wellFormed_empty.
  - rewrite Hp. exact IH.
  - exact IH.
  - exact IH.
  - apply push_wellFormed, IH.
  - apply remove_wellFormed, IH.
  - revert IH. apply (keepsWellFormed_bind getWorld); [intros w0 Hw; exact Hw|].
    intros w0. apply keepsWellFormed_bind; [|intros _; apply keepsWellFormed_ret].
    apply keepsWellFormed_detached, keepsWellFormed_bind;
      [apply keepsWellFormed_remove|intros _; apply keepsWellFormed_ret].
  - revert IH. apply (keepsWellFormed_bind getWorld); [intros w0 Hw; exact Hw|].
    intros w0. apply keepsWellFormed_bind; [|intros _; apply keepsWellFormed_ret].
    apply keepsWellFormed_forOf. intros t.
    apply keepsWellFormed_bind;
      [apply keepsWellFormed_remove|intros _; apply keepsWellFormed_ret].
  - revert IH. apply (keepsWellFormed_bind getWorld); [intros w0 Hw; exact Hw|].
    intros w0. apply keepsWellFormed_removeEach.
  - revert IH. apply (keepsWellFormed_bind getWorld); [intros w0 Hw; exact Hw|].
    intros w0. apply keepsWellFormed_removeEach.
Qed.

(** C5.  In every state of the pool, and for a limit that is not negative,
    [popSortedUnconfirmedTransactions(limit)] returns the first [limit]
    values of the primary index in the order of [transactionSortFunc];
    the state it leaves is the one reached by calling [remove] on each of
    them in that order, and no transaction with the id of a returned one
    is left in the primary index, in its sender bucket or in its
    recipient bucket. *)
Theorem popSortedUnconfirmedTransactions_removes_first_sorted
    (limit : Z) (w : World L) :
  (0 <= limit)%Z ->
  reachable w ->
  let ts := firstSorted limit (transactionPool w) in
  exists w',
    TransactionPool.popSortedUnconfirmedTransactions limit w = (Normal ts, w') /\
    removeInOrder ts w = (Normal tt, w') /\
    forall t, t ∈ ts -> absent t (transactionPool w').
Proof.
  intros Hlimit Hreach ts.
  assert (Hwf : wellFormed (transactionPool w))
    by apply reachable_wellFormed, Hreach.
  destruct (removeInOrder_stored ts w Hwf) as (w' & Hrun & _ & Habs & _).
  - apply firstSorted_NoDup, Hwf.
  - intros t Ht. eapply firstSorted_stored; eauto.
  - exists w'. split; [|split; assumption].
    unfold TransactionPool.popSortedUnconfirmedTransactions.
    unfold bind at 1. unfold getWorld at 1.
    rewrite slice0_take by exact Hlimit. fold (firstSorted limit (transactionPool w)).
    fold ts. unfold bind at 1. rewrite forOf_remove, Hrun. reflexivity.
Qed.

End PoolProperties.

(** ** The conflict detector *)

Section ConflictProperties.
Context {utils : TransactionUtils}.
Import PoolSpec.
Implicit Types (p : PoolState) (t u trs : Transaction).

Lemma found_Exists {A} (f : A -> bool) (l : list A) :
  Js.found f l = true <-> Exists (fun x => f x = true) l.
Proof.
  unfold Js.found. induction l as [|x l IH]; simpl.
  - split; [discriminate|]. intros Hex. inversion Hex.
  - rewrite Exists_cons. destruct (f x) eqn:Hx; [tauto|].
    rewrite IH. split; [tauto|]. intros [Hf|Hex]; [congruence|exact Hex].
Qed.

Lemma indexOf_split t (l : list Transaction) :
  ((t ∉ l) /\ Js.indexOf t l = (-1)%Z) \/
  (exists l1 l2, l = l1 ++ t :: l2 /\ (t ∉ l1) /\
                 Js.indexOf t l = Z.of_nat (length l1)).
Proof.
  induction l as [|y l IH]; simpl.
  - left. split; [apply not_elem_of_nil|reflexivity].
  - destruct (decide (y = t)) as [->|Hne].
    + right. exists [], l. split; [reflexivity|].
      split; [apply not_elem_of_nil|reflexivity].
    + destruct IH as [[Hnot Hi]|(l1 & l2 & -> & Hnot & Hi)].
      * left. rewrite Hi. simpl. split; [|reflexivity].
        rewrite not_elem_of_cons. split; congruence.
      * right. exists (y :: l1), l2. split; [reflexivity|].
        split; [rewrite not_elem_of_cons; split; congruence|].
        rewrite Hi. destruct (Z.ltb_spec (Z.of_nat (length l1)) 0); [lia|].
        simpl length. lia.
Qed.

Lemma indexOf_last t (l : list Transaction) :
  l <> [] ->
  Js.indexOf t l = (Z.of_nat (length l) - 1)%Z <->
  exists l', l = l' ++ [t] /\ t ∉ l'.
Proof.
  intros Hne. destruct (indexOf_split t l) as [[Hnot Hi]|(l1 & l2 & -> & Hnot & Hi)].
  - rewrite Hi. split.
    + intros Hl. destruct l; [congruence|]. simpl length in Hl. lia.
    + intros (l' & -> & _). exfalso. apply Hnot.
      apply elem_of_app. right. left.
  - rewrite Hi, length_app. simpl length. split.
    + intros Hl. assert (l2 = []) as -> by (destruct l2; [reflexivity|simpl in Hl; lia]).
      eauto.
    + intros (l' & Heq & Hl').
      destruct l2 as [|z l2]; [simpl; lia|]. exfalso.
      assert (Hlast : last (l1 ++ t :: z :: l2) = Some t)
        by (rewrite Heq; apply last_snoc).
      assert (Hlen : length l' = (length l1 + S (length l2))%nat).
      { apply (f_equal length) in Heq. rewrite !length_app in Heq.
        simpl in Heq. lia. }
      apply Hl'.
      assert (Ht : (l' ++ [t]) !! length l1 = Some t).
      { rewrite <- Heq. rewrite lookup_app_r by lia.
        rewrite Nat.sub_diag. reflexivity. }
      rewrite lookup_app_l in Ht by lia.
      eapply list_elem_of_lookup_2, Ht.
Qed.

(** The result of [isPotentialConflict] once the type rules are passed. *)
Lemma overtaken_spec trs (dep : list Transaction) :
  let sorted := Js.sort transactionSortFunc (dep ++ [trs]) in
  negb (Js.indexOf trs sorted =? Z.of_nat (length sorted) - 1)%Z
  = bool_decide (trs ∈ dep \/ last sorted <> Some trs).
Proof.
  intros sorted.
  assert (Hperm : sorted ≡ₚ dep ++ [trs]) by apply sort_perm.
  assert (Hne : sorted <> []).
  { intros Heq. rewrite Heq in Hperm. apply Permutation_nil_l in Hperm.
    destruct dep; discriminate. }
  destruct (Z.eqb_spec (Js.indexOf trs sorted) (Z.of_nat (length sorted) - 1))
    as [Hi|Hi]; simpl; symmetry.
  - apply bool_decide_eq_false_2.
    apply (indexOf_last _ _ Hne) in Hi as (l' & Heq & Hl').
    rewrite Heq in Hperm. apply Permutation_app_inv_r in Hperm.
    intros [Hin|Hlast].
    + apply Hl'. rewrite Hperm. exact Hin.
    + apply Hlast. rewrite Heq. apply last_snoc.
  - apply bool_decide_eq_true_2.
    destruct (decide (trs ∈ dep)) as [Hin|Hin]; [left; exact Hin|right].
    intros Hlast. apply Hi. apply (indexOf_last _ _ Hne).
    apply last_Some in Hlast as [l' Heq]. exists l'. split; [exact Heq|].
    rewrite Heq in Hperm. apply Permutation_app_inv_r in Hperm.
    rewrite Hperm. exact Hin.
Qed.

Lemma type_rule (a : TransactionType) trs (dep : list Transaction) :
  bool_decide (type trs = a)
    && Js.found (fun t => bool_decide (type t = a)) dep = true
  <-> type trs = a /\ Exists (fun d => type d = a) dep.
Proof.
  rewrite andb_true_iff, bool_decide_eq_true, found_Exists.
  split; intros [Ht Hex]; (split; [exact Ht|]);
    (eapply Exists_impl; [exact Hex|]); intros x;
    rewrite bool_decide_eq_true; tauto.
Qed.

(** C3, as amended.  For a transaction that is not itself one of its
    dependent transactions, [isPotentialConflict] is [false] when there
    is no dependent transaction; otherwise [true] for a SIGNATURE;
    otherwise [true] for a VOTE with a dependent VOTE and for a REFERRAL
    with a dependent REFERRAL; otherwise [true] exactly when the
    transaction is not the last of the dependent transactions extended
    with it and sorted by [transactionSortFunc]. *)
Theorem isPotentialConflict_rules trs p :
  trs ∉ dependent trs p ->
  TransactionPool.isPotentialConflict trs p = conflictRules trs p.
Proof.
  intros Hnot. unfold TransactionPool.isPotentialConflict, conflictRules.
  fold (TransactionPool.getTransactionsByRecipientId
          (generateAddressByPublicKey (senderPublicKey trs)) p).
  fold (TransactionPool.getTransactionsBySenderId
          (generateAddressByPublicKey (senderPublicKey trs)) p).
  fold (dependent trs p). set (dep := dependent trs p) in *.
  destruct dep as [|d dep'] eqn:Hdep; [reflexivity|].
  rewrite <- Hdep in *. replace (length dep =? 0)%nat with false
    by (rewrite Hdep; reflexivity).
  destruct (decide (type trs = SIGNATURE)) as [Hs|Hs].
  { rewrite (bool_decide_eq_true_2 (type trs = SIGNATURE)) by exact Hs.
    reflexivity. }
  rewrite (bool_decide_eq_false_2 (type trs = SIGNATURE)) by exact Hs.
  destruct (bool_decide (type trs = VOTE) && _) eqn:Hv.
  { apply type_rule in Hv. rewrite bool_decide_eq_true_2 by tauto. reflexivity. }
  destruct (bool_decide (type trs = REFERRAL) && _) eqn:Hr.
  { apply type_rule in Hr. rewrite bool_decide_eq_true_2 by tauto. reflexivity. }
  rewrite bool_decide_eq_false_2.
  - rewrite overtaken_spec. apply bool_decide_ext. tauto.
  - intros [Hc|Hc]; apply type_rule in Hc; congruence.
Qed.
End ConflictProperties.

(** ** The transaction queue *)

Section QueueProperties.
Context {L : Type} {utils : TransactionUtils} {constants : Constants}
        {logic : TransactionLogic L}.
Import PoolSpec QueueSpec.
Implicit Types (w : World L) (p : PoolState) (t u trs : Transaction).

Lemma keeps_ret {A} (a : A) : keepsConflicted (L := L) (ret a).
Proof. intros w. reflexivity. Qed.

Lemma keeps_throw {A} e : keepsConflicted (@throw L A e).
Proof. intros w. reflexivity. Qed.

Lemma keeps_getWorld : keepsConflicted (@getWorld L).
Proof. intros w. reflexivity. Qed.

Lemma keeps_bind {A B} (m : Run L A) (k : A -> Run L B) :
  keepsConflicted m -> (forall a, keepsConflicted (k a)) ->
  keepsConflicted (bind m k).
Proof.
  intros Hm Hk w. unfold bind. specialize (Hm w).
  destruct (m w) as [[a|e] w1]; simpl in *; [|exact Hm].
  rewrite Hk. exact Hm.
Qed.

Lemma keeps_tryCatch {A} (m : Run L A) (h : JsError -> Run L A) :
  keepsConflicted m -> (forall e, keepsConflicted (h e)) ->
  keepsConflicted (tryCatch m h).
Proof.
  intros Hm Hh w. unfold tryCatch. specialize (Hm w).
  destruct (m w) as [[a|e] w1]; simpl in *; [exact Hm|].
  rewrite Hh. exact Hm.
Qed.

Lemma keeps_detached (m : Run L unit) :
  keepsConflicted m -> keepsConflicted (detached m).
Proof. intros Hm. apply keeps_tryCatch; [exact Hm|]. intros e. apply keeps_ret. Qed.

Lemma keeps_await {A} (call : L -> Completion A * L) :
  keepsConflicted (await call).
Proof. intros w. unfold await. destruct (call (ledger w)). reflexivity. Qed.

Lemma keeps_modifyPool f : keepsConflicted (@modifyPool L f).
Proof. intros w. reflexivity. Qed.

Lemma keeps_setStatus trs s : keepsConflicted (@setStatus L trs s).
Proof. intros w. reflexivity. Qed.

Lemma keeps_busMessage topic trs : keepsConflicted (@busMessage L topic trs).
Proof. intros w. reflexivity. Qed.

Lemma keeps_sessionSend m : keepsConflicted (@sessionSend L m).
Proof. intros w. reflexivity. Qed.

Lemma keeps_setQueue (f : QueueState -> list Transaction) :
  keepsConflicted
    (@modifyQueue L (fun q => TransactionQueue.setQueue (f q) q)).
Proof. intros w. reflexivity. Qed.

Ltac keeps :=
  repeat match goal with
    | |- @keepsConflicted _ _ (ret _) => apply keeps_ret
    | |- @keepsConflicted _ _ (throw _) => apply keeps_throw
    | |- @keepsConflicted _ _ getWorld => apply keeps_getWorld
    | |- @keepsConflicted _ _ (await _) => apply keeps_await
    | |- @keepsConflicted _ _ (modifyPool _) => apply keeps_modifyPool
    | |- @keepsConflicted _ _ (setStatus _ _) => apply keeps_setStatus
    | |- @keepsConflicted _ _ (busMessage _ _) => apply keeps_busMessage
    | |- @keepsConflicted _ _ (sessionSend _) => apply keeps_sessionSend
    | |- @keepsConflicted _ _ (modifyQueue _) => apply keeps_setQueue
    | |- @keepsConflicted _ _ (detached _) => apply keeps_detached
    | |- @keepsConflicted _ _ (bind _ _) => apply keeps_bind; [|intros ?]
    | |- @keepsConflicted _ _ (tryCatch _ _) => apply keeps_tryCatch; [|intros ?]
    | |- @keepsConflicted _ _ (if ?b then _ else _) => destruct b
    | |- @keepsConflicted _ _ (match ?x with _ => _ end) => destruct x
    end.

Lemma keeps_push trs broadcast force :
  keepsConflicted (TransactionPool.push trs broadcast force).
Proof. unfold TransactionPool.push. keeps. Qed.

Lemma keeps_verify trs sender :
  keepsConflicted (TransactionQueue.verify trs sender).
Proof.
  unfold TransactionQueue.verify, TransactionQueue.sendVerifiedMessage. keeps.
Qed.

Lemma keeps_pushWith (process : Run L unit) trs :
  keepsConflicted process ->
  keepsConflicted (TransactionQueue.pushWith process trs).
Proof. intros Hp. unfold TransactionQueue.pushWith. keeps; exact Hp. Qed.

Lemma keeps_processChecked (process : Run L unit) trs :
  keepsConflicted process ->
  keepsConflicted (TransactionQueue.processChecked process trs).
Proof.
  intros Hp. unfold TransactionQueue.processChecked.
  keeps; try exact Hp; try apply keeps_verify; try apply keeps_push.
  apply keeps_pushWith, Hp.
Qed.


Lemma processWith_ext (f g : Run L (list Activation.Suspended)) w :
  (forall w', S (length (queue (transactionQueue w')))
              = length (queue (transactionQueue w)) -> f w' = g w') ->
  Activation.processWith f w = Activation.processWith g w.
Proof.
  intros Hfg. destruct w as [l c st b ss p [q cq lk]].
  unfold Activation.processWith, bind, getWorld, TransactionQueue.pop,
    modifyQueue, ret.
  cbn [transactionQueue transactionPool queue conflictedQueue queueLocked
       ledger clock statusOf bus sessions] in *.
  destruct q as [|trs rest]; [reflexivity|]. destruct lk; [reflexivity|].
  cbn -[TransactionPool.has TransactionPool.isPotentialConflict] in *.
  destruct (TransactionPool.has trs p); [reflexivity|].
  destruct (TransactionPool.isPotentialConflict trs p); [|reflexivity].
  unfold Activation.spawn, tryCatch. rewrite Hfg; reflexivity.
Qed.

Lemma processFrom_enough n : forall k w,
  (k <= n)%nat -> (length (queue (transactionQueue w)) < k)%nat ->
  Activation.processFrom k w = Activation.processWith Activation.process w.
Proof.
  induction n as [|n IH]; intros k w Hk Hlen; [lia|].
  destruct k as [|k]; [lia|]. cbn [Activation.processFrom].
  apply processWith_ext. intros w' Hw'.
  unfold Activation.process, bind, getWorld.
  rewrite !IH by lia. reflexivity.
Qed.

(** [process] is its body, whose calls [this.process()] are [process]
    again. *)
Lemma process_unfold w :
  Activation.process w = Activation.processWith Activation.process w.
Proof.
  unfold Activation.process at 1. unfold bind, getWorld.
  apply (processFrom_enough _ _ _ (Nat.le_refl _)). lia.
Qed.

End QueueProperties.

(** ** Membership by id, and a failing [newApplyUnconfirmed] *)

Section MembershipProperties.
Context {L : Type} {utils : TransactionUtils} {logic : TransactionLogic L}.
Import PoolSpec.
Implicit Types (w : World L) (p : PoolState) (t u trs : Transaction).

Lemma filter_length_positive {A} (P : A -> Prop) `{!forall x, Decision (P x)}
    (l : list A) :
  negb (length (filter P l) =? 0)%nat = true <-> exists x, x ∈ l /\ P x.
Proof.
  rewrite negb_true_iff, Nat.eqb_neq. split.
  - intros Hl. destruct (filter P l) as [|x l'] eqn:Hf; [simpl in Hl; lia|].
    exists x. assert (Hx : x ∈ filter P l) by (rewrite Hf; left).
    apply list_elem_of_filter in Hx. tauto.
  - intros (x & Hx & HP) Hl.
    assert (Hin : x ∈ filter P l) by (apply list_elem_of_filter; auto).
    destruct (filter P l); [inversion Hin|simpl in Hl; lia].
Qed.

Lemma has_get trs p :
  TransactionPool.has trs p = true <-> is_Some (TransactionPool.get (id trs) p).
Proof.
  unfold TransactionPool.has, TransactionPool.get.
  destruct (Js.get (id trs) (pool p)); split; eauto; try discriminate.
  intros [? ?]. discriminate.
Qed.

Lemma absent_same t u p :
  id t = id u -> senderId t = senderId u -> recipientId t = recipientId u ->
  absent u p -> absent t p.
Proof. unfold absent. intros -> -> ->. tauto. Qed.

(** C9, as amended.  For two transaction objects with the same id,
    [pool.has] gives the same answer, [pool.get] returns the same stored
    object, and [pool.has] is true exactly when an object is stored
    under the id; in every state of the pool, [remove] of an object that
    has the id, the sender and the recipient of the stored one returns
    [true] and leaves no transaction with that id in the three indexes of
    the stored one; and [TransactionQueue.has] is
    true exactly when an entry of [queue] or of [conflictedQueue]
    carries the id. *)
Theorem membership_by_id (t t' : Transaction) (w : World L) :
  id t = id t' ->
  let p := transactionPool w in
  let q := transactionQueue w in
  TransactionPool.has t p = TransactionPool.has t' p /\
  TransactionPool.get (id t) p = TransactionPool.get (id t') p /\
  (TransactionPool.has t' p = true <->
     is_Some (TransactionPool.get (id t) p)) /\
  (forall s,
     reachable w ->
     TransactionPool.get (id t') p = Some s ->
     senderId s = senderId t' -> recipientId s = recipientId t' ->
     exists w',
       TransactionPool.remove t' w = (Normal true, w') /\
       absent s (transactionPool w')) /\
  (TransactionQueue.has t' q = true <->
     (exists u, u ∈ queue q /\ id u = id t) \/
     (exists e, e ∈ conflictedQueue q /\ id (transaction e) = id t)).
Proof.
  intros Hid p q. split; [|split; [|split; [|split]]].
  - unfold TransactionPool.has. rewrite Hid. reflexivity.
  - rewrite Hid. reflexivity.
  - rewrite Hid. apply has_get.
  - intros s Hreach Hs Hsender Hrecipient.
    assert (Hin : (id t', s) ∈ pool p) by apply get_Some_elem, Hs.
    destruct (reachable_wellFormed w Hreach) as [Hnd Hall].
    rewrite Forall_forall in Hall.
    destruct (Hall _ Hin) as [Hkey Hb]. simpl in Hkey, Hb.
    destruct (remove_stored t' w) as (w' & Hrun & Hp & _).
    + exists s. exact Hs.
    + rewrite <- Hsender. exact Hb.
    + exists w'. split; [exact Hrun|]. rewrite Hp.
      apply (absent_same s t'); auto. apply removed_absent.
  - unfold TransactionQueue.has, TransactionQueue.hasInQueue,
      TransactionQueue.hasInConflictedQueue.
    rewrite orb_true_iff, !filter_length_positive, Hid. reflexivity.
Qed.

(** What a failing [newApplyUnconfirmed] leaves behind. *)
Lemma push_apply_failure trs (broadcast force : bool) w e l' :
  locked (transactionPool w) && negb force = false ->
  TransactionPool.has trs (transactionPool w) = false ->
  TransactionPool.isPotentialConflict trs (transactionPool w) = false ->
  newApplyUnconfirmed trs (ledger w) = (Throw e, l') ->
  let r := TransactionPool.push trs broadcast force w in
  fst r = Normal false /\
  statusOf (snd r) !! oid trs = Some DECLINED /\
  Js.get (id trs) (pool (transactionPool (snd r))) = None /\
  inBySender trs (transactionPool (snd r)) /\
  (type trs = SEND -> inByRecipient trs (transactionPool (snd r))).
Proof.
  intros Hlock Hhas Hconflict Happly r. subst r.
  rewrite push_run. simpl. rewrite Hlock, Hhas, Hconflict, Happly. simpl.
  split; [reflexivity|]. split; [apply lookup_insert_eq|].
  split; [apply get_delete|].
  unfold inBySender, inByRecipient,
    TransactionPool.getTransactionsBySenderId,
    TransactionPool.getTransactionsByRecipientId. simpl.
  split.
  - rewrite lookup_insert_eq. simpl. apply elem_of_app. right. left.
  - intros Hsend. rewrite decide_True by exact Hsend.
    rewrite lookup_insert_eq. simpl. apply elem_of_app. right. left.
Qed.

Lemma P1_empty : P1 emptyPool.
Proof.
  intros t. unfold inById, inBySender, inByRecipient,
    TransactionPool.getTransactionsBySenderId,
    TransactionPool.getTransactionsByRecipientId. simpl.
  rewrite !lookup_empty. simpl. split; split;
    try discriminate; try (intros Hin; inversion Hin; fail).
  intros [Hx _]. discriminate.
Qed.
End MembershipProperties.


(** ** The operations of the pool, one at a time *)

Section PoolOperations.
Context {L : Type} {utils : TransactionUtils} {logic : TransactionLogic L}.
Import PoolSpec.
Implicit Types (w : World L) (p : PoolState) (t u trs : Transaction).

Lemma inById_inserted t trs p :
  TransactionPool.has trs p = false ->
  inById t (inserted trs p) <-> t = trs \/ inById t p.
Proof.
  unfold TransactionPool.has, inById. simpl. intros Hhas.
  destruct (Js.get (id trs) (pool p)) eqn:Hg; [discriminate|].
  rewrite get_set. destruct (decide (id trs = id t)) as [Heq|Hne].
  - rewrite <- Heq, Hg. split.
    + intros [= ->]. left. reflexivity.
    + intros [->|Hx]; [reflexivity|discriminate].
  - split; [tauto|]. intros [->|Hx]; [congruence|exact Hx].
Qed.

Lemma inBySender_inserted t trs p :
  inBySender t (inserted trs p) <-> t = trs \/ inBySender t p.
Proof.
  unfold inBySender, TransactionPool.getTransactionsBySenderId. simpl.
  rewrite lookup_insert. destruct (decide (senderId trs = senderId t)) as [Heq|Hne].
  - simpl. rewrite elem_of_app, list_elem_of_singleton, Heq. tauto.
  - split; [tauto|]. intros [->|Hx]; [congruence|exact Hx].
Qed.

Lemma inByRecipient_inserted t trs p :
  inByRecipient t (inserted trs p)
  <-> (t = trs /\ type trs = SEND) \/ inByRecipient t p.
Proof.
  unfold inByRecipient, TransactionPool.getTransactionsByRecipientId. simpl.
  destruct (decide (type trs = SEND)) as [Hs|Hs].
  - rewrite lookup_insert.
    destruct (decide (recipientId trs = recipientId t)) as [Heq|Hne].
    + simpl. rewrite elem_of_app, list_elem_of_singleton, Heq. tauto.
    + split; [tauto|]. intros [[-> _]|Hx]; [congruence|exact Hx].
  - tauto.
Qed.

Lemma P1_inserted trs p :
  TransactionPool.has trs p = false -> P1 p -> P1 (inserted trs p).
Proof.
  intros Hhas HP t. destruct (HP t) as [Hs Hr].
  rewrite (inById_inserted t trs p Hhas), inBySender_inserted,
    inByRecipient_inserted.
  assert (Hnot : ~ inById trs p).
  { unfold inById. unfold TransactionPool.has in Hhas.
    destruct (Js.get (id trs) (pool p)); [discriminate|]. discriminate. }
  split; [tauto|]. split.
  - intros [[-> Hsend]|Hx]; [tauto|]. apply Hr in Hx. tauto.
  - intros [[->|Hx] Hsend]; [tauto|]. right. apply Hr. tauto.
Qed.

(** X1.  A [push] that returns [true] keeps the invariant P1, stores the
    transaction in the primary index and leaves it with the status
    UNCOFIRM_APPLIED. *)
Theorem push_success_keeps_P1 trs (broadcast force : bool) w :
  P1 (transactionPool w) ->
  fst (TransactionPool.push trs broadcast force w) = Normal true ->
  P1 (transactionPool (snd (TransactionPool.push trs broadcast force w))) /\
  inById trs (transactionPool (snd (TransactionPool.push trs broadcast force w))) /\
  statusOf (snd (TransactionPool.push trs broadcast force w)) !! oid trs
  = Some UNCOFIRM_APPLIED.
Proof.
  intros HP. rewrite push_run. simpl.
  destruct (locked (transactionPool w) && negb force); [discriminate|].
  destruct (TransactionPool.has trs (transactionPool w)) eqn:Hhas; [discriminate|].
  destruct (TransactionPool.isPotentialConflict trs (transactionPool w));
    [discriminate|].
  destruct (newApplyUnconfirmed trs (ledger w)) as [[[]|err] l']; simpl;
    [|discriminate].
  intros _. split; [apply P1_inserted; assumption|].
  split; [apply inById_inserted; auto|apply lookup_insert_eq].
Qed.

(** X2.  Pushing while the pool is locked (without [force]), or pushing a
    transaction whose id is in the pool, returns [false] and changes
    nothing. *)
Theorem push_refusals trs (broadcast force : bool) w :
  locked (transactionPool w) && negb force = true \/
  TransactionPool.has trs (transactionPool w) = true ->
  TransactionPool.push trs broadcast force w = (Normal false, w).
Proof.
  intros Hor. rewrite push_run. simpl.
  destruct (locked (transactionPool w) && negb force); [reflexivity|].
  destruct Hor as [Hx|Hx]; [discriminate|]. rewrite Hx. reflexivity.
Qed.

(** X3.  In every state of the pool, [remove] of the stored object returns
    [true] whether [newUndoUnconfirmed] throws or not, and leaves no
    transaction with its id in the three indexes; [remove] of a
    transaction whose id is not in the pool returns [false] and changes
    nothing. *)
Theorem remove_of_stored_and_missing trs w :
  reachable w ->
  (inById trs (transactionPool w) ->
     exists w',
       TransactionPool.remove trs w = (Normal true, w') /\
       transactionPool w' = removed trs (transactionPool w) /\
       absent trs (transactionPool w')) /\
  (TransactionPool.has trs (transactionPool w) = false ->
     TransactionPool.remove trs w = (Normal false, w)).
Proof.
  intros Hreach. split.
  - intros Hin. unfold inById in Hin.
    destruct (reachable_wellFormed w Hreach) as [_ Hall].
    rewrite Forall_forall in Hall.
    destruct (Hall _ (get_Some_elem _ _ _ Hin)) as [_ Hb]. simpl in Hb.
    destruct (remove_stored trs w) as (w' & Hrun & Hp & _); eauto.
    exists w'. split; [exact Hrun|]. split; [exact Hp|].
    rewrite Hp. apply removed_absent.
  - unfold TransactionPool.has. intros Hhas. apply remove_missing.
    destruct (Js.get (id trs) (pool (transactionPool w))); [discriminate|].
    reflexivity.
Qed.

(** X4.  [isPotentialConflict] in every state: with dependent
    transactions, it is [true] exactly for a SIGNATURE, for a VOTE with a
    dependent VOTE, for a REFERRAL with a dependent REFERRAL, for a
    transaction that is itself among its dependent transactions, and for
    one that is not the last of the sorted list. *)
Theorem isPotentialConflict_every_state trs p :
  TransactionPool.isPotentialConflict trs p =
  match dependent trs p with
  | [] => false
  | dep =>
      bool_decide
        (type trs = SIGNATURE \/
         (type trs = VOTE /\ Exists (fun d => type d = VOTE) dep) \/
         (type trs = REFERRAL /\ Exists (fun d => type d = REFERRAL) dep) \/
         trs ∈ dep \/
         last (Js.sort transactionSortFunc (dep ++ [trs])) <> Some trs)
  end.
Proof.
  unfold TransactionPool.isPotentialConflict.
  fold (TransactionPool.getTransactionsByRecipientId
          (generateAddressByPublicKey (senderPublicKey trs)) p).
  fold (TransactionPool.getTransactionsBySenderId
          (generateAddressByPublicKey (senderPublicKey trs)) p).
  fold (dependent trs p). set (dep := dependent trs p) in *.
  destruct dep as [|d dep'] eqn:Hdep; [reflexivity|].
  rewrite <- Hdep in *. replace (length dep =? 0)%nat with false
    by (rewrite Hdep; reflexivity).
  destruct (decide (type trs = SIGNATURE)) as [Hs|Hs].
  { rewrite bool_decide_eq_true_2 by tauto. reflexivity. }
  destruct (bool_decide (type trs = VOTE) && _) eqn:Hv.
  { apply type_rule in Hv. rewrite bool_decide_eq_true_2 by tauto. reflexivity. }
  destruct (bool_decide (type trs = REFERRAL) && _) eqn:Hr.
  { apply type_rule in Hr. rewrite bool_decide_eq_true_2 by tauto. reflexivity. }
  rewrite overtaken_spec. apply bool_decide_ext.
  split; [tauto|]. intros [?|[Hc|[Hc|?]]]; try tauto;
    apply type_rule in Hc; congruence.
Qed.
End PoolOperations.

(** ** The pool and the queue on a concrete node *)

Section PoolRuns.
#[local] Existing Instance Scenario.utils.
#[local] Existing Instance Scenario.constants.
#[local] Existing Instance Scenario.logic.
Import PoolSpec Scenario.

Lemma reachable_busy : reachable busy.
Proof.
  unfold busy, withT1T5, withT1, after, push.
  repeat apply reachable_push. apply reachable_new.
Qed.

(** Simple admission: [T1] is in the three indexes and applied. *)
Example push_T1 :
  fst (push T1 start) = Normal true /\
  TransactionPool.has T1 (transactionPool withT1) = true /\
  statusOf withT1 !! oid T1 = Some UNCOFIRM_APPLIED /\
  TransactionPool.getTransactionsBySenderId "DDKA" (transactionPool withT1)
  = [T1] /\
  TransactionPool.getTransactionsByRecipientId "DDKB" (transactionPool withT1)
  = [T1].
Proof. vm_compute. repeat split. Qed.

(** Block pop: of [T1], [T5], [T7] the two lowest are returned and one
    transaction stays. *)
Example popSorted_busy :
  fst (TransactionPool.popSortedUnconfirmedTransactions 2 busy)
  = Normal [T7; T5] /\
  Js.values
    (pool (transactionPool
             (snd (TransactionPool.popSortedUnconfirmedTransactions 2 busy))))
  = [T1].
Proof. vm_compute. repeat split. Qed.

(** C5 at the pool holding [T1], [T5] and [T7], with limit 2. *)
Lemma popSorted_busy_witness :
  (0 <= 2)%Z /\
  reachable busy /\
  let ts := firstSorted 2 (transactionPool busy) in
  exists w',
    TransactionPool.popSortedUnconfirmedTransactions 2 busy = (Normal ts, w') /\
    removeInOrder ts busy = (Normal tt, w') /\
    forall t, t ∈ ts -> absent t (transactionPool w').
Proof.
  split; [lia|]. split; [exact reachable_busy|].
  apply (popSortedUnconfirmedTransactions_removes_first_sorted 2 busy);
    [lia|exact reachable_busy].
Defined.

(** C1.  [push(T3)] passes the lock, duplicate and conflict checks and
    [newApplyUnconfirmed(T3)] throws: [push] returns [false], the status
    of [T3] is DECLINED and [T3] is gone from the primary index, but it
    is still in its sender bucket and in its recipient bucket. *)
Theorem push_failure_leaves_secondary_indexes :
  let r := push T3 start in
  locked (transactionPool start) = false /\
  TransactionPool.has T3 (transactionPool start) = false /\
  TransactionPool.isPotentialConflict T3 (transactionPool start) = false /\
  fst (newApplyUnconfirmed T3 (ledger start))
  = Throw (Error "Insufficient balance") /\
  fst r = Normal false /\
  statusOf (snd r) !! oid T3 = Some DECLINED /\
  Js.get (id T3) (pool (transactionPool (snd r))) = None /\
  TransactionPool.getTransactionsBySenderId (senderId T3)
    (transactionPool (snd r)) = [T3] /\
  TransactionPool.getTransactionsByRecipientId (recipientId T3)
    (transactionPool (snd r)) = [T3].
Proof.
  intros r.
  destruct (push_apply_failure T3 false false start
              (Error "Insufficient balance") tt)
    as (Hr & Hs & Hg & _); [reflexivity..|].
  repeat split; try assumption; vm_compute; reflexivity.
Qed.

(** C2.  The empty pool satisfies the invariant P1, and the pool that
    the declined [push(T3)] leaves does not: [T3] is in its sender
    bucket and not in the primary index. *)
Theorem push_failure_breaks_P1 :
  P1 (transactionPool start) /\
  inBySender T3 (transactionPool declinedT3) /\
  ~ inById T3 (transactionPool declinedT3) /\
  ~ P1 (transactionPool declinedT3).
Proof.
  destruct (push_apply_failure T3 false false start
              (Error "Insufficient balance") tt)
    as (_ & _ & Hg & Hin & _); [reflexivity..|].
  assert (Hno : ~ inById T3 (transactionPool declinedT3)).
  { unfold inById, declinedT3, after, push. rewrite Hg. discriminate. }
  split; [apply P1_empty|]. split; [exact Hin|]. split; [exact Hno|].
  intros HP. destruct (HP T3) as [[_ Hback] _]. apply Hno, Hback, Hin.
Qed.
(** X1 at [push(T1)] on the empty pool. *)
Lemma push_success_keeps_P1_witness :
  P1 (transactionPool start) /\
  fst (TransactionPool.push T1 false false start) = Normal true /\
  P1 (transactionPool (snd (TransactionPool.push T1 false false start))) /\
  inById T1 (transactionPool (snd (TransactionPool.push T1 false false start))) /\
  statusOf (snd (TransactionPool.push T1 false false start)) !! oid T1
  = Some UNCOFIRM_APPLIED.
Proof.
  split; [apply P1_empty|]. split; [reflexivity|].
  apply (push_success_keeps_P1 T1 false false start);
    [apply P1_empty|reflexivity].
Defined.

(** X2 at a second [push(T1)]. *)
Lemma push_refusals_witness :
  (locked (transactionPool withT1) && negb false = true \/
   TransactionPool.has T1 (transactionPool withT1) = true) /\
  TransactionPool.push T1 true false withT1 = (Normal false, withT1).
Proof.
  split; [right; reflexivity|].
  apply (push_refusals T1 true false withT1). right. reflexivity.
Defined.

(** X3 at [T1] and the pool holding [T1], [T5] and [T7]. *)
Lemma remove_of_stored_and_missing_witness :
  reachable busy /\
  (inById T1 (transactionPool busy) ->
     exists w',
       TransactionPool.remove T1 busy = (Normal true, w') /\
       transactionPool w' = removed T1 (transactionPool busy) /\
       absent T1 (transactionPool w')) /\
  (TransactionPool.has T1 (transactionPool busy) = false ->
     TransactionPool.remove T1 busy = (Normal false, busy)).
Proof.
  split; [exact reachable_busy|].
  apply (remove_of_stored_and_missing T1 busy reachable_busy).
Defined.
End PoolRuns.

Section ConflictRuns.
#[local] Existing Instance Scenario.utils.
#[local] Existing Instance Scenario.constants.
#[local] Existing Instance Scenario.logic.
Import PoolSpec Scenario.

(** Conflict and requeue: with [T1] in the pool, the earlier [T2] of the
    same sender is a conflict. *)
Example isPotentialConflict_T2 :
  dependent T2 (transactionPool withT1) = [T1] /\
  TransactionPool.isPotentialConflict T2 (transactionPool withT1) = true.
Proof. vm_compute. repeat split. Qed.

(** C3, as amended, at [T2] and the pool holding [T1]. *)
Lemma isPotentialConflict_rules_witness :
  (T2 ∉ dependent T2 (transactionPool withT1)) /\
  TransactionPool.isPotentialConflict T2 (transactionPool withT1)
  = conflictRules T2 (transactionPool withT1).
Proof.
  assert (Hnot : T2 ∉ dependent T2 (transactionPool withT1)).
  { apply (bool_decide_unpack _). vm_compute. exact I. }
  split; [exact Hnot|].
  apply (isPotentialConflict_rules T2 (transactionPool withT1) Hnot).
Defined.

(** C3, as stated, fails: after the declined [push(T3)] the only
    dependent transaction of [T3] is [T3] itself, [T3] is the last
    element of the sorted list, and [isPotentialConflict(T3)] is
    [true]. *)
Lemma declined_transaction_conflicts_with_itself :
  dependent T3 (transactionPool declinedT3) = [T3] /\
  type T3 = SEND /\
  last (Js.sort transactionSortFunc
          (dependent T3 (transactionPool declinedT3) ++ [T3])) = Some T3 /\
  conflictRules T3 (transactionPool declinedT3) = false /\
  TransactionPool.isPotentialConflict T3 (transactionPool declinedT3) = true.
Proof. vm_compute. repeat split. Qed.

(** C9, as stated, fails: [T1'] carries the id of the stored [T1] and
    another sender.  With the bucket of that sender in place,
    [remove(T1')] returns [true] and [T1] stays in its sender bucket;
    without it, [remove(T1')] throws. *)
Lemma remove_by_id_leaves_sender_bucket :
  let r := TransactionPool.remove T1' withT1T5 in
  id T1' = id T1 /\
  TransactionPool.get (id T1') (transactionPool withT1T5) = Some T1 /\
  fst r = Normal true /\
  TransactionPool.get (id T1) (transactionPool (snd r)) = None /\
  TransactionPool.getTransactionsBySenderId (senderId T1)
    (transactionPool (snd r)) = [T1] /\
  fst (TransactionPool.remove T1' withT1)
  = Throw (TypeError "Cannot read property 'filter' of undefined").
Proof. vm_compute. repeat split. Qed.

(** C9, as amended, at [T1], its copy [T1copy] and the pool holding
    [T1]. *)
Lemma membership_by_id_witness :
  id T1 = id T1copy /\
  let p := transactionPool withT1 in
  let q := transactionQueue withT1 in
  TransactionPool.has T1 p = TransactionPool.has T1copy p /\
  TransactionPool.get (id T1) p = TransactionPool.get (id T1copy) p /\
  (TransactionPool.has T1copy p = true <->
     is_Some (TransactionPool.get (id T1) p)) /\
  (forall s,
     reachable withT1 ->
     TransactionPool.get (id T1copy) p = Some s ->
     senderId s = senderId T1copy -> recipientId s = recipientId T1copy ->
     exists w',
       TransactionPool.remove T1copy withT1 = (Normal true, w') /\
       absent s (transactionPool w')) /\
  (TransactionQueue.has T1copy q = true <->
     (exists u, u ∈ queue q /\ id u = id T1) \/
     (exists e, e ∈ conflictedQueue q /\ id (transaction e) = id T1)).
Proof.
  split; [reflexivity|].
  apply (membership_by_id T1 T1copy withT1 eq_refl).
Defined.

(** Removing through the copy empties the three indexes. *)
Example remove_T1copy :
  let r := TransactionPool.remove T1copy withT1 in
  fst r = Normal true /\
  TransactionPool.get "11" (transactionPool (snd r)) = None /\
  TransactionPool.getTransactionsBySenderId "DDKA" (transactionPool (snd r))
  = [] /\
  TransactionPool.getTransactionsByRecipientId "DDKB" (transactionPool (snd r))
  = [].
Proof. vm_compute. repeat split. Qed.

(** [process] on the queue holding [T2] while the pool holds [T1]: [T2]
    lands in the conflicted queue, expiring 300 seconds after the clock
    (1500000000999 ms). *)
Example process_queuedT2 :
  let w := snd (TransactionQueue.process 2 queuedT2) in
  conflictedQueue (transactionQueue w) = [mkEntry T2 1500000300] /\
  queue (transactionQueue w) = [] /\
  statusOf w !! oid T2 = Some QUEUED_AS_CONFLICTED.
Proof. vm_compute. repeat split. Qed.
End ConflictRuns.

(** * Further properties *)

(** ** Sorting *)

Section SortProperties.
Context {A : Type} (compare : A -> A -> Z).


End SortProperties.

(** ** The indexes of the pool in every state *)

Section IndexProperties.
Context {L : Type} {utils : TransactionUtils} {logic : TransactionLogic L}.
Import PoolSpec.
Implicit Types (w : World L) (p : PoolState) (t u trs : Transaction).

Lemma bySender_inserted s trs p :
  TransactionPool.getTransactionsBySenderId s (inserted trs p)
  = if decide (senderId trs = s)
    then TransactionPool.getTransactionsBySenderId s p ++ [trs]
    else TransactionPool.getTransactionsBySenderId s p.
Proof.
  unfold TransactionPool.getTransactionsBySenderId. simpl.
  rewrite lookup_insert. destruct (decide (senderId trs = s)) as [->|Hne];
    reflexivity.
Qed.

Lemma byRecipient_inserted r trs p :
  TransactionPool.getTransactionsByRecipientId r (inserted trs p)
  = if decide (type trs = SEND /\ recipientId trs = r)
    then TransactionPool.getTransactionsByRecipientId r p ++ [trs]
    else TransactionPool.getTransactionsByRecipientId r p.
Proof.
  unfold TransactionPool.getTransactionsByRecipientId. simpl.
  destruct (decide (type trs = SEND)) as [Hs|Hs].
  - rewrite lookup_insert. destruct (decide (recipientId trs = r)) as [->|Hne].
    + rewrite decide_True by tauto. reflexivity.
    + rewrite decide_False by tauto. reflexivity.
  - rewrite decide_False by tauto. reflexivity.
Qed.

Lemma indexed_empty : indexed emptyPool.
Proof.
  split; [apply wellFormed_empty|]. split; [|split].
  - intros t Ht. discriminate.
  - intros s t Ht. unfold TransactionPool.getTransactionsBySenderId in Ht.
    simpl in Ht. rewrite lookup_empty in Ht. inversion Ht.
  - intros s t Ht. unfold TransactionPool.getTransactionsByRecipientId in Ht.
    simpl in Ht. rewrite lookup_empty in Ht. inversion Ht.
Qed.

Lemma indexed_delete k p :
  indexed p -> indexed (TransactionPool.setPool (Js.delete k (pool p)) p).
Proof.
  intros (Hwf & Hst & Hs & Hr). split; [apply wellFormed_delete, Hwf|].
  split; [|split; [exact Hs|exact Hr]].
  intros t Ht. apply Hst. unfold inById in *. simpl in Ht.
  destruct (decide (k = id t)) as [->|Hne].
  - rewrite get_delete in Ht. discriminate.
  - rewrite get_delete_ne in Ht by exact Hne. exact Ht.
Qed.

Lemma indexed_inserted trs p :
  TransactionPool.has trs p = false -> indexed p -> indexed (inserted trs p).
Proof.
  intros Hhas (Hwf & Hst & Hs & Hr).
  split; [apply wellFormed_inserted; assumption|]. split; [|split].
  - intros t Ht. apply inById_inserted in Ht; [|exact Hhas].
    rewrite inBySender_inserted, inByRecipient_inserted.
    destruct Ht as [->|Ht]; [tauto|]. destruct (Hst t Ht). tauto.
  - intros s t. rewrite bySender_inserted.
    destruct (decide (senderId trs = s)) as [<-|Hne]; [|apply Hs].
    rewrite elem_of_app, list_elem_of_singleton. intros [Ht| ->]; [|reflexivity].
    apply Hs, Ht.
  - intros r t Ht. rewrite byRecipient_inserted in Ht.
    assert (is_Some (poolBySender p !! senderId t) ->
            is_Some (poolBySender (inserted trs p) !! senderId t)) as Hkeep.
    { intros Hb. simpl. rewrite lookup_insert.
      destruct (decide (senderId trs = senderId t)); eauto. }
    destruct (decide (type trs = SEND /\ recipientId trs = r)) as [[Hty <-]|Hne].
    + apply elem_of_app in Ht as [Ht|Ht].
      * destruct (Hr _ _ Ht) as (? & ? & ?). auto.
      * apply list_elem_of_singleton in Ht. subst t.
        split; [reflexivity|]. split; [exact Hty|].
        simpl. rewrite lookup_insert_eq. eauto.
    + destruct (Hr _ _ Ht) as (? & ? & ?). auto.
Qed.

Lemma indexed_removed trs p : indexed p -> indexed (removed trs p).
Proof.
  intros (Hwf & Hst & Hs & Hr).
  split; [apply removed_wellFormed, Hwf|]. split; [|split].
  - intros t Ht. unfold inById in Ht. simpl in Ht.
    assert (id trs <> id t) as Hne.
    { intros Heq. rewrite Heq, get_delete in Ht. discriminate. }
    rewrite get_delete_ne in Ht by exact Hne.
    destruct (Hst t Ht) as [Hbs Hbr].
    unfold inBySender, inByRecipient.
    rewrite bySender_removed, byRecipient_removed. split.
    + case_decide; [|exact Hbs]. apply list_elem_of_filter. split; [congruence|].
      exact Hbs.
    + intros Hty. case_decide; [|exact (Hbr Hty)].
      apply list_elem_of_filter. split; [congruence|]. exact (Hbr Hty).
  - intros s t. rewrite bySender_removed. case_decide; [|apply Hs].
    intros Ht. apply list_elem_of_filter in Ht as [_ Ht]. apply Hs, Ht.
  - intros r t Ht.
    assert (t ∈ TransactionPool.getTransactionsByRecipientId r p) as Ht'.
    { rewrite byRecipient_removed in Ht. case_decide; [|exact Ht].
      apply list_elem_of_filter in Ht as [_ Ht]. exact Ht. }
    destruct (Hr _ _ Ht') as (? & ? & Hb). split; [assumption|].
    split; [assumption|]. simpl. rewrite lookup_insert. case_decide; eauto.
Qed.

Lemma push_indexed trs (broadcast force : bool) w :
  indexed (transactionPool w) ->
  indexed (transactionPool (snd (TransactionPool.push trs broadcast force w))).
Proof.
  intros Hi. rewrite push_run. simpl.
  destruct (locked (transactionPool w) && negb force); [exact Hi|].
  destruct (TransactionPool.has trs (transactionPool w)) eqn:Hhas; [exact Hi|].
  destruct (TransactionPool.isPotentialConflict trs (transactionPool w)).
  - simpl. apply indexed_delete, Hi.
  - destruct (newApplyUnconfirmed trs (ledger w)) as [[[]|err] l']; simpl.
    + apply indexed_inserted; assumption.
    + apply (indexed_delete (id trs) (inserted trs (transactionPool w))).
      apply indexed_inserted; assumption.
Qed.

Lemma remove_indexed trs w :
  indexed (transactionPool w) ->
  indexed (transactionPool (snd (TransactionPool.remove trs w))).
Proof.
  intros Hi.
  destruct (Js.get (id trs) (pool (transactionPool w))) as [s|] eqn:Hg.
  - destruct (poolBySender (transactionPool w) !! senderId trs) as [b|] eqn:Hb.
    + destruct (remove_stored trs w) as (w' & Hrun & Hp & _); eauto.
      rewrite Hrun. simpl. rewrite Hp. apply indexed_removed, Hi.
    + unfold TransactionPool.remove, bind, getWorld, tryCatch, await,
        modifyPool, ret, throw. simpl. rewrite Hg.
      destruct (newUndoUnconfirmed trs (ledger w)) as [[[]|err] l']; simpl;
        rewrite Hb; simpl; apply indexed_delete, Hi.
  - rewrite remove_missing by exact Hg. exact Hi.
Qed.

Lemma removeInOrder_indexed ts : forall w,
  indexed (transactionPool w) ->
  indexed (transactionPool (snd (removeInOrder ts w))).
Proof.
  induction ts as [|t ts IH]; intros w Hi; simpl; [exact Hi|].
  unfold bind. pose proof (remove_indexed t w Hi) as Hr.
  destruct (TransactionPool.remove t w) as [[b|e] w1]; simpl in *;
    [apply IH, Hr|exact Hr].
Qed.

Lemma removeEach_indexed ts : forall acc w,
  indexed (transactionPool w) ->
  indexed (transactionPool (snd (TransactionPool.removeEach ts acc w))).
Proof.
  induction ts as [|t ts IH]; intros acc w Hi; simpl; [exact Hi|].
  unfold bind. pose proof (remove_indexed t w Hi) as Hr.
  destruct (TransactionPool.remove t w) as [[b|e] w1]; simpl in *;
    [apply IH, Hr|exact Hr].
Qed.

Lemma pop_pool trs w :
  transactionPool (snd (TransactionPool.pop trs w))
  = transactionPool (snd (TransactionPool.remove trs w)).
Proof.
  unfold TransactionPool.pop, bind, getWorld, detached, tryCatch, ret. simpl.
  destruct (TransactionPool.remove trs w) as [[b|e] w1]; reflexivity.
Qed.

Lemma reachable_indexed_pool w : reachable w -> indexed (transactionPool w).
Proof.
  induction 1 as [l now st b ss q|w w' _ IH Hp|w _ IH|w _ IH
                 |w trs broadcast force _ IH|w trs _ IH|w trs _ IH
                 |w limit _ IH|w senderId _ IH|w address _ IH].
  - apply indexed_empty.
  - rewrite Hp. exact IH.
  - exact IH.
  - exact IH.
  - apply push_indexed, IH.
  - apply remove_indexed, IH.
  - rewrite pop_pool. apply remove_indexed, IH.
  - unfold TransactionPool.popSortedUnconfirmedTransactions.
    unfold bind at 1. unfold getWorld. cbv beta iota.
    unfold bind at 1. rewrite forOf_remove.
    pose proof (removeInOrder_indexed
      (Js.slice0 limit (Js.sort transactionSortFunc
                          (Js.values (pool (transactionPool w))))) w IH) as Hr.
    destruct (removeInOrder _ w) as [[[]|e] w1]; exact Hr.
  - apply (removeEach_indexed _ [] w IH).
  - apply (removeEach_indexed _ [] w IH).
Qed.

(** X5.  In every state of the pool, whatever calls led to it: each id
    is stored once; a stored transaction is listed in the bucket of its
    sender, and in the bucket of its recipient when it is a [SEND]; a
    sender bucket lists only transactions of that sender, and a
    recipient bucket only [SEND]s to that recipient. *)
Theorem stored_transactions_stay_listed (w : World L) :
  reachable w ->
  let p := transactionPool w in
  NoDup (fst <$> pool p) /\
  (forall t, inById t p ->
     inBySender t p /\ (type t = SEND -> inByRecipient t p)) /\
  (forall s t, t ∈ TransactionPool.getTransactionsBySenderId s p ->
     senderId t = s) /\
  (forall r t, t ∈ TransactionPool.getTransactionsByRecipientId r p ->
     recipientId t = r /\ type t = SEND).
Proof.
  intros Hr p.
  destruct (reachable_indexed_pool w Hr) as ([Hnd _] & Hst & Hs & Hrc).
  split; [exact Hnd|]. split; [exact Hst|]. split; [exact Hs|].
  intros r t Ht. destruct (Hrc r t Ht) as (? & ? & _). auto.
Qed.

Lemma removed_get k trs p :
  Js.get k (pool (removed trs p))
  = if decide (k = id trs) then None else Js.get k (pool p).
Proof.
  simpl. destruct (decide (k = id trs)) as [->|Hne].
  - apply get_delete.
  - apply get_delete_ne. congruence.
Qed.

(** A loop of [remove] over transactions whose sender bucket exists when
    their id is stored. *)
Lemma removeEach_runs ts : forall acc w,
  (forall t, t ∈ ts ->
     is_Some (Js.get (id t) (pool (transactionPool w))) ->
     is_Some (poolBySender (transactionPool w) !! senderId t)) ->
  exists gone w',
    TransactionPool.removeEach ts acc w = (Normal (acc ++ gone), w') /\
    gone `sublist_of` ts /\
    withoutIds ts (transactionPool w) (transactionPool w') /\
    (forall k, is_Some (poolBySender (transactionPool w) !! k) ->
               is_Some (poolBySender (transactionPool w') !! k)) /\
    transactionQueue w' = transactionQueue w.
Proof.
  induction ts as [|t ts IH]; intros acc w Hpre; simpl.
  - exists [], w. rewrite app_nil_r. repeat split; auto.
  - unfold bind.
    destruct (Js.get (id t) (pool (transactionPool w))) as [s|] eqn:Hg.
    + destruct (remove_stored t w) as (w1 & Hrun & Hp & Hq & _);
        [eauto|apply Hpre; [left|eauto]|].
      rewrite Hrun.
      assert (forall k, is_Some (poolBySender (transactionPool w) !! k) ->
                        is_Some (poolBySender (transactionPool w1) !! k))
        as Hkeys.
      { intros k Hk. rewrite Hp. simpl. rewrite lookup_insert.
        destruct (decide (senderId t = k)); eauto. }
      destruct (IH (acc ++ [t]) w1) as (gone & w' & Hrun' & Hsub & Hwo & Hk' & Hq').
      { intros u Hu Hsome. apply Hkeys, Hpre; [right; exact Hu|].
        rewrite Hp, removed_get in Hsome. case_decide; [|exact Hsome].
        destruct Hsome as [? Hx]. discriminate. }
      exists (t :: gone), w'. rewrite Hrun', <- app_assoc. simpl.
      split; [reflexivity|]. split; [constructor; exact Hsub|].
      split; [|split; [auto|congruence]].
      intros k. rewrite Hwo, Hp, removed_get. rewrite fmap_cons.
      destruct (decide (k = id t)) as [->|Hne].
      * rewrite (bool_decide_eq_true_2 (id t ∈ id t :: (id <$> ts)))
          by left.
        destruct (bool_decide _); reflexivity.
      * destruct (bool_decide (k ∈ id <$> ts)) eqn:Hd.
        -- apply bool_decide_eq_true in Hd.
           rewrite bool_decide_eq_true_2 by (right; exact Hd). reflexivity.
        -- apply bool_decide_eq_false in Hd. rewrite bool_decide_eq_false_2.
           ++ reflexivity.
           ++ intros Hin. apply elem_of_cons in Hin as [?|?]; auto.
    + rewrite remove_missing by exact Hg.
      destruct (IH acc w) as (gone & w' & Hrun' & Hsub & Hwo & Hk' & Hq').
      { intros u Hu. apply Hpre. right. exact Hu. }
      exists gone, w'. rewrite Hrun'.
      split; [reflexivity|]. split; [apply sublist_cons; exact Hsub|].
      split; [|split; assumption].
      intros k. rewrite Hwo. rewrite fmap_cons.
      destruct (decide (k = id t)) as [->|Hne].
      * rewrite (bool_decide_eq_true_2 (id t ∈ id t :: (id <$> ts))) by left.
        rewrite Hg. destruct (bool_decide _); reflexivity.
      * destruct (bool_decide (k ∈ id <$> ts)) eqn:Hd.
        -- apply bool_decide_eq_true in Hd.
           rewrite bool_decide_eq_true_2 by (right; exact Hd). reflexivity.
        -- apply bool_decide_eq_false in Hd. rewrite bool_decide_eq_false_2.
           ++ reflexivity.
           ++ intros Hin. apply elem_of_cons in Hin as [?|?]; auto.
Qed.

Lemma withoutIds_stored ts p p' u :
  withoutIds ts p p' -> inById u p' -> inById u p /\ id u ∉ id <$> ts.
Proof.
  intros Hwo Hu. unfold inById in *. rewrite Hwo in Hu.
  destruct (bool_decide (id u ∈ id <$> ts)) eqn:Hd; [discriminate|].
  apply bool_decide_eq_false in Hd. auto.
Qed.

Lemma removeBySender_run (s : string) (w : World L) :
  indexed (transactionPool w) ->
  let bucket := TransactionPool.getTransactionsBySenderId s (transactionPool w) in
  exists gone w',
    TransactionPool.removeTransactionBySenderId s w = (Normal gone, w') /\
    gone `sublist_of` bucket /\
    withoutIds bucket (transactionPool w) (transactionPool w') /\
    (forall u, inById u (transactionPool w') -> senderId u <> s) /\
    indexed (transactionPool w').
Proof.
  intros Hi bucket. pose proof Hi as (Hwf & Hst & Hs & Hrc).
  destruct (removeEach_runs bucket [] w) as (gone & w' & Hrun & Hsub & Hwo & _).
  { intros t Ht _. pose proof (Hs _ _ Ht) as Heq. subst s. subst bucket.
    unfold TransactionPool.getTransactionsBySenderId in Ht.
    destruct (poolBySender (transactionPool w) !! senderId t); [eauto|].
    inversion Ht. }
  exists gone, w'. split; [exact Hrun|]. split; [exact Hsub|].
  split; [exact Hwo|]. split.
  - intros u Hu Heq.
    destruct (withoutIds_stored _ _ _ _ Hwo Hu) as [Hu0 Hnot].
    apply Hnot, list_elem_of_fmap. exists u. split; [reflexivity|].
    destruct (Hst u Hu0) as [Hb _]. unfold inBySender in Hb. rewrite Heq in Hb.
    exact Hb.
  - pose proof (removeEach_indexed bucket [] w Hi) as Hi'.
    fold bucket in Hrun. rewrite Hrun in Hi'. exact Hi'.
Qed.

Lemma removeByRecipient_run (address : string) (w : World L) :
  indexed (transactionPool w) ->
  let bucket :=
    TransactionPool.getTransactionsByRecipientId address (transactionPool w) in
  exists gone w',
    TransactionPool.removeTransactionByRecipientId address w
    = (Normal gone, w') /\
    gone `sublist_of` bucket /\
    withoutIds bucket (transactionPool w) (transactionPool w') /\
    (forall u, inById u (transactionPool w') -> type u = SEND ->
               recipientId u <> address) /\
    indexed (transactionPool w').
Proof.
  intros Hi bucket. pose proof Hi as (Hwf & Hst & Hs & Hrc).
  destruct (removeEach_runs bucket [] w) as (gone & w' & Hrun & Hsub & Hwo & _).
  { intros t Ht _. apply (Hrc _ _ Ht). }
  exists gone, w'. split; [exact Hrun|]. split; [exact Hsub|].
  split; [exact Hwo|]. split.
  - intros u Hu Hty Heq.
    destruct (withoutIds_stored _ _ _ _ Hwo Hu) as [Hu0 Hnot].
    apply Hnot, list_elem_of_fmap. exists u. split; [reflexivity|].
    destruct (Hst u Hu0) as [_ Hb]. specialize (Hb Hty).
    unfold inByRecipient in Hb. rewrite Heq in Hb. exact Hb.
  - pose proof (removeEach_indexed bucket [] w Hi) as Hi'.
    fold bucket in Hrun. rewrite Hrun in Hi'. exact Hi'.
Qed.

(** X6.  In every state of the pool, [removeTransactionBySenderId(s)]
    returns; the transactions it returns are taken, in order, from the
    bucket of [s]; the ids of that bucket are gone from the primary index
    and nothing else is; no stored transaction has the sender [s]
    afterwards. *)
Theorem removeTransactionBySenderId_clears_sender (s : string) (w : World L) :
  reachable w ->
  let bucket := TransactionPool.getTransactionsBySenderId s (transactionPool w) in
  exists gone w',
    TransactionPool.removeTransactionBySenderId s w = (Normal gone, w') /\
    gone `sublist_of` bucket /\
    withoutIds bucket (transactionPool w) (transactionPool w') /\
    (forall u, inById u (transactionPool w') -> senderId u <> s).
Proof.
  intros Hr bucket.
  destruct (removeBySender_run s w (reachable_indexed_pool w Hr))
    as (gone & w' & ? & ? & ? & ? & _).
  exists gone, w'. auto.
Qed.

(** X7.  In every state of the pool, [removeTransactionByRecipientId(a)]
    returns; the transactions it returns are taken, in order, from the
    bucket of [a]; the ids of that bucket are gone from the primary index
    and nothing else is; no stored [SEND] has the recipient [a]
    afterwards. *)
Theorem removeTransactionByRecipientId_clears_recipient (address : string)
    (w : World L) :
  reachable w ->
  let bucket :=
    TransactionPool.getTransactionsByRecipientId address (transactionPool w) in
  exists gone w',
    TransactionPool.removeTransactionByRecipientId address w
    = (Normal gone, w') /\
    gone `sublist_of` bucket /\
    withoutIds bucket (transactionPool w) (transactionPool w') /\
    (forall u, inById u (transactionPool w') -> type u = SEND ->
               recipientId u <> address).
Proof.
  intros Hr bucket.
  destruct (removeByRecipient_run address w (reachable_indexed_pool w Hr))
    as (gone & w' & ? & ? & ? & ? & _).
  exists gone, w'. auto.
Qed.

(** X8.  [pop(trs)] returns the object stored under the id of [trs], or
    nothing; once the removal it starts is over, no object is stored
    under that id, also when that removal is rejected; a call for an id
    that is not stored changes nothing. *)
Theorem pop_returns_stored_and_clears (trs : Transaction) (w : World L) :
  let r := TransactionPool.pop trs w in
  fst r = Normal (TransactionPool.get (id trs) (transactionPool w)) /\
  TransactionPool.has trs (transactionPool (snd r)) = false /\
  (TransactionPool.has trs (transactionPool w) = false -> snd r = w).
Proof.
  unfold TransactionPool.has, TransactionPool.get.
  destruct (Js.get (id trs) (pool (transactionPool w))) as [s|] eqn:Hg.
  - destruct (poolBySender (transactionPool w) !! senderId trs) as [b|] eqn:Hb.
    + destruct (remove_stored trs w) as (w' & Hrun & Hp & _); eauto.
      unfold TransactionPool.pop, bind, getWorld, detached, tryCatch, ret,
        TransactionPool.get. simpl. rewrite Hrun. simpl. rewrite Hg, Hp.
      simpl. rewrite get_delete. split; [reflexivity|]. split; [reflexivity|].
      discriminate.
    + unfold TransactionPool.pop, TransactionPool.remove, bind, getWorld,
        detached, tryCatch, await, modifyPool, ret, throw, TransactionPool.get.
      simpl. rewrite Hg.
      destruct (newUndoUnconfirmed trs (ledger w)) as [[[]|err] l']; simpl;
        rewrite Hb; simpl; rewrite get_delete;
        (split; [reflexivity|]; split; [reflexivity|discriminate]).
  - unfold TransactionPool.pop, bind, getWorld, detached, tryCatch, ret,
      TransactionPool.get. simpl. rewrite remove_missing by exact Hg. simpl.
    rewrite Hg. auto.
Qed.
End IndexProperties.

(** ** Listing the pool *)

Section ListingProperties.
Context {L : Type} {utils : TransactionUtils} {constants : Constants}
        {logic : TransactionLogic L}.
Import PoolSpec.
Implicit Types (w : World L) (p : PoolState) (t u trs : Transaction).

Lemma slice0_firstSorted limit p :
  exists m : nat,
    Js.slice0 limit (Js.sort transactionSortFunc (Js.values (pool p)))
    = firstSorted (Z.of_nat m) p.
Proof.
  unfold Js.slice0, firstSorted. destruct (0 <=? limit)%Z.
  - exists (Z.to_nat limit). rewrite Nat2Z.id. reflexivity.
  - eexists. rewrite Nat2Z.id. reflexivity.
Qed.

(** Whatever the limit, [popSortedUnconfirmedTransactions] returns the
    slice it computes when the pool is well formed. *)
Lemma popSorted_returns limit w :
  wellFormed (transactionPool w) ->
  fst (TransactionPool.popSortedUnconfirmedTransactions limit w)
  = Normal (Js.slice0 limit
              (Js.sort transactionSortFunc
                 (Js.values (pool (transactionPool w))))).
Proof.
  intros Hwf. unfold TransactionPool.popSortedUnconfirmedTransactions.
  unfold bind at 1. unfold getWorld. cbv beta iota.
  unfold bind at 1. rewrite forOf_remove.
  destruct (slice0_firstSorted limit (transactionPool w)) as [m ->].
  destruct (removeInOrder_stored (firstSorted (Z.of_nat m) (transactionPool w)) w)
    as (w' & Hrun & _).
  - exact Hwf.
  - apply firstSorted_NoDup, Hwf.
  - intros t. apply firstSorted_stored, Hwf.
  - rewrite Hrun. reflexivity.
Qed.

Lemma sorted_values_length p :
  length (Js.sort transactionSortFunc (Js.values (pool p)))
  = TransactionPool.getSize p.
Proof.
  unfold TransactionPool.getSize, Js.size.
  rewrite sort_perm, values_perm. apply length_fmap.
Qed.

(** X9.  Without a sender key (absent or empty), [getTransactions] lists
    what [popSortedUnconfirmedTransactions] would take from the pool for
    the limit capped by [maxSharedTxs], and counts the whole pool. *)
Theorem getTransactions_previews_popSorted (limit : option Z) (w : World L) :
  reachable w ->
  let p := transactionPool w in
  let listed := TransactionPool.getTransactions limit None p in
  fst (TransactionPool.popSortedUnconfirmedTransactions
         (Z.min (default maxSharedTxs limit) maxSharedTxs) w)
  = Normal (fst listed) /\
  snd listed = TransactionPool.getSize p /\
  TransactionPool.getTransactions limit (Some "") p = listed.
Proof.
  intros Hr p listed. split; [|split].
  - rewrite popSorted_returns by apply reachable_wellFormed, Hr. reflexivity.
  - apply sorted_values_length.
  - reflexivity.
Qed.

Lemma slice0_length {A} limit (l : list A) :
  Z.of_nat (length (Js.slice0 limit l))
  = if (0 <=? limit)%Z then Z.min limit (Z.of_nat (length l))
    else Z.max 0 (Z.of_nat (length l) + limit).
Proof.
  unfold Js.slice0. destruct (0 <=? limit)%Z eqn:Hl; rewrite length_take; lia.
Qed.

(** X10.  The number of transactions [getTransactions] lists, in both of
    its forms: for a limit that is not negative, the smallest of the
    limit, [maxSharedTxs] and the count it reports; a negative limit is
    counted from the end of the candidates. *)
Theorem getTransactions_length (limit : option Z)
    (senderPublicKey : option string) (p : PoolState) :
  let listed := TransactionPool.getTransactions limit senderPublicKey p in
  let k := Z.min (default maxSharedTxs limit) maxSharedTxs in
  let count := Z.of_nat (snd listed) in
  Z.of_nat (length (fst listed))
  = if (0 <=? k)%Z then Z.min k count else Z.max 0 (count + k).
Proof.
  unfold TransactionPool.getTransactions.
  destruct senderPublicKey as [key|]; simpl.
  - destruct (String.length key =? 0)%nat; simpl.
    + rewrite slice0_length. reflexivity.
    + rewrite length_reverse, slice0_length.
      rewrite (Permutation_length (sort_perm _ _)). reflexivity.
  - rewrite slice0_length. reflexivity.
Qed.

(** X11.  With a sender key, [getTransactions] counts the transactions the
    conflict detector consults for a transaction of that key: the count
    is zero exactly when no transaction of the key can conflict, and the
    listed transactions are among them. *)
Theorem getTransactions_counts_dependents (limit : option Z) (key : string) p :
  key <> ""%string ->
  let listed := TransactionPool.getTransactions limit (Some key) p in
  (forall trs, senderPublicKey trs = key ->
     snd listed = length (dependent trs p) /\
     forall t, t ∈ fst listed -> t ∈ dependent trs p) /\
  (snd listed = 0%nat <->
   forall trs, senderPublicKey trs = key ->
               TransactionPool.isPotentialConflict trs p = false).
Proof.
  intros Hkey listed.
  assert (listed =
    (reverse (Js.slice0 (Z.min (default maxSharedTxs limit) maxSharedTxs)
       (Js.sort transactionSortFunc
          (default [] (poolByRecipient p !! generateAddressByPublicKey key)
           ++ default [] (poolBySender p !! generateAddressByPublicKey key)))),
     length (default [] (poolByRecipient p !! generateAddressByPublicKey key)
             ++ default [] (poolBySender p !! generateAddressByPublicKey key))))
    as ->.
  { unfold listed, TransactionPool.getTransactions.
    destruct key as [|a key]; [congruence|]. reflexivity. }
  simpl. split.
  - intros trs <-. split; [reflexivity|]. intros t Ht.
    rewrite elem_of_reverse in Ht.
    assert (t ∈ Js.sort transactionSortFunc (dependent trs p)) as Hs.
    { unfold Js.slice0 in Ht. destruct (0 <=? _)%Z;
        apply subseteq_take in Ht; exact Ht. }
    rewrite sort_perm in Hs. exact Hs.
  - split.
    + intros Hz trs <-. unfold TransactionPool.isPotentialConflict.
      cbv zeta. rewrite Hz. reflexivity.
    + intros Hall.
      specialize (Hall (mkTransaction 1 "" SIGNATURE key "" "" 0 0 0) eq_refl).
      unfold TransactionPool.isPotentialConflict in Hall. cbv zeta in Hall.
      simpl in Hall.
      destruct (length _ =? 0)%nat eqn:Hl in Hall.
      * apply Nat.eqb_eq in Hl. exact Hl.
      * discriminate.
Qed.
End ListingProperties.

(** ** The methods of [Transactions] on the pool *)

Section TransactionsProperties.
Context {L : Type} {utils : TransactionUtils} {constants : Constants}
        {logic : TransactionLogic L}.
Import PoolSpec.
Implicit Types (w : World L) (p : PoolState) (t u trs : Transaction).

Lemma removeFromPoolFrom_removeEach ts : forall acc w,
  Transactions.removeFromPoolFrom ts false acc w
  = TransactionPool.removeEach ts acc w.
Proof.
  induction ts as [|t ts IH]; intros acc w; simpl; [reflexivity|].
  unfold bind. destruct (TransactionPool.remove t w) as [[b|e] w1];
    [apply IH|reflexivity].
Qed.

(** X12.  [removeFromPool(transactions, false)], in every state of the
    pool and for transactions that carry the sender of the stored
    transaction with their id, if there is one: the call returns, the
    transactions it returns are taken in order from its argument, the ids
    of the argument are gone from the primary index and no other id is. *)
Theorem removeFromPool_without_dependents (ts : list Transaction) (w : World L) :
  reachable w ->
  (forall t s, t ∈ ts ->
     TransactionPool.get (id t) (transactionPool w) = Some s ->
     senderId s = senderId t) ->
  exists gone w',
    Transactions.removeFromPool ts false w = (Normal gone, w') /\
    gone `sublist_of` ts /\
    withoutIds ts (transactionPool w) (transactionPool w') /\
    (forall t, t ∈ ts -> TransactionPool.has t (transactionPool w') = false).
Proof.
  intros Hr Hsame. pose proof (reachable_wellFormed w Hr) as [_ Hall].
  destruct (removeEach_runs ts [] w) as (gone & w' & Hrun & Hsub & Hwo & _).
  { intros t Ht [s Hs]. specialize (Hsame t s Ht Hs).
    apply get_Some_elem in Hs. rewrite Forall_forall in Hall.
    destruct (Hall _ Hs) as [_ Hb]. simpl in Hb. rewrite Hsame in Hb.
    exact Hb. }
  exists gone, w'. unfold Transactions.removeFromPool.
  rewrite removeFromPoolFrom_removeEach. split; [exact Hrun|].
  split; [exact Hsub|]. split; [exact Hwo|].
  intros t Ht. unfold TransactionPool.has. rewrite Hwo.
  rewrite bool_decide_eq_true_2; [reflexivity|].
  apply list_elem_of_fmap. eauto.
Qed.

Lemma removeFromPoolFrom_dependents ts : forall acc w,
  indexed (transactionPool w) ->
  exists gone w',
    Transactions.removeFromPoolFrom ts true acc w = (Normal gone, w') /\
    forall u, inById u (transactionPool w') ->
      inById u (transactionPool w) /\
      forall t, t ∈ ts ->
        senderId u <> senderId t /\
        (type u = SEND -> recipientId u <> senderId t).
Proof.
  induction ts as [|t ts IH]; intros acc w Hi; simpl.
  - exists acc, w. split; [reflexivity|]. intros u Hu. split; [exact Hu|].
    intros t Ht. inversion Ht.
  - unfold bind.
    destruct (removeBySender_run (senderId t) w Hi)
      as (g1 & w1 & Hrun1 & _ & Hwo1 & Hs1 & Hi1).
    rewrite Hrun1.
    destruct (removeByRecipient_run (senderId t) w1 Hi1)
      as (g2 & w2 & Hrun2 & _ & Hwo2 & Hr2 & Hi2).
    rewrite Hrun2.
    destruct (IH ((acc ++ g1) ++ g2) w2 Hi2) as (gone & w' & Hrun & Hrest).
    exists gone, w'. split; [exact Hrun|].
    intros u Hu. destruct (Hrest u Hu) as [Hu2 Hothers].
    destruct (withoutIds_stored _ _ _ _ Hwo2 Hu2) as [Hu1 _].
    destruct (withoutIds_stored _ _ _ _ Hwo1 Hu1) as [Hu0 _].
    split; [exact Hu0|]. intros t' Ht'.
    apply elem_of_cons in Ht' as [->|Ht'].
    + split; [apply Hs1, Hu1|]. intros Hty. apply Hr2; assumption.
    + apply Hothers, Ht'.
Qed.

(** X13.  [removeFromPool(transactions, true)], in every state of the
    pool: the call returns, and afterwards the pool stores no
    transaction sent by the sender of one of the transactions, and no
    [SEND] received by such a sender; what it stores was stored before. *)
Theorem removeFromPool_with_dependents (ts : list Transaction) (w : World L) :
  reachable w ->
  exists gone w',
    Transactions.removeFromPool ts true w = (Normal gone, w') /\
    forall u, inById u (transactionPool w') ->
      inById u (transactionPool w) /\
      forall t, t ∈ ts ->
        senderId u <> senderId t /\
        (type u = SEND -> recipientId u <> senderId t).
Proof.
  intros Hr. apply removeFromPoolFrom_dependents, reachable_indexed_pool, Hr.
Qed.

(** A forced [push] does not read the lock. *)
Lemma push_forced_lock trs (broadcast : bool) w :
  TransactionPool.push trs broadcast true (snd (TransactionPool.lock w))
  = (fst (TransactionPool.push trs broadcast true w),
     snd (TransactionPool.lock
            (snd (TransactionPool.push trs broadcast true w)))).
Proof.
  rewrite !push_run. cbv zeta. rewrite !andb_false_r.
  unfold TransactionPool.lock, modifyPool. simpl.
  change (TransactionPool.has trs (TransactionPool.setLocked true (transactionPool w)))
    with (TransactionPool.has trs (transactionPool w)).
  change (TransactionPool.isPotentialConflict trs
            (TransactionPool.setLocked true (transactionPool w)))
    with (TransactionPool.isPotentialConflict trs (transactionPool w)).
  destruct (TransactionPool.has trs (transactionPool w)); [reflexivity|].
  destruct (TransactionPool.isPotentialConflict trs (transactionPool w));
    [reflexivity|].
  destruct (newApplyUnconfirmed trs (ledger w)) as [[[]|err] l']; reflexivity.
Qed.

Lemma bind_lock {A B} (m : Run L A) (k : A -> Run L B) :
  (forall w, m (snd (TransactionPool.lock w))
             = (fst (m w), snd (TransactionPool.lock (snd (m w))))) ->
  (forall a w, k a (snd (TransactionPool.lock w))
               = (fst (k a w), snd (TransactionPool.lock (snd (k a w))))) ->
  forall w, bind m k (snd (TransactionPool.lock w))
            = (fst (bind m k w), snd (TransactionPool.lock (snd (bind m k w)))).
Proof.
  intros Hm Hk w. unfold bind. rewrite Hm.
  destruct (m w) as [[a|e] w1]; [apply Hk|reflexivity].
Qed.

(** X14.  [pushInPool] does not read the lock of the pool: on a locked
    pool it ends as on the same pool unlocked, and leaves the same state
    but for the lock. *)
Theorem pushInPool_ignores_lock (ts : list Transaction) (w : World L) :
  Transactions.pushInPool ts (snd (TransactionPool.lock w))
  = (fst (Transactions.pushInPool ts w),
     snd (TransactionPool.lock (snd (Transactions.pushInPool ts w)))).
Proof.
  unfold Transactions.pushInPool. revert w.
  induction ts as [|t ts IH]; [reflexivity|].
  cbn [forOf]. apply bind_lock; [|intros _; exact IH].
  apply bind_lock; [apply push_forced_lock|reflexivity].
Qed.
End TransactionsProperties.

(** ** The queue: [push], [reshuffle], the locks and [process] *)

Section ReshuffleProperties.
Context {L : Type} {utils : TransactionUtils} {constants : Constants}
        {logic : TransactionLogic L}.
Import PoolSpec.
Implicit Types (w : World L) (p : PoolState) (t u trs : Transaction).

Lemma process_idle fuel w :
  queue (transactionQueue w) = [] \/ queueLocked (transactionQueue w) = true ->
  TransactionQueue.process fuel w = (Normal tt, w).
Proof.
  intros Hidle. destruct fuel as [|fuel]; [reflexivity|]. simpl.
  unfold TransactionQueue.processWith, bind, getWorld.
  destruct Hidle as [-> | ->]; [reflexivity|].
  rewrite orb_true_r. reflexivity.
Qed.

(** [push] onto a queue that is not empty, or is locked. *)
Lemma pushWith_quiet fuel trs w :
  queue (transactionQueue w) <> [] \/ queueLocked (transactionQueue w) = true ->
  TransactionQueue.pushWith (TransactionQueue.process fuel) trs w
  = (Normal tt,
     mkWorld (ledger w) (clock w) (<[oid trs := QUEUED]> (statusOf w)) (bus w)
             (sessions w) (transactionPool w)
             (mkQueue
                (match queue (transactionQueue w) with
                 | [] => [trs]
                 | _ => Js.sort transactionSortFunc
                          (queue (transactionQueue w) ++ [trs])
                 end)
                (conflictedQueue (transactionQueue w))
                (queueLocked (transactionQueue w)))).
Proof.
  intros Hq. destruct w as [l c st b ss p [q cq lk]]. simpl in *.
  unfold TransactionQueue.pushWith, bind, setStatus, modifyQueue, getWorld,
    detached, tryCatch. simpl.
  destruct q as [|x q]; simpl.
  - destruct Hq as [Hq|Hq]; [congruence|]. subst lk.
    rewrite process_idle by (right; reflexivity). reflexivity.
  - rewrite length_app. simpl.
    replace (length q + 1 =? 0)%nat with false
      by (symmetry; apply Nat.eqb_neq; lia).
    reflexivity.
Qed.


Lemma reshuffleWith_drains fuel es : forall turns w,
  conflictedQueue (transactionQueue w) = es ->
  queue (transactionQueue w) <> [] \/ queueLocked (transactionQueue w) = true ->
  (length es <= turns)%nat ->
  exists w',
    TransactionQueue.reshuffleWith (TransactionQueue.process fuel) turns w
    = (Normal true, w') /\
    conflictedQueue (transactionQueue w') = [] /\
    queue (transactionQueue w')
    ≡ₚ queue (transactionQueue w) ++ (transaction <$> es) /\
    (forall e, e ∈ es -> statusOf w' !! oid (transaction e) = Some QUEUED) /\
    (forall o, statusOf w !! o = Some QUEUED -> statusOf w' !! o = Some QUEUED) /\
    transactionPool w' = transactionPool w /\
    queueLocked (transactionQueue w') = queueLocked (transactionQueue w) /\
    ledger w' = ledger w.
Proof.
  induction es as [|e es IH] using rev_ind; intros turns w Hcq Hq Hlen.
  - exists w. destruct turns; simpl; unfold bind, getWorld; rewrite Hcq; simpl;
      rewrite app_nil_r; repeat split; auto; intros e He; inversion He.
  - rewrite length_app in Hlen. simpl in Hlen.
    destruct turns as [|turns]; [lia|]. simpl.
    unfold bind at 1. unfold getWorld. cbv beta iota.
    rewrite Hcq, last_snoc.
    unfold bind at 1. unfold modifyQueue at 1. cbv beta iota.
    unfold bind at 1.
    rewrite pushWith_quiet by (simpl; exact Hq).
    cbv beta iota. simpl transactionPool. simpl ledger. simpl clock.
    simpl statusOf. simpl bus. simpl sessions. simpl transactionQueue.
    simpl queue. simpl queueLocked. simpl conflictedQueue.
    rewrite Hcq, removelast_last.
    match goal with
    | |- exists w', TransactionQueue.reshuffleWith _ _ ?w1 = _ /\ _ =>
        destruct (IH turns w1)
          as (w' & Hrun & Hcq' & Hperm & Hst & Hkeep & Hp & Hlk & Hl)
    end.
    + reflexivity.
    + simpl. destruct (queue (transactionQueue w)) as [|x q] eqn:Hqw.
      * left. discriminate.
      * left. intros Hnil.
        apply (f_equal length) in Hnil.
        rewrite (Permutation_length (sort_perm _ _)) in Hnil.
        rewrite length_app in Hnil. simpl in Hnil. lia.
    + lia.
    + exists w'. split; [exact Hrun|]. split; [exact Hcq'|].
      simpl in Hperm, Hkeep, Hp, Hlk, Hl. split; [|split; [|split; [|auto]]].
      * rewrite Hperm, fmap_app. simpl.
        destruct (queue (transactionQueue w)) as [|x q].
        -- simpl. rewrite Permutation_app_comm. reflexivity.
        -- rewrite sort_perm. rewrite <- !app_assoc.
           apply Permutation_app_head, Permutation_app_comm.
      * intros e' He'. apply elem_of_app in He' as [He'|He'].
        -- apply Hst, He'.
        -- apply list_elem_of_singleton in He'. subst e'.
           apply Hkeep, lookup_insert_eq.
      * intros o Ho. apply Hkeep. rewrite lookup_insert.
        destruct (decide (oid (transaction e) = o)); [reflexivity|exact Ho].
Qed.

(** X17.  [reshuffle] on a queue that is not empty, or is locked: after as
    many turns of its loop as the conflicted queue has entries, the loop
    ends; the conflicted queue is empty, its transactions have joined
    the queue and are [QUEUED]; the pool is as it was. *)
Theorem reshuffle_drains_conflicted_queue (fuel : nat) (w : World L) :
  queue (transactionQueue w) <> [] \/ queueLocked (transactionQueue w) = true ->
  let entries := conflictedQueue (transactionQueue w) in
  forall turns, (length entries <= turns)%nat ->
  exists w',
    TransactionQueue.reshuffle fuel turns w = (Normal true, w') /\
    conflictedQueue (transactionQueue w') = [] /\
    queue (transactionQueue w')
    ≡ₚ queue (transactionQueue w) ++ (transaction <$> entries) /\
    (forall e, e ∈ entries ->
               statusOf w' !! oid (transaction e) = Some QUEUED) /\
    transactionPool w' = transactionPool w.
Proof.
  intros Hq entries turns Hlen.
  destruct (reshuffleWith_drains fuel entries turns w eq_refl Hq Hlen)
    as (w' & Hrun & Hcq & Hperm & Hst & _ & Hp & _).
  exists w'. auto.
Qed.

Lemma bind_assoc_run {A B C} (m : Run L A) (n : Run L B) (k : B -> Run L C) w :
  bind m (fun _ => bind n k) w = bind (bind m (fun _ => n)) k w.
Proof. unfold bind. destruct (m w) as [[a|e] w1]; reflexivity. Qed.

Lemma reshuffleWith_turn (process : Run L unit) turns w es e :
  conflictedQueue (transactionQueue w) = es ++ [e] ->
  TransactionQueue.reshuffleWith process (S turns) w
  = bind (modifyQueue (fun q =>
            TransactionQueue.setConflictedQueue
              (removelast (conflictedQueue q)) q) ;;
          TransactionQueue.pushWith process (transaction e))
         (fun _ => TransactionQueue.reshuffleWith process turns) w.
Proof.
  intros Hcq. rewrite <- bind_assoc_run. cbn [TransactionQueue.reshuffleWith].
  unfold bind at 1. unfold getWorld. cbv beta iota.
  rewrite Hcq, last_snoc. reflexivity.
Qed.

(** One turn of the loop of [reshuffle] on an empty, unlocked queue whose
    last conflicted transaction is still in conflict: [push] calls
    [process], which puts the transaction back. *)
Lemma reshuffle_turn fuel trs l c st b ss p es :
  TransactionPool.has trs p = false ->
  TransactionPool.isPotentialConflict trs p = true ->
  (modifyQueue (fun q =>
     TransactionQueue.setConflictedQueue (removelast (conflictedQueue q)) q) ;;
   TransactionQueue.pushWith (TransactionQueue.process (S fuel)) trs)
    (mkWorld l c st b ss p (mkQueue [] es false))
  = (Normal tt,
     mkWorld l c
       (<[oid trs := QUEUED_AS_CONFLICTED]> (<[oid trs := QUEUED]> st))
       b ss p
       (mkQueue [] (removelast es ++ [conflictedEntry trs c]) false)).
Proof.
  intros Hhas Hconflict.
  unfold bind at 1. unfold modifyQueue at 1. cbv beta iota.
  unfold TransactionQueue.pushWith, bind, setStatus, modifyQueue, getWorld,
    detached, tryCatch. simpl.
  unfold TransactionQueue.processWith, bind, getWorld, TransactionQueue.pop,
    modifyQueue, ret. simpl. rewrite Hhas, Hconflict.
  unfold TransactionQueue.pushInConflictedQueue, bind, getWorld, modifyQueue,
    setStatus, detached, tryCatch. simpl.
  rewrite process_idle by (left; reflexivity). reflexivity.
Qed.

(** X18.  [reshuffle] on an empty, unlocked queue, when the last entry of
    the conflicted queue holds a transaction that is not in the pool and
    is still in conflict with it: the loop does not end.  After any
    number of turns, the transaction is the last entry of the conflicted
    queue again, the queue is empty and the pool is as it was. *)
Theorem reshuffle_never_ends_on_a_conflict (fuel turns : nat) (w : World L)
    (es : list ConflictedEntry) (e : ConflictedEntry) :
  queue (transactionQueue w) = [] ->
  queueLocked (transactionQueue w) = false ->
  conflictedQueue (transactionQueue w) = es ++ [e] ->
  TransactionPool.has (transaction e) (transactionPool w) = false ->
  TransactionPool.isPotentialConflict (transaction e) (transactionPool w) = true ->
  exists w' e',
    TransactionQueue.reshuffle (S fuel) turns w = (Normal false, w') /\
    conflictedQueue (transactionQueue w') = es ++ [e'] /\
    transaction e' = transaction e /\
    queue (transactionQueue w') = [] /\
    transactionPool w' = transactionPool w.
Proof.
  unfold TransactionQueue.reshuffle. revert w e.
  induction turns as [|turns IH]; intros w e Hq Hlk Hcq Hhas Hconflict.
  - exists w, e. simpl. unfold bind, getWorld. rewrite Hcq, last_snoc.
    auto.
  - rewrite (reshuffleWith_turn _ _ _ es e) by exact Hcq.
    destruct w as [l c st b ss p [q cq lk]].
    cbn [transactionQueue transactionPool queue conflictedQueue queueLocked]
      in *.
    subst q lk cq. unfold bind at 1.
    rewrite reshuffle_turn by assumption. rewrite removelast_last.
    match goal with
    | |- exists w' e', TransactionQueue.reshuffleWith _ _ ?w1 = _ /\ _ =>
        destruct (IH w1 (conflictedEntry (transaction e) c))
          as (w' & e' & Hrun & Hcq & He & Hq & Hp); try reflexivity;
          try assumption
    end.
    exists w', e'. auto.
Qed.
End ReshuffleProperties.

Section LockProperties.
Context {L : Type} {utils : TransactionUtils} {constants : Constants}
        {logic : TransactionLogic L}.
Import PoolSpec.
Implicit Types (w : World L) (p : PoolState) (t u trs : Transaction).

(** X15.  [lockTransactionPoolAndQueue] sets both locks and touches
    nothing else.  While they are set, [triggerTransactionQueue] does
    nothing, a [push] into the pool that is not forced is refused, and a
    transaction put in the queue stays there: nothing moves from the
    queue to the pool.  [unlockTransactionPoolAndQueue] clears both
    locks. *)
Theorem lockTransactionPoolAndQueue_stops_admission (fuel : nat) (w : World L) :
  let w' := snd (Transactions.lockTransactionPoolAndQueue w) in
  fst (Transactions.lockTransactionPoolAndQueue w) = Normal tt /\
  Transactions.getLockStatus w' = (true, true) /\
  pool (transactionPool w') = pool (transactionPool w) /\
  queue (transactionQueue w') = queue (transactionQueue w) /\
  conflictedQueue (transactionQueue w') = conflictedQueue (transactionQueue w) /\
  Transactions.triggerTransactionQueue fuel w' = (Normal tt, w') /\
  (forall trs broadcast,
     TransactionPool.push trs broadcast false w' = (Normal false, w')) /\
  (forall trs, exists w'',
     Transactions.putInQueue fuel trs w' = (Normal tt, w'') /\
     queue (transactionQueue w'') ≡ₚ trs :: queue (transactionQueue w) /\
     transactionPool w'' = transactionPool w' /\
     conflictedQueue (transactionQueue w'')
     = conflictedQueue (transactionQueue w)) /\
  Transactions.getLockStatus
    (snd (Transactions.unlockTransactionPoolAndQueue w')) = (false, false).
Proof.
  intros w'. split; [reflexivity|]. split; [reflexivity|].
  split; [reflexivity|]. split; [reflexivity|]. split; [reflexivity|].
  split; [|split; [|split; [|reflexivity]]].
  - unfold Transactions.triggerTransactionQueue, detached, tryCatch.
    rewrite process_idle by (right; reflexivity). reflexivity.
  - intros trs broadcast. rewrite push_run. reflexivity.
  - intros trs. eexists. unfold Transactions.putInQueue, TransactionQueue.push.
    rewrite pushWith_quiet by (right; reflexivity).
    split; [reflexivity|]. simpl.
    split; [|split; reflexivity].
    destruct (queue (transactionQueue w)) as [|x q]; [reflexivity|].
    rewrite sort_perm, Permutation_app_comm. reflexivity.
Qed.
End LockProperties.

Section ProcessProperties.
Context {L : Type} {utils : TransactionUtils} {constants : Constants}
        {logic : TransactionLogic L}.
Import PoolSpec.
Implicit Types (w : World L) (p : PoolState) (t u trs : Transaction).

(** X19.  [process] on an unlocked queue whose head carries an id that is
    in the pool: the head is taken off the queue and dropped, it joins
    neither the pool nor the conflicted queue and keeps its status; the
    call ends there, without going on to the rest of the queue. *)
Theorem process_drops_pooled_head (fuel : nat) (trs : Transaction)
    (rest : list Transaction) (w : World L) :
  queue (transactionQueue w) = trs :: rest ->
  queueLocked (transactionQueue w) = false ->
  TransactionPool.has trs (transactionPool w) = true ->
  TransactionQueue.process (S fuel) w
  = (Normal tt,
     mkWorld (ledger w) (clock w) (statusOf w) (bus w) (sessions w)
             (transactionPool w)
             (mkQueue rest (conflictedQueue (transactionQueue w)) false)).
Proof.
  intros Hq Hlk Hhas. destruct w as [l c st b ss p [q cq lk]].
  cbn [transactionQueue transactionPool queue conflictedQueue queueLocked
       ledger clock statusOf bus sessions] in *.
  subst q lk. cbn [TransactionQueue.process].
  unfold TransactionQueue.processWith, bind, getWorld, TransactionQueue.pop,
    modifyQueue, ret. simpl. rewrite Hhas. reflexivity.
Qed.

(** The ways a call of [transactionPool.push] gets to its [await] or
    ends before it. *)
Lemma poolPush_run trs (broadcast force : bool) w :
  Activation.poolPush trs broadcast force w =
  let p := transactionPool w in
  if locked p && negb force then (Normal (Activation.AtPush trs false), w)
  else if TransactionPool.has trs p
  then (Normal (Activation.AtPush trs false), w)
  else if TransactionPool.isPotentialConflict trs p then
    (Normal (Activation.AtPush trs false),
     mkWorld (ledger w) (clock w) (statusOf w) (bus w) (sessions w)
             (TransactionPool.setPool (Js.delete (id trs) (pool p)) p)
             (transactionQueue w))
  else
    (Normal (Activation.AtNewApplyUnconfirmed trs broadcast
               (fst (newApplyUnconfirmed trs (ledger w)))),
     mkWorld (snd (newApplyUnconfirmed trs (ledger w))) (clock w)
             (<[oid trs := PUT_IN_POOL]> (statusOf w)) (bus w) (sessions w)
             (inserted trs p) (transactionQueue w)).
Proof.
  unfold Activation.poolPush, bind, getWorld. cbv zeta.
  destruct (locked (transactionPool w) && negb force); [reflexivity|].
  destruct (TransactionPool.has trs (transactionPool w)); [reflexivity|].
  destruct (TransactionPool.isPotentialConflict trs (transactionPool w));
    [reflexivity|].
  unfold inserted, Activation.called, modifyPool, setStatus, ret. simpl.
  destruct (decide (type trs = SEND)); simpl;
    destruct (newApplyUnconfirmed trs (ledger w)); reflexivity.
Qed.

(** A call that does not throw is not changed by [spawn]. *)
Lemma spawn_returns (m : Run L (list Activation.Suspended)) w waiting w' :
  m w = (Normal waiting, w') -> Activation.spawn m w = (Normal waiting, w').
Proof. intros Hm. unfold Activation.spawn, tryCatch. rewrite Hm. reflexivity. Qed.

(** [spawn] never throws. *)
Lemma spawn_total (m : Run L (list Activation.Suspended)) w :
  exists waiting w', Activation.spawn m w = (Normal waiting, w').
Proof.
  unfold Activation.spawn, tryCatch.
  destruct (m w) as [[waiting|e] w']; eauto.
Qed.

(** One stretch of the only call that waits. *)
Lemma happenAll_resume n s w started w' :
  Activation.resume s w = (Normal started, w') ->
  Activation.happenAll (replicate (S n) (Activation.Resume 0)) [s] w
  = Activation.happenAll (replicate n (Activation.Resume 0)) started w'.
Proof.
  intros Hs. cbn [replicate Activation.happenAll].
  unfold bind at 1. unfold Activation.happen. cbn [lookup list_lookup].
  unfold bind at 1. rewrite (spawn_returns _ _ _ _ Hs). reflexivity.
Qed.

(** X20.  A call of [process] run alone, on an unlocked queue whose head is
    not in the pool, is in no conflict, is verified and is applied by an
    unlocked pool.  Its six stretches after the call (after
    [getOrCreateAccount], the two checks of [verify], [verify],
    [newApplyUnconfirmed] and [transactionPool.push]), with nothing else
    running between them, take the head off the queue and into the pool
    with the status UNCOFIRM_APPLIED, tell the session of the sender that
    it is verified, put [transactionPutInPool] on the bus and end with a
    new call of [process] on the rest of the queue. *)
Theorem process_pools_verified_head (trs : Transaction)
    (rest : list Transaction) (w : World L) (sender : Account) (l1 l2 l3 l4 : L) :
  queue (transactionQueue w) = trs :: rest ->
  queueLocked (transactionQueue w) = false ->
  locked (transactionPool w) = false ->
  TransactionPool.has trs (transactionPool w) = false ->
  TransactionPool.isPotentialConflict trs (transactionPool w) = false ->
  getOrCreateAccount (senderPublicKey trs) (ledger w) = (Normal sender, l1) ->
  newVerify trs sender l1 = (Normal tt, l2) ->
  newVerifyUnconfirmed trs sender l2 = (Normal tt, l3) ->
  newApplyUnconfirmed trs l3 = (Normal tt, l4) ->
  Activation.process w
  = (Normal [Activation.AtGetOrCreateAccount trs (Normal sender)],
     mkWorld l1 (clock w) (statusOf w) (bus w) (sessions w) (transactionPool w)
             (mkQueue rest (conflictedQueue (transactionQueue w)) false)) /\
  Activation.alone 6 Activation.process w
  = Activation.spawn Activation.process
      (mkWorld l4 (clock w)
         (<[oid trs := UNCOFIRM_APPLIED]>
            (<[oid trs := PUT_IN_POOL]>
               (<[oid trs := VERIFIED]> (statusOf w))))
         (bus w ++ [("transactionPutInPool"%string, trs)])
         (sessions w ++ [mkSession (address sender) true None])
         (inserted trs (transactionPool w))
         (mkQueue rest (conflictedQueue (transactionQueue w)) false)).
Proof.
  intros Hq Hlk Hpl Hhas Hconflict Hacc Hv Hvu Happ.
  assert (Activation.process w
          = (Normal [Activation.AtGetOrCreateAccount trs (Normal sender)],
             mkWorld l1 (clock w) (statusOf w) (bus w) (sessions w)
                     (transactionPool w)
                     (mkQueue rest (conflictedQueue (transactionQueue w)) false)))
    as Hcall.
  { rewrite process_unfold. destruct w as [l c st b ss p [q cq lk]].
    cbn [transactionQueue transactionPool queue conflictedQueue queueLocked
         ledger clock statusOf bus sessions] in *.
    subst q lk.
    unfold Activation.processWith, bind, getWorld, TransactionQueue.pop,
      modifyQueue, ret.
    cbn -[TransactionPool.has TransactionPool.isPotentialConflict
          Activation.process].
    rewrite Hhas, Hconflict. unfold Activation.called.
    cbn [ledger clock statusOf bus sessions transactionPool transactionQueue].
    rewrite Hacc. reflexivity. }
  split; [exact Hcall|].
  unfold Activation.alone. unfold bind at 1. rewrite Hcall.
  destruct w as [l c st b ss p [q cq lk]].
  cbn [transactionQueue transactionPool queue conflictedQueue queueLocked
       ledger clock statusOf bus sessions] in *.
  subst q lk.
  erewrite happenAll_resume;
    [|cbn [Activation.resume]; unfold bind, Activation.called, ret;
      cbn [ledger clock statusOf bus sessions transactionPool transactionQueue];
      rewrite Hv; reflexivity].
  erewrite happenAll_resume;
    [|cbn [Activation.resume]; unfold bind, Activation.called, ret;
      cbn [ledger clock statusOf bus sessions transactionPool transactionQueue];
      rewrite Hvu; reflexivity].
  erewrite happenAll_resume; [|reflexivity].
  erewrite happenAll_resume;
    [|cbn [Activation.resume fst negb]; unfold bind at 1;
      unfold setStatus at 1; unfold bind at 1; unfold getWorld at 1;
      cbn [transactionQueue queueLocked negb]; unfold bind at 1;
      rewrite poolPush_run;
      cbn [ledger clock statusOf bus sessions transactionPool transactionQueue];
      rewrite Hpl, Hhas, Hconflict, Happ; reflexivity].
  erewrite happenAll_resume; [|reflexivity].
  cbn [replicate Activation.happenAll].
  unfold bind at 1. unfold Activation.happen. cbn [lookup list_lookup].
  unfold bind at 1. cbn [Activation.resume].
  cbn [ledger clock statusOf bus sessions transactionPool transactionQueue snd].
  match goal with
  | |- context [Activation.spawn Activation.process ?w0] =>
      destruct (spawn_total Activation.process w0) as (waiting & w' & Hs)
  end.
  rewrite (spawn_returns _ _ _ _ Hs), Hs. reflexivity.
Qed.

(** X21.  [process] on an unlocked queue whose head is not in the pool and
    is in no conflict, but is not verified: the head leaves the queue
    with the status DECLINED, the pool is not asked to take it, and
    [process] goes on with the rest of the queue. *)
Theorem process_declines_unverified_head (fuel : nat) (trs : Transaction)
    (rest : list Transaction) (w w' : World L) (sender : Account) (l1 : L)
    (errors : list JsError) :
  queue (transactionQueue w) = trs :: rest ->
  queueLocked (transactionQueue w) = false ->
  TransactionPool.has trs (transactionPool w) = false ->
  TransactionPool.isPotentialConflict trs (transactionPool w) = false ->
  getOrCreateAccount (senderPublicKey trs) (ledger w) = (Normal sender, l1) ->
  TransactionQueue.verify trs sender
    (mkWorld l1 (clock w) (statusOf w) (bus w) (sessions w) (transactionPool w)
             (mkQueue rest (conflictedQueue (transactionQueue w)) false))
  = (Normal (false, errors), w') ->
  TransactionQueue.process (S fuel) w
  = detached (TransactionQueue.process fuel)
      (mkWorld (ledger w') (clock w') (<[oid trs := DECLINED]> (statusOf w'))
               (bus w') (sessions w') (transactionPool w')
               (transactionQueue w')).
Proof.
  intros Hq Hlk Hhas Hconflict Hacc Hv.
  destruct w as [l c st b ss p [q cq lk]].
  cbn [transactionQueue transactionPool queue conflictedQueue queueLocked
       ledger clock statusOf bus sessions] in *.
  subst q lk. cbn [TransactionQueue.process].
  unfold TransactionQueue.processWith, bind, getWorld, TransactionQueue.pop,
    modifyQueue, ret. simpl. rewrite Hhas, Hconflict.
  unfold TransactionQueue.processChecked. unfold bind at 1. unfold await.
  simpl. rewrite Hacc. unfold bind at 1.
  unfold TransactionQueue.setQueue. simpl. rewrite Hv. simpl.
  reflexivity.
Qed.
End ProcessProperties.

Section VerifyQueueProperties.
Context {L : Type} {utils : TransactionUtils} {constants : Constants}
        {logic : TransactionLogic L}.
Implicit Types (w : World L) (trs : Transaction).

End VerifyQueueProperties.

(** ** The ticks of [Sequence] *)

Section TickProperties.
Import Sequence SequenceSpec.

Lemma ticks_sequence n : forall s,
  fst (ticks n s) = invocation <$> take n (sequence s) /\
  sequence (snd (ticks n s)) = drop n (sequence s) /\
  newSequence (snd (ticks n s)) = newSequence s.
Proof.
  induction n as [|n IH]; intros s; simpl.
  - auto.
  - unfold __tick. destruct (sequence s) as [|task rest] eqn:Hs.
    + destruct (IH s) as (H1 & H2 & H3). destruct (ticks n s) as [invs s'].
      simpl in *. rewrite Hs in H1, H2. rewrite take_nil in H1.
      rewrite drop_nil in H2. auto.
    + destruct (IH (mkSequence rest (newSequence s))) as (H1 & H2 & H3).
      destruct (ticks n _) as [invs s']. simpl in *. rewrite H1. auto.
Qed.

Lemma truthy_function v : truthy v && isFunction v = isFunction v.
Proof. destruct v; simpl; try reflexivity; apply andb_false_r. Qed.

Lemma add_sequence worker args done s :
  exists tasks,
    sequence (add worker args done s) = sequence s ++ tasks /\
    invocation <$> tasks
    = from_option (fun i => [i]) [] (invocationOf (worker, args, done)) /\
    newSequence (add worker args done s) = newSequence s.
Proof.
  unfold add, invocationOf. rewrite truthy_function.
  rewrite <- (andb_assoc (negb (truthy done))), truthy_function.
  destruct (isFunction worker).
  - destruct (negb (truthy done) && isFunction args) eqn:Hswap.
    + eexists [_]. split; [reflexivity|]. split; [|reflexivity].
      apply andb_true_iff in Hswap as [_ Hf].
      destruct args; try discriminate. reflexivity.
    + eexists [_]. split; [reflexivity|]. split; [|reflexivity].
      destruct args; reflexivity.
  - exists []. rewrite app_nil_r. destruct (_ && _); auto.
Qed.

Lemma addAll_sequence calls : forall s,
  exists tasks,
    sequence (addAll calls s) = sequence s ++ tasks /\
    invocation <$> tasks = omap invocationOf calls /\
    newSequence (addAll calls s) = newSequence s.
Proof.
  induction calls as [|[[worker args] done] calls IH]; intros s.
  - exists []. rewrite app_nil_r. auto.
  - destruct (add_sequence worker args done s) as (t1 & Hs1 & Hi1 & Hn1).
    destruct (IH (add worker args done s)) as (t2 & Hs2 & Hi2 & Hn2).
    exists (t1 ++ t2). unfold addAll in *. cbn [foldl].
    rewrite Hs2, Hs1, <- app_assoc. split; [reflexivity|].
    split; [|congruence].
    rewrite fmap_app, Hi1, Hi2. cbn [omap list_omap].
    destruct (invocationOf (worker, args, done)); reflexivity.
Qed.

(** X23.  The sequence is first in, first out.  After any calls of [add],
    as many ticks as tasks are pending invoke first what the earlier
    pending tasks would have been invoked with, then one worker for each
    call whose worker is a function, in the order of the calls, with the
    elements of the array [args] after the callback and with the [done]
    of the call (the second argument when it is a function and no third
    is given); calls whose worker is no function are dropped.  Nothing is
    pending afterwards, and a further tick invokes nothing.  With
    settings that hold no [onWarning], as the default ones,
    [nextSequenceTick] is [__tick] and calls no warning. *)
Theorem sequence_runs_tasks_in_order
    (calls : list (JsValue * JsValue * JsValue)) (s : state) :
  let s' := addAll calls s in
  let run := ticks (count s') s' in
  fst run = fst (ticks (count s) s) ++ omap invocationOf calls /\
  count s' = (count s + length (omap invocationOf calls))%nat /\
  count (snd run) = 0%nat /\
  __tick (snd run) = (None, snd run) /\
  (forall config,
     truthy (onWarning config) = false ->
     nextSequenceTick config s = Normal (None, fst (__tick s), snd (__tick s))) /\
  onWarning _default = Null.
Proof.
  intros s' run. unfold run, s', count.
  destruct (addAll_sequence calls s) as (tasks & Hs & Hi & _).
  destruct (ticks_sequence (length (sequence (addAll calls s))) (addAll calls s))
    as (H1 & H2 & _).
  destruct (ticks_sequence (length (sequence s)) s) as (H3 & _).
  split; [|split; [|split; [|split; [|split]]]].
  - rewrite H1, H3, !firstn_all, Hs, fmap_app, Hi. reflexivity.
  - rewrite Hs, length_app, <- Hi, length_fmap. reflexivity.
  - rewrite H2, drop_all. reflexivity.
  - unfold __tick. rewrite H2, drop_all. reflexivity.
  - intros config Hoff. unfold nextSequenceTick. rewrite Hoff. reflexivity.
  - reflexivity.
Qed.
End TickProperties.

(** ** The blocks the verifier accepts *)

Section AcceptProperties.
Context {constants : Constants} {blockLogic : BlockLogic}.
Import Verify VerifySpec AcceptSpec.

Lemma pushError_not_nil e r : errors (pushError e r) <> [].
Proof. rewrite pushError_errors. destruct (errors r); discriminate. Qed.

Lemma errors_when_nil (b : bool) e r :
  errors (if b then pushError e r else r) = [] <-> errors r = [] /\ b = false.
Proof.
  destruct b.
  - split; [intros Hn; destruct (pushError_not_nil _ _ Hn)|].
    intros [_ Hf]. discriminate.
  - tauto.
Qed.

Lemma when_nil (b : bool) (e : VerifyError) : when b e = [] <-> b = false.
Proof. destruct b; simpl; split; congruence. Qed.

Lemma verifyPayload_nil block r :
  errors (verifyPayload block r) = [] <->
  errors r = [] /\ payloadAccepted block.
Proof.
  pose proof (verifyPayload_structure block r) as He. cbv zeta in He.
  rewrite He. unfold payloadAccepted. cbv zeta.
  rewrite !app_nil, !when_nil, loopErrors_nil.
  rewrite !andb_false_iff, !negb_false_iff, !Z.ltb_ge, !Z.eqb_eq.
  assert (String.eqb (sha256_hex (payloadBytes (Block.transactions block)))
                     (Block.payloadHash block) = true
          <-> sha256_hex (payloadBytes (Block.transactions block))
              = Block.payloadHash block) as -> by apply String.eqb_eq.
  split.
  - intros (Hr & H1 & H2 & H3 & (Hb & Hfresh) & H4 & H5 & H6).
    split; [exact Hr|]. split; [exact H1|]. split; [exact H3|].
    split; [exact Hb|]. split; [exact Hfresh|]. intros Hm.
    repeat split.
    + destruct H2 as [?|?]; [assumption|lia].
    + destruct H4 as [?|?]; [assumption|lia].
    + destruct H5 as [?|?]; [assumption|lia].
    + destruct H6 as [?|?]; [assumption|lia].
  - intros (Hr & H1 & H3 & Hb & Hfresh & Hm).
    assert ((MASTER_NODE_MIGRATED_BLOCK < Block.height block)%Z \/
            (Block.height block <= MASTER_NODE_MIGRATED_BLOCK)%Z) as [Hlt|Hge]
      by lia.
    + destruct (Hm Hlt) as (? & ? & ? & ?). repeat split; auto.
    + repeat split; auto; lia.
Qed.

Lemma verifySignature_nil block r :
  errors (verifySignature block r) = [] <->
  errors r = [] /\
  (logic_block_verifySignature block = Normal true \/
   (logic_block_verifySignature block = Normal false /\
    (Block.height block <= MASTER_NODE_MIGRATED_BLOCK)%Z)).
Proof.
  unfold verifySignature.
  destruct (logic_block_verifySignature block) as [[|]|e];
    rewrite errors_when_nil; cbn [negb andb].
  - intuition congruence.
  - rewrite Z.ltb_ge. intuition congruence.
  - split.
    + intros [Hn _]. destruct (pushError_not_nil _ _ Hn).
    + intros [_ [?|[? _]]]; discriminate.
Qed.

Lemma verifyPreviousBlock_nil block r :
  errors (verifyPreviousBlock block r) = [] <->
  errors r = [] /\
  (falsy (Block.previousBlock block) = false \/ Block.height block = 1%Z).
Proof.
  unfold verifyPreviousBlock.
  rewrite errors_when_nil, andb_false_iff, negb_false_iff, Z.eqb_eq.
  reflexivity.
Qed.

Lemma verifyVersion_nil block r :
  errors (verifyVersion block r) = [] <->
  errors r = [] /\
  blockVersion_isValid (Block.version block) (Block.height block) = true.
Proof.
  unfold verifyVersion. rewrite errors_when_nil, negb_false_iff. reflexivity.
Qed.

Lemma verifyId_nil block r :
  errors (snd (verifyId block r)) = [] <->
  errors r = [] /\ exists i, logic_block_getId block = Normal i.
Proof.
  unfold verifyId. destruct (logic_block_getId block) as [i|e]; simpl.
  - split; [eauto|tauto].
  - split.
    + intros Hn. apply app_eq_nil in Hn as [_ Hn]. discriminate.
    + intros [_ [i Hi]]. discriminate.
Qed.

(** [verifyId] changes nothing of the block but its id. *)
Lemma verifyId_block block r :
  fst (verifyId block r) = block \/
  exists i, fst (verifyId block r) = Block.setId (Some i) block.
Proof.
  unfold verifyId. destruct (logic_block_getId block); simpl; eauto.
Qed.

Lemma verifyForkOne_nil block lastBlock forks r :
  errors (snd (verifyForkOne block lastBlock forks r)) = [] <->
  errors r = [] /\
  (falsy (Block.previousBlock block) = true \/
   Block.previousBlock block = Block.id lastBlock).
Proof.
  unfold verifyForkOne.
  destruct (falsy (Block.previousBlock block)); cbn [negb andb snd].
  - intuition.
  - destruct (bool_decide_reflect (Block.previousBlock block = Block.id lastBlock));
      cbn [negb snd].
    + intuition.
    + split.
      * intros Hn. destruct (pushError_not_nil _ _ Hn).
      * intros [_ [?|?]]; [discriminate|contradiction].
Qed.

Lemma verifyBlockSlot_nil block lastBlock r :
  errors (verifyBlockSlot block lastBlock r) = [] <->
  errors r = [] /\
  (slots_getSlotNumber (Block.timestamp block) <= slots_currentSlotNumber)%Z /\
  (slots_getSlotNumber (Block.timestamp lastBlock)
   < slots_getSlotNumber (Block.timestamp block))%Z.
Proof.
  unfold verifyBlockSlot. cbv zeta.
  rewrite errors_when_nil, orb_false_iff, Z.ltb_ge, Z.leb_gt. reflexivity.
Qed.

Lemma verifyBlockSlotWindow_nil block r :
  errors (verifyBlockSlotWindow block r) = [] <->
  errors r = [] /\
  (0 <= slots_currentSlotNumber - slots_getSlotNumber (Block.timestamp block)
     <= blockSlotWindow)%Z.
Proof.
  unfold verifyBlockSlotWindow. cbv zeta.
  rewrite !errors_when_nil, !Z.ltb_ge. intuition lia.
Qed.

Lemma verifyAgainstLastNBlockIds_nil ids block r :
  errors (verifyAgainstLastNBlockIds ids block r) = [] <->
  errors r = [] /\ Block.id block ∉ ids.
Proof.
  unfold verifyAgainstLastNBlockIds.
  rewrite errors_when_nil, bool_decide_eq_false. reflexivity.
Qed.

Lemma payloadAccepted_setId i block :
  payloadAccepted (Block.setId i block) <-> payloadAccepted block.
Proof. reflexivity. Qed.

(** X24.  [verifyBlock] verifies exactly the blocks that, at the height
    after the last block, pass the signature, previous-block, version,
    id, payload, fork and slot checks; the declared height plays no
    part. *)
Theorem verifyBlock_verifies_iff (lastBlock block : Block.t) :
  verified (snd (verifyBlock lastBlock block)) = true
  <-> blockAccepted lastBlock block.
Proof.
  unfold verifyBlock, blockAccepted, commonAccepted. cbv zeta.
  set (block0 := setHeight block lastBlock).
  destruct (verifyId block0
              (verifyVersion block0
                 (verifyPreviousBlock block0
                    (verifySignature block0 (mkResult false [])))))
    as [block1 r1] eqn:Hid.
  destruct (verifyForkOne block1 lastBlock [] (verifyPayload block1 r1))
    as [forks r2] eqn:Hfork.
  cbn [snd]. rewrite conclude_verified, verifyBlockSlot_nil.
  replace r2 with (snd (verifyForkOne block1 lastBlock []
                          (verifyPayload block1 r1)))
    by (rewrite Hfork; reflexivity).
  rewrite verifyForkOne_nil, verifyPayload_nil.
  replace r1 with (snd (verifyId block0
              (verifyVersion block0
                 (verifyPreviousBlock block0
                    (verifySignature block0 (mkResult false []))))))
    by (rewrite Hid; reflexivity).
  rewrite verifyId_nil, verifyVersion_nil, verifyPreviousBlock_nil,
    verifySignature_nil. cbn [errors].
  assert (Block.previousBlock block1 = Block.previousBlock block0 /\
          Block.timestamp block1 = Block.timestamp block0 /\
          (payloadAccepted block1 <-> payloadAccepted block0))
    as (-> & -> & ->).
  { destruct (verifyId_block block0
                (verifyVersion block0
                   (verifyPreviousBlock block0
                      (verifySignature block0 (mkResult false [])))))
      as [Heq|[i Heq]]; rewrite Hid in Heq; simpl in Heq; subst block1;
      auto. }
  tauto.
Qed.

(** X25.  [verifyReceipt] verifies exactly the blocks that, at the height
    after the last block, pass the signature, previous-block, version,
    id and payload checks, whose declared id is not among the last block
    ids and whose slot is at most [blockSlotWindow] slots old and not in
    the future. *)
Theorem verifyReceipt_verifies_iff (lastBlock : Block.t)
    (lastNBlockIds : list (option string)) (block : Block.t) :
  verified (snd (verifyReceipt lastBlock lastNBlockIds block)) = true
  <-> receiptAccepted lastBlock lastNBlockIds block.
Proof.
  unfold verifyReceipt, receiptAccepted, commonAccepted. cbv zeta.
  set (block0 := setHeight block lastBlock).
  destruct (verifyId block0
              (verifyVersion block0
                 (verifyBlockSlotWindow block0
                    (verifyAgainstLastNBlockIds lastNBlockIds block0
                       (verifyPreviousBlock block0
                          (verifySignature block0 (mkResult false [])))))))
    as [block1 r1] eqn:Hid.
  cbn [snd]. rewrite conclude_verified, verifyPayload_nil.
  replace r1 with (snd (verifyId block0
              (verifyVersion block0
                 (verifyBlockSlotWindow block0
                    (verifyAgainstLastNBlockIds lastNBlockIds block0
                       (verifyPreviousBlock block0
                          (verifySignature block0 (mkResult false []))))))))
    by (rewrite Hid; reflexivity).
  rewrite verifyId_nil, verifyVersion_nil, verifyBlockSlotWindow_nil,
    verifyAgainstLastNBlockIds_nil, verifyPreviousBlock_nil,
    verifySignature_nil. cbn [errors].
  assert (payloadAccepted block1 <-> payloadAccepted block0) as ->.
  { destruct (verifyId_block block0
              (verifyVersion block0
                 (verifyBlockSlotWindow block0
                    (verifyAgainstLastNBlockIds lastNBlockIds block0
                       (verifyPreviousBlock block0
                          (verifySignature block0 (mkResult false [])))))))
      as [Heq|[i Heq]]; rewrite Hid in Heq; simpl in Heq; subst block1;
      reflexivity. }
  tauto.
Qed.
End AcceptProperties.

Section LoopProperties.
Context {constants : Constants} {blockLogic : BlockLogic}.
Import Verify VerifySpec.

Lemma verifyPayload_duplicates (block : Block.t) (result : Result) k :
  DuplicateTransaction k ∈ errors (verifyPayload block result) <->
  DuplicateTransaction k ∈ errors result \/
  exists l1 u l2, Block.transactions block = l1 ++ u :: l2 /\ id u = k /\
                  answers l1 k = true.
Proof.
  pose proof (verifyPayload_structure block result) as He. cbv zeta in He.
  rewrite He, !elem_of_app, !elem_of_when, loopErrors_duplicate.
  cbn [app]. split.
  - intros [Hx|[Hx|[Hx|[Hx|[Hx|[Hx|[Hx|Hx]]]]]]];
      try (destruct Hx as [_ Hx]; discriminate); auto.
  - intros [Hx|Hx]; auto 10.
Qed.

Lemma verifyPayload_thrown (block : Block.t) (result : Result) e :
  BytesThrown e ∈ errors (verifyPayload block result) <->
  BytesThrown e ∈ errors result \/
  exists t, t ∈ Block.transactions block /\
            logic_transaction_getBytes t = Throw e.
Proof.
  pose proof (verifyPayload_structure block result) as He. cbv zeta in He.
  rewrite He, !elem_of_app, !elem_of_when, loopErrors_thrown. split.
  - intros [Hx|[Hx|[Hx|[Hx|[Hx|[Hx|[Hx|Hx]]]]]]];
      try (destruct Hx as [_ Hx]; discriminate); auto.
  - intros [Hx|Hx]; auto 10.
Qed.

Lemma answers_spec l k :
  answers l k = true <->
  (k <> "__proto__"%string /\ k ∈ id <$> l) \/
  match protoOf l with
  | Some t => transaction_inherits t k = true
  | None => k ∈ Js.objectPrototype
  end.
Proof.
  unfold answers. rewrite orb_true_iff, bool_decide_eq_true.
  destruct (protoOf l); [reflexivity|].
  rewrite bool_decide_eq_true. reflexivity.
Qed.


Lemma protoOf_None l :
  "__proto__"%string ∉ id <$> l -> protoOf l = None.
Proof.
  intros Hn. destruct (protoOf l) as [p|] eqn:Hp; [|reflexivity].
  unfold protoOf in Hp.
  apply last_Some_elem_of, list_elem_of_filter in Hp as [Hid Hin].
  exfalso. apply Hn. rewrite <- Hid. apply list_elem_of_fmap. eauto.
Qed.

(** X26.  The errors of the loop of [verifyPayload], exactly.  It
    reports the id of a transaction of the block as duplicate when, and
    only when, [appliedTransactions] answers at that id once the loop has
    gone through the transactions before it: one of them has that id,
    which is not ["__proto__"], or the name is inherited, from the last
    of them whose id is ["__proto__"], or else from [Object.prototype].
    In a block without the id ["__proto__"] the ids reported are those
    that occur twice and those that name a member of [Object.prototype].
    It reports what [getBytes] throws for a transaction of the block, and
    nothing else of that kind. *)
Theorem verifyPayload_loop_errors_exact (block : Block.t) (result : Result) :
  let ts := Block.transactions block in
  let result' := verifyPayload block result in
  (forall k,
     DuplicateTransaction k ∈ errors result' <->
     DuplicateTransaction k ∈ errors result \/
     exists l1 u l2,
       ts = l1 ++ u :: l2 /\ id u = k /\
       ((k <> "__proto__"%string /\ k ∈ id <$> l1) \/
        match protoOf l1 with
        | Some t => transaction_inherits t k = true
        | None => k ∈ Js.objectPrototype
        end)) /\
  ("__proto__"%string ∉ id <$> ts ->
   forall k,
     DuplicateTransaction k ∈ errors result' <->
     DuplicateTransaction k ∈ errors result \/
     (k ∈ id <$> ts /\ k ∈ Js.objectPrototype) \/
     exists l1 u l2, ts = l1 ++ u :: l2 /\ id u = k /\ k ∈ id <$> l1) /\
  (forall e,
     BytesThrown e ∈ errors result' <->
     BytesThrown e ∈ errors result \/
     exists t, t ∈ ts /\ logic_transaction_getBytes t = Throw e).
Proof.
  intros ts result'. split; [|split].
  - intros k. unfold result'. rewrite verifyPayload_duplicates. fold ts.
    split; (intros [Hx|(l1 & u & l2 & Hl & Hu & Ha)]; [left; exact Hx|right]);
      exists l1, u, l2; (split; [exact Hl|]); (split; [exact Hu|]);
      apply answers_spec; exact Ha.
  - intros Hn k. unfold result'. rewrite verifyPayload_duplicates. fold ts.
    split.
    + intros [Hx|(l1 & u & l2 & Hl & Hu & Ha)]; [left; exact Hx|right].
      apply answers_spec in Ha. rewrite protoOf_None in Ha.
      * destruct Ha as [[_ Hin]|Hin].
        -- right. exists l1, u, l2. auto.
        -- left. split; [|exact Hin]. rewrite Hl, fmap_app, fmap_cons, <- Hu.
           apply elem_of_app. right. left.
      * intros Hin. apply Hn. rewrite Hl, fmap_app. apply elem_of_app. auto.
    + intros [Hx|[[Hin Hproto]|(l1 & u & l2 & Hl & Hu & Hin)]];
        [left; exact Hx|right..].
      * apply list_elem_of_fmap in Hin as (u & Hu & Hin).
        apply list_elem_of_split in Hin as (l1 & l2 & Hl).
        exists l1, u, l2. split; [exact Hl|]. split; [auto|].
        apply answers_spec. right. rewrite protoOf_None; [exact Hproto|].
        intros Hp. apply Hn. rewrite Hl, fmap_app. apply elem_of_app. auto.
      * exists l1, u, l2. split; [exact Hl|]. split; [exact Hu|].
        apply answers_seen; [|exact Hin].
        intros ->. apply Hn. rewrite Hl, fmap_app. apply elem_of_app. auto.
  - intros e. apply verifyPayload_thrown.
Qed.
End LoopProperties.

Section GenerationProperties.
Context {L : Type} {utils : TransactionUtils} {constants : Constants}
        {logic : TransactionLogic L} {blockLogic : BlockLogic}.
Import PoolSpec Verify VerifySpec.
Implicit Types (w : World L) (p : PoolState) (t u trs : Transaction).

End GenerationProperties.

Section ReportProperties.
Context {constants : Constants} {blockLogic : BlockLogic}.
Import Verify VerifySpec AcceptSpec.

Lemma head_conclude r e :
  head (errors (conclude (pushError e r))) = Some e /\
  verified (conclude (pushError e r)) = false.
Proof.
  unfold conclude. cbn [errors verified]. rewrite pushError_errors.
  rewrite reverse_app. split; [reflexivity|].
  rewrite length_app. simpl. apply Nat.eqb_neq. lia.
Qed.

Lemma conclude_unverified r :
  verified (conclude r) = false -> is_Some (head (errors (conclude r))).
Proof.
  unfold conclude. cbn [errors verified]. intros Hv.
  destruct (errors r) as [|e es] using rev_ind; [discriminate|].
  rewrite reverse_app. simpl. eauto.
Qed.

(** X27.  [__private.verifyBlock] hands the callback no error exactly when
    [verifyBlock] verifies the block; otherwise it hands over the error
    of the last check that failed, so that a failed slot check hides
    every other failure, and a fork hides all but that one. *)
Theorem private_verifyBlock_reports_last_failure (lastBlock block : Block.t) :
  let block0 := setHeight block lastBlock in
  let slot := slots_getSlotNumber (Block.timestamp block0) in
  let badSlot :=
    (slots_currentSlotNumber < slot)%Z \/
    (slot <= slots_getSlotNumber (Block.timestamp lastBlock))%Z in
  let fork :=
    falsy (Block.previousBlock block0) = false /\
    Block.previousBlock block0 <> Block.id lastBlock in
  (private_verifyBlock lastBlock block = None
   <-> verified (snd (verifyBlock lastBlock block)) = true) /\
  (badSlot ->
   private_verifyBlock lastBlock block = Some (message InvalidTimestamp)) /\
  (~ badSlot -> fork ->
   private_verifyBlock lastBlock block
   = Some (message (ForkOne (Block.previousBlock block0) (Block.id lastBlock)))).
Proof.
  intros block0 slot badSlot fork. split; [|split].
  - unfold private_verifyBlock.
    destruct (verified (snd (verifyBlock lastBlock block))) eqn:Hv; simpl.
    + tauto.
    + split; [|discriminate]. intros Hn. exfalso.
      unfold verifyBlock in Hv, Hn. cbv zeta in Hv, Hn.
      destruct (verifyId _ _) as [b1 r1] in Hv, Hn.
      destruct (verifyForkOne _ _ _ _) as [forks r2] in Hv, Hn.
      cbn [snd] in Hv, Hn. apply conclude_unverified in Hv as [e He].
      rewrite He in Hn. discriminate.
  - intros Hbad. unfold private_verifyBlock, verifyBlock. cbv zeta.
    fold block0.
    destruct (verifyId _ _) as [b1 r1] eqn:Hid.
    assert (Block.timestamp b1 = Block.timestamp block0) as Hts.
    { destruct (verifyId_block block0
        (verifyVersion block0 (verifyPreviousBlock block0
           (verifySignature block0 (mkResult false [])))))
        as [Heq|[i Heq]]; rewrite Hid in Heq; simpl in Heq; subst b1;
        reflexivity. }
    destruct (verifyForkOne _ _ _ _) as [forks r2]. cbn [snd].
    unfold verifyBlockSlot. cbv zeta. rewrite Hts. fold slot.
    replace ((slots_currentSlotNumber <? slot)%Z
             || (slot <=? slots_getSlotNumber (Block.timestamp lastBlock))%Z)
      with true.
    + destruct (head_conclude r2 InvalidTimestamp) as [-> ->]. reflexivity.
    + symmetry. apply orb_true_iff. rewrite Z.ltb_lt, Z.leb_le. exact Hbad.
  - intros Hok [Hprev Hne]. unfold private_verifyBlock, verifyBlock. cbv zeta.
    fold block0.
    destruct (verifyId _ _) as [b1 r1] eqn:Hid.
    assert (Block.timestamp b1 = Block.timestamp block0 /\
            Block.previousBlock b1 = Block.previousBlock block0) as [Hts Hpb].
    { destruct (verifyId_block block0
        (verifyVersion block0 (verifyPreviousBlock block0
           (verifySignature block0 (mkResult false [])))))
        as [Heq|[i Heq]]; rewrite Hid in Heq; simpl in Heq; subst b1;
        split; reflexivity. }
    unfold verifyForkOne. rewrite Hpb, Hprev.
    rewrite bool_decide_eq_false_2 by exact Hne. cbn [negb andb snd].
    unfold verifyBlockSlot. cbv zeta. rewrite Hts. fold slot.
    replace ((slots_currentSlotNumber <? slot)%Z
             || (slot <=? slots_getSlotNumber (Block.timestamp lastBlock))%Z)
      with false.
    + destruct (head_conclude (verifyPayload b1 r1)
                  (ForkOne (Block.previousBlock block0) (Block.id lastBlock)))
        as [-> ->]. reflexivity.
    + symmetry. apply orb_false_iff. rewrite Z.ltb_ge, Z.leb_gt.
      unfold badSlot in Hok. lia.
Qed.

(** X28.  [onNewBlock] keeps at most [blockSlotWindow] ids once it holds no
    more than that: it appends the id of the block and drops the oldest
    id when the list has grown too long; with a window of at least one,
    a block carrying the id just recorded is refused as already in the
    chain. *)
Theorem onNewBlock_keeps_window (block : Block.t)
    (lastNBlockIds : list (option string)) :
  let ids := onNewBlock block lastNBlockIds in
  ((Z.of_nat (length lastNBlockIds) <= blockSlotWindow)%Z ->
   (Z.of_nat (length ids) <= blockSlotWindow)%Z) /\
  (ids = lastNBlockIds ++ [Block.id block] \/
   ids = tail (lastNBlockIds ++ [Block.id block])) /\
  ((1 <= blockSlotWindow)%Z ->
   forall received result,
     Block.id received = Block.id block ->
     AlreadyInChain
       ∈ errors (verifyAgainstLastNBlockIds ids received result)).
Proof.
  intros ids. unfold ids, onNewBlock. cbv zeta.
  destruct (blockSlotWindow <? _)%Z eqn:Hw.
  - apply Z.ltb_lt in Hw. rewrite length_app in Hw. simpl in Hw.
    split; [|split; [right; reflexivity|]].
    + intros Hlen. destruct lastNBlockIds as [|i l]; simpl in *; [lia|].
      rewrite length_app. simpl. lia.
    + intros Hone received result Hid. unfold verifyAgainstLastNBlockIds.
      rewrite bool_decide_eq_true_2.
      * rewrite pushError_errors. apply elem_of_app. right. left.
      * rewrite Hid. destruct lastNBlockIds as [|i l]; simpl in *; [lia|].
        apply elem_of_app. right. left.
  - apply Z.ltb_ge in Hw. rewrite length_app in Hw. simpl in Hw.
    split; [|split; [left; reflexivity|]].
    + intros _. rewrite length_app. simpl. lia.
    + intros Hone received result Hid. unfold verifyAgainstLastNBlockIds.
      rewrite bool_decide_eq_true_2.
      * rewrite pushError_errors. apply elem_of_app. right. left.
      * rewrite Hid. apply elem_of_app. right. left.
Qed.
End ReportProperties.

(** ** Block properties with a default *)

Section BlockPropertiesProperties.
Import Verify.

Lemma orZero_present x : exists n, orZero x = Some n.
Proof.
  destruct x as [n|]; simpl; [destruct (n =? 0)%Z|]; eauto.
Qed.

Lemma orZero_deleteWhen x :
  deleteWhen (fun n => (n =? 0)%Z) (orZero (deleteWhen (fun n => (n =? 0)%Z) x))
  = deleteWhen (fun n => (n =? 0)%Z) x.
Proof.
  destruct x as [n|]; simpl; [|reflexivity].
  destruct (n =? 0)%Z eqn:Hn; simpl; [reflexivity|]. rewrite Hn. simpl.
  rewrite Hn. reflexivity.
Qed.

Lemma orZero_restores (n : Z) :
  orZero (deleteWhen (fun n => (n =? 0)%Z) (Some n)) = Some n.
Proof.
  simpl. destruct (n =? 0)%Z eqn:Hn; simpl.
  - apply Z.eqb_eq in Hn. subst n. reflexivity.
  - rewrite Hn. reflexivity.
Qed.

(** X29.  [deleteBlockProperties] and [addBlockProperties]: completing a
    reduced block and reducing it again gives the reduced block back;
    reducing a block and completing it gives the block back exactly when
    it has every property and its [numberOfTransactions] is the length
    of its [transactions]; a completed block has every property. *)
Theorem block_properties_round_trip (o : BlockObject.t) :
  deleteBlockProperties (addBlockProperties (deleteBlockProperties o))
  = deleteBlockProperties o /\
  (addBlockProperties (deleteBlockProperties o) = o <->
   exists b, o = BlockObject.ofBlock b /\
             Block.numberOfTransactions b
             = Z.of_nat (length (Block.transactions b))) /\
  is_Some (BlockObject.toBlock (addBlockProperties o)).
Proof.
  destruct o as [i h pb ts ph v r a f l n txs]. split; [|split].
  - unfold deleteBlockProperties, addBlockProperties.
    cbn [BlockObject.id BlockObject.height BlockObject.previousBlock
         BlockObject.timestamp BlockObject.payloadHash BlockObject.version
         BlockObject.reward BlockObject.totalAmount BlockObject.totalFee
         BlockObject.payloadLength BlockObject.numberOfTransactions
         BlockObject.transactions].
    rewrite !orZero_deleteWhen. f_equal.
    + destruct v as [x|]; simpl; [|reflexivity].
      destruct (x =? 0)%Z eqn:Hx; simpl; [reflexivity|]. rewrite Hx. reflexivity.
    + destruct l as [x|]; simpl; [|reflexivity].
      destruct (x =? 0)%Z eqn:Hx; simpl; [reflexivity|]. rewrite Hx. reflexivity.
    + destruct n; simpl; destruct txs as [[|t q]|]; reflexivity.
    + destruct txs as [[|t q]|]; reflexivity.
  - split.
    + intros Heq. unfold deleteBlockProperties, addBlockProperties in Heq.
      cbn [BlockObject.id BlockObject.height BlockObject.previousBlock
           BlockObject.timestamp BlockObject.payloadHash BlockObject.version
           BlockObject.reward BlockObject.totalAmount BlockObject.totalFee
           BlockObject.payloadLength BlockObject.numberOfTransactions
           BlockObject.transactions] in Heq.
      injection Heq as Hv Hr Ha Hf Hl Hn Ht.
      destruct v as [v|]; [|discriminate].
      destruct r as [r|]; [|destruct (orZero_present None); discriminate].
      destruct a as [a|]; [|discriminate].
      destruct f as [f|]; [|discriminate].
      destruct l as [l|]; [|discriminate].
      destruct txs as [txs|]; [|discriminate].
      destruct n as [n|];
        [|destruct txs; destruct (deleteWhen _ _); discriminate].
      exists (Block.mk i h pb ts v r a f l ph n txs). split; [reflexivity|].
      cbn [Block.numberOfTransactions Block.transactions].
      destruct txs as [|t q]; injection Hn as <-; reflexivity.
    + intros (b & -> & Hcount). destruct b as [i' h' pb' ts' v' r' a' f' l' ph' n' txs'].
      simpl in Hcount. subst n'.
      unfold deleteBlockProperties, addBlockProperties, BlockObject.ofBlock.
      cbn [BlockObject.id BlockObject.height BlockObject.previousBlock
           BlockObject.timestamp BlockObject.payloadHash BlockObject.version
           BlockObject.reward BlockObject.totalAmount BlockObject.totalFee
           BlockObject.payloadLength BlockObject.numberOfTransactions
           BlockObject.transactions Block.id Block.height Block.previousBlock
           Block.timestamp Block.payloadHash Block.version Block.reward
           Block.totalAmount Block.totalFee Block.payloadLength
           Block.numberOfTransactions Block.transactions].
      rewrite !orZero_restores. f_equal.
      * simpl. destruct (v' =? 0)%Z eqn:Hx; [|reflexivity].
        apply Z.eqb_eq in Hx. subst. reflexivity.
      * simpl. destruct (l' =? 0)%Z eqn:Hx; [|reflexivity].
        apply Z.eqb_eq in Hx. subst. reflexivity.
      * simpl. destruct txs'; reflexivity.
      * simpl. destruct txs'; reflexivity.
  - unfold addBlockProperties, BlockObject.toBlock.
    cbn [BlockObject.id BlockObject.height BlockObject.previousBlock
         BlockObject.timestamp BlockObject.payloadHash BlockObject.version
         BlockObject.reward BlockObject.totalAmount BlockObject.totalFee
         BlockObject.payloadLength BlockObject.numberOfTransactions
         BlockObject.transactions].
    destruct (orZero_present a) as [a' ->], (orZero_present f) as [f' ->],
      (orZero_present r) as [r' ->].
    destruct v, l, n, txs; eauto.
Qed.
End BlockPropertiesProperties.

(** ** Runs of the further properties *)

Section MoreRuns.
#[local] Existing Instance Scenario.utils.
#[local] Existing Instance Scenario.constants.
#[local] Existing Instance Scenario.logic.
#[local] Existing Instance Scenario.blockLogic.
Import PoolSpec Scenario.

(** X5 at the pool holding [T1], [T5] and [T7]. *)
Lemma stored_transactions_stay_listed_witness :
  reachable busy /\
  let p := transactionPool busy in
  NoDup (fst <$> pool p) /\
  (forall t, inById t p ->
     inBySender t p /\ (type t = SEND -> inByRecipient t p)) /\
  (forall s t, t ∈ TransactionPool.getTransactionsBySenderId s p ->
     senderId t = s) /\
  (forall r t, t ∈ TransactionPool.getTransactionsByRecipientId r p ->
     recipientId t = r /\ type t = SEND).
Proof.
  split; [exact reachable_busy|].
  apply (stored_transactions_stay_listed busy reachable_busy).
Defined.

(** X6 at the sender of [T1]. *)
Lemma removeTransactionBySenderId_clears_sender_witness :
  reachable busy /\
  let bucket :=
    TransactionPool.getTransactionsBySenderId "DDKA" (transactionPool busy) in
  exists gone w',
    TransactionPool.removeTransactionBySenderId "DDKA" busy = (Normal gone, w') /\
    gone `sublist_of` bucket /\
    withoutIds bucket (transactionPool busy) (transactionPool w') /\
    (forall u, inById u (transactionPool w') -> senderId u <> "DDKA"%string).
Proof.
  split; [exact reachable_busy|].
  apply (removeTransactionBySenderId_clears_sender "DDKA" busy reachable_busy).
Defined.

(** X7 at the recipient of [T7]. *)
Lemma removeTransactionByRecipientId_clears_recipient_witness :
  reachable busy /\
  let bucket :=
    TransactionPool.getTransactionsByRecipientId "DDKA" (transactionPool busy) in
  exists gone w',
    TransactionPool.removeTransactionByRecipientId "DDKA" busy
    = (Normal gone, w') /\
    gone `sublist_of` bucket /\
    withoutIds bucket (transactionPool busy) (transactionPool w') /\
    (forall u, inById u (transactionPool w') -> type u = SEND ->
               recipientId u <> "DDKA"%string).
Proof.
  split; [exact reachable_busy|].
  apply (removeTransactionByRecipientId_clears_recipient "DDKA" busy
           reachable_busy).
Defined.

(** X9 at a limit of two. *)
Lemma getTransactions_previews_popSorted_witness :
  reachable busy /\
  let p := transactionPool busy in
  let listed := TransactionPool.getTransactions (Some 2%Z) None p in
  fst (TransactionPool.popSortedUnconfirmedTransactions
         (Z.min (default maxSharedTxs (Some 2%Z)) maxSharedTxs) busy)
  = Normal (fst listed) /\
  snd listed = TransactionPool.getSize p /\
  TransactionPool.getTransactions (Some 2%Z) (Some "") p = listed.
Proof.
  split; [exact reachable_busy|].
  apply (getTransactions_previews_popSorted (Some 2%Z) busy reachable_busy).
Defined.

(** X11 at the key of the sender of [T1]. *)
Lemma getTransactions_counts_dependents_witness :
  "A"%string <> ""%string /\
  let p := transactionPool busy in
  let listed := TransactionPool.getTransactions None (Some "A") p in
  (forall trs, senderPublicKey trs = "A"%string ->
     snd listed = length (dependent trs p) /\
     forall t, t ∈ fst listed -> t ∈ dependent trs p) /\
  (snd listed = 0%nat <->
   forall trs, senderPublicKey trs = "A"%string ->
               TransactionPool.isPotentialConflict trs p = false).
Proof.
  split; [discriminate|].
  apply (getTransactions_counts_dependents None "A" (transactionPool busy)).
  discriminate.
Defined.

Lemma genuine_T1copy_T2 t s :
  t ∈ [T1copy; T2] ->
  TransactionPool.get (id t) (transactionPool busy) = Some s ->
  senderId s = senderId t.
Proof.
  intros Ht Hs. apply elem_of_cons in Ht as [->|Ht].
  - vm_compute in Hs. injection Hs as <-. reflexivity.
  - apply list_elem_of_singleton in Ht. subst t. vm_compute in Hs.
    discriminate.
Defined.

(** X12 at a copy of [T1] and at [T2], which is not in the pool. *)
Lemma removeFromPool_without_dependents_witness :
  reachable busy /\
  (forall t s, t ∈ [T1copy; T2] ->
     TransactionPool.get (id t) (transactionPool busy) = Some s ->
     senderId s = senderId t) /\
  exists gone w',
    Transactions.removeFromPool [T1copy; T2] false busy = (Normal gone, w') /\
    gone `sublist_of` [T1copy; T2] /\
    withoutIds [T1copy; T2] (transactionPool busy) (transactionPool w') /\
    (forall t, t ∈ [T1copy; T2] ->
               TransactionPool.has t (transactionPool w') = false).
Proof.
  split; [exact reachable_busy|]. split; [exact genuine_T1copy_T2|].
  apply (removeFromPool_without_dependents [T1copy; T2] busy reachable_busy
           genuine_T1copy_T2).
Defined.

(** X13 at [T1]. *)
Lemma removeFromPool_with_dependents_witness :
  reachable busy /\
  exists gone w',
    Transactions.removeFromPool [T1] true busy = (Normal gone, w') /\
    forall u, inById u (transactionPool w') ->
      inById u (transactionPool busy) /\
      forall t, t ∈ [T1] ->
        senderId u <> senderId t /\
        (type u = SEND -> recipientId u <> senderId t).
Proof.
  split; [exact reachable_busy|].
  apply (removeFromPool_with_dependents [T1] busy reachable_busy).
Defined.


(** X17 at the queue holding [T7], with [T2] in the conflicted queue. *)
Lemma reshuffle_drains_conflicted_queue_witness :
  (queue (transactionQueue waiting) <> [] \/
   queueLocked (transactionQueue waiting) = true) /\
  (length (conflictedQueue (transactionQueue waiting)) <= 1)%nat /\
  exists w',
    TransactionQueue.reshuffle 3 1 waiting = (Normal true, w') /\
    conflictedQueue (transactionQueue w') = [] /\
    queue (transactionQueue w')
    ≡ₚ queue (transactionQueue waiting)
       ++ (transaction <$> conflictedQueue (transactionQueue waiting)) /\
    (forall e, e ∈ conflictedQueue (transactionQueue waiting) ->
               statusOf w' !! oid (transaction e) = Some QUEUED) /\
    transactionPool w' = transactionPool waiting.
Proof.
  split; [left; discriminate|]. split; [apply le_n|].
  apply (reshuffle_drains_conflicted_queue 3 waiting);
    [left; discriminate|apply le_n].
Defined.

(** X18 at the same conflicted queue and an empty queue. *)
Lemma reshuffle_never_ends_on_a_conflict_witness :
  queue (transactionQueue stuck) = [] /\
  queueLocked (transactionQueue stuck) = false /\
  conflictedQueue (transactionQueue stuck) = [] ++ [mkEntry T2 1500000300] /\
  TransactionPool.has T2 (transactionPool stuck) = false /\
  TransactionPool.isPotentialConflict T2 (transactionPool stuck) = true /\
  exists w' e',
    TransactionQueue.reshuffle 3 7 stuck = (Normal false, w') /\
    conflictedQueue (transactionQueue w') = [] ++ [e'] /\
    transaction e' = T2 /\
    queue (transactionQueue w') = [] /\
    transactionPool w' = transactionPool stuck.
Proof.
  split; [reflexivity|]. split; [reflexivity|]. split; [reflexivity|].
  split; [reflexivity|]. split; [reflexivity|].
  apply (reshuffle_never_ends_on_a_conflict 2 7 stuck []
           (mkEntry T2 1500000300)); reflexivity.
Defined.

(** X19 at a copy of [T1] queued while [T1] is in the pool. *)
Lemma process_drops_pooled_head_witness :
  queue (transactionQueue resent) = T1copy :: [T2] /\
  queueLocked (transactionQueue resent) = false /\
  TransactionPool.has T1copy (transactionPool resent) = true /\
  TransactionQueue.process 4 resent
  = (Normal tt,
     mkWorld (ledger resent) (clock resent) (statusOf resent) (bus resent)
             (sessions resent) (transactionPool resent)
             (mkQueue [T2] (conflictedQueue (transactionQueue resent)) false)).
Proof.
  split; [reflexivity|]. split; [reflexivity|]. split; [reflexivity|].
  apply (process_drops_pooled_head 3 T1copy [T2] resent); reflexivity.
Defined.

(** X20 at [T1] queued for the empty pool. *)
Lemma process_pools_verified_head_witness :
  queue (transactionQueue queuedT1) = T1 :: [] /\
  queueLocked (transactionQueue queuedT1) = false /\
  locked (transactionPool queuedT1) = false /\
  TransactionPool.has T1 (transactionPool queuedT1) = false /\
  TransactionPool.isPotentialConflict T1 (transactionPool queuedT1) = false /\
  getOrCreateAccount (senderPublicKey T1) (ledger queuedT1)
  = (Normal (mkAccount "DDKA" "A" 100 100), tt) /\
  newVerify T1 (mkAccount "DDKA" "A" 100 100) tt = (Normal tt, tt) /\
  newVerifyUnconfirmed T1 (mkAccount "DDKA" "A" 100 100) tt = (Normal tt, tt) /\
  newApplyUnconfirmed T1 tt = (Normal tt, tt) /\
  Activation.process queuedT1
  = (Normal [Activation.AtGetOrCreateAccount T1
               (Normal (mkAccount "DDKA" "A" 100 100))],
     mkWorld tt (clock queuedT1) (statusOf queuedT1) (bus queuedT1)
             (sessions queuedT1) (transactionPool queuedT1)
             (mkQueue [] (conflictedQueue (transactionQueue queuedT1)) false)) /\
  Activation.alone 6 Activation.process queuedT1
  = Activation.spawn Activation.process
      (mkWorld tt (clock queuedT1)
         (<[oid T1 := UNCOFIRM_APPLIED]>
            (<[oid T1 := PUT_IN_POOL]>
               (<[oid T1 := VERIFIED]> (statusOf queuedT1))))
         (bus queuedT1 ++ [("transactionPutInPool"%string, T1)])
         (sessions queuedT1
            ++ [mkSession (address (mkAccount "DDKA" "A" 100 100)) true None])
         (inserted T1 (transactionPool queuedT1))
         (mkQueue [] (conflictedQueue (transactionQueue queuedT1)) false)).
Proof.
  repeat (split; [reflexivity|]).
  apply (process_pools_verified_head T1 [] queuedT1
           (mkAccount "DDKA" "A" 100 100) tt tt tt tt); reflexivity.
Defined.

(** Two calls of [putInQueue] in a row, for [T1] and then for [T2], which
    is in conflict with [T1] once [T1] is in the pool.  Each call finds
    the queue empty and starts a call of [process]; the second call of
    [process] meets a queue that holds [T2], an empty pool and no
    conflict.  The first call of [process] then runs its six stretches,
    and the second one its five: [T2] is verified, the pool refuses it,
    and it ends in the conflicted queue. *)
Example overlapping_calls_park_a_verified_head :
  let put := Activation.happenAll [Activation.Put T1] [] start in
  let run :=
    Activation.happenAll
      ([Activation.Put T1; Activation.Put T2; Activation.Resume 0]
         ++ replicate 5 (Activation.Resume 1)
         ++ replicate 5 (Activation.Resume 0))
      [] start in
  fst put = Normal [Activation.AtGetOrCreateAccount T1
                      (Normal (mkAccount "DDKA" "A" 100 100))] /\
  queue (transactionQueue (snd put)) = [] /\
  TransactionPool.has T2 (transactionPool (snd put)) = false /\
  TransactionPool.isPotentialConflict T2 (transactionPool (snd put)) = false /\
  fst run = Normal [] /\
  TransactionPool.has T1 (transactionPool (snd run)) = true /\
  TransactionPool.has T2 (transactionPool (snd run)) = false /\
  queue (transactionQueue (snd run)) = [] /\
  conflictedQueue (transactionQueue (snd run)) = [mkEntry T2 1500000300] /\
  statusOf (snd run) !! oid T1 = Some UNCOFIRM_APPLIED /\
  statusOf (snd run) !! oid T2 = Some QUEUED_AS_CONFLICTED /\
  sessions (snd run)
  = [mkSession "DDKA" true None; mkSession "DDKA" true None].
Proof. vm_compute. repeat split. Qed.

End MoreRuns.

Section StrictRuns.
#[local] Existing Instance Scenario.utils.
#[local] Existing Instance Scenario.constants.
#[local] Existing Instance Scenario.strict.
Import PoolSpec Scenario.

(** X21 at [T8], which pays no fee, on the ledger that asks for one. *)
Lemma process_declines_unverified_head_witness :
  queue (transactionQueue queuedT8) = T8 :: [] /\
  queueLocked (transactionQueue queuedT8) = false /\
  TransactionPool.has T8 (transactionPool queuedT8) = false /\
  TransactionPool.isPotentialConflict T8 (transactionPool queuedT8) = false /\
  getOrCreateAccount (senderPublicKey T8) (ledger queuedT8)
  = (Normal (mkAccount "DDKF" "F" 100 100), tt) /\
  TransactionQueue.verify T8 (mkAccount "DDKF" "F" 100 100)
    (mkWorld tt (clock queuedT8) (statusOf queuedT8) (bus queuedT8)
             (sessions queuedT8) (transactionPool queuedT8)
             (mkQueue [] (conflictedQueue (transactionQueue queuedT8)) false))
  = (Normal (false, [Error "Invalid transaction fee"]),
     mkWorld tt (clock queuedT8) (statusOf queuedT8) (bus queuedT8)
             [mkSession "DDKF" false (Some "Invalid transaction fee"%string)]
             (transactionPool queuedT8) (mkQueue [] [] false)) /\
  TransactionQueue.process 4 queuedT8
  = detached (TransactionQueue.process 3)
      (mkWorld tt (clock queuedT8) (<[oid T8 := DECLINED]> (statusOf queuedT8))
               (bus queuedT8)
               [mkSession "DDKF" false (Some "Invalid transaction fee"%string)]
               (transactionPool queuedT8) (mkQueue [] [] false)).
Proof.
  repeat (split; [reflexivity|]).
  apply (process_declines_unverified_head 3 T8 [] queuedT8
           (mkWorld tt (clock queuedT8) (statusOf queuedT8) (bus queuedT8)
              [mkSession "DDKF" false (Some "Invalid transaction fee"%string)]
              (transactionPool queuedT8) (mkQueue [] [] false))
           (mkAccount "DDKF" "F" 100 100) tt
           [Error "Invalid transaction fee"]); reflexivity.
Defined.
End StrictRuns.
